(** * VinaToon comic library: rank engine, comment trees, session resume

    A shallow embedding of the logic in [src/types.ts] and [src/App.tsx]:
    the rank-title function, the accent-insensitive text normaliser, the
    comment-tree operations (one written functionally, one by in-place
    mutation of shared objects), the engagement handlers and the two
    effects that record and re-offer the last reading session. *)

From Stdlib Require Import ZArith NArith Ascii String DecimalString.
From stdpp Require Import base numbers option list sorting gmap.

Local Open Scope Z_scope.

(** ** JavaScript strings and numbers *)

Module Js.

(** A JavaScript string is a sequence of UTF-16 code units. *)
Definition jsstring := list N.

(** Source text is UTF-8; [utf16] decodes a literal of the source into the
    code units the running program sees. *)
Fixpoint utf8_decode (bs : list N) : list N :=
  match bs with
  | [] => []
  | b0 :: r0 =>
      if (b0 <? 0x80)%N then b0 :: utf8_decode r0
      else match r0 with
      | [] => [b0]
      | b1 :: r1 =>
          if (b0 <? 0xE0)%N
          then (N.land b0 0x1F * 64 + N.land b1 0x3F)%N :: utf8_decode r1
          else match r1 with
          | [] => [b0; b1]
          | b2 :: r2 =>
              if (b0 <? 0xF0)%N
              then (N.land b0 0x0F * 4096 + N.land b1 0x3F * 64
                    + N.land b2 0x3F)%N :: utf8_decode r2
              else match r2 with
              | [] => [b0; b1; b2]
              | b3 :: r3 =>
                  let cp := (N.land b0 0x07 * 262144 + N.land b1 0x3F * 4096
                             + N.land b2 0x3F * 64 + N.land b3 0x3F)%N in
                  let v := (cp - 0x10000)%N in
                  (0xD800 + N.shiftr v 10)%N
                    :: (0xDC00 + N.land v 0x3FF)%N :: utf8_decode r3
              end
          end
      end
  end.

Fixpoint bytes_of (s : string) : list N :=
  match s with
  | EmptyString => []
  | String a r => N_of_ascii a :: bytes_of r
  end.

Definition utf16 (s : string) : jsstring := utf8_decode (bytes_of s).

(** [x || 0] on an optional number: [undefined] and [0] both give [0]. *)
Definition orZero (x : option Z) : Z := default 0 x.

(** Truthiness of a string: only the empty string is falsy. *)
Definition truthy (s : jsstring) : bool :=
  match s with [] => false | _ => true end.

(** [String(n)] for a non-negative integer. *)
Definition decimal (n : nat) : jsstring :=
  utf16 (NilEmpty.string_of_uint (Nat.to_uint n)).

(** [s.includes(q)]: [q] occurs in [s] as a contiguous run of code units. *)
Fixpoint starts_with (q s : jsstring) : bool :=
  match q, s with
  | [], _ => true
  | _ :: _, [] => false
  | a :: q', b :: s' => (a =? b)%N && starts_with q' s'
  end.

Fixpoint includes (s q : jsstring) : bool :=
  starts_with q s ||
  match s with
  | [] => false
  | _ :: s' => includes s' q
  end.

(** [arr.includes(x)] on an array of strings. *)
Definition arr_includes (arr : list jsstring) (x : jsstring) : bool :=
  bool_decide (x ∈ arr).

End Js.

Import Js.

(** ** Data model ([src/types.ts]) *)

Inductive RankSystem := NONE | CULTIVATION | GALAXY | GAME | DEMON | MAGE.

#[global] Instance RankSystem_eq_dec : EqDecision RankSystem.
Proof. solve_decision. Defined.

(** ** Rank engine *)

Definition RANK_TITLES (system : RankSystem) : list jsstring :=
  match system with
  | NONE => []
  | CULTIVATION =>
      map utf16 ["Phàm Nhân"; "Luyện Khí"; "Trúc Cơ"; "Kim Đan"; "Nguyên Anh";
                 "Hóa Thần"; "Luyện Hư"; "Hợp Thể"; "Đại Thừa"; "Độ Kiếp"]%string
  | GALAXY =>
      map utf16 ["Người Thường"; "Học Đồ"; "Hành Tinh"; "Hằng Tinh"; "Vũ Trụ";
                 "Vực Chủ"; "Giới Chủ"; "Bất Hủ"; "Tôn Giả"; "Chi Chủ"]%string
  | GAME =>
      map utf16 ["Tập Sự"; "Đồng"; "Bạc"; "Vàng"; "Bạch Kim"; "Kim Cương";
                 "Tinh Anh"; "Cao Thủ"; "Thách Đấu"; "Huyền Thoại"]%string
  | DEMON =>
      map utf16 ["Linh Hồn"; "Tiểu Quỷ"; "Ác Quỷ"; "Quỷ Tướng"; "Quỷ Soái";
                 "Quỷ Vương"; "Đại Quỷ Vương"; "Ma Thần"; "Chúa Tể"; "Hư Vô"]%string
  | MAGE =>
      map utf16 ["Người Thường"; "Học Việc"; "Pháp Sư"; "Đại Pháp Sư";
                 "Ma Đạo Sư"; "Đại Ma Đạo Sư"; "Thánh Pháp Sư"; "Pháp Thần";
                 "Chân Lý"; "Đấng Sáng Tạo"]%string
  end.

Definition EXP_THRESHOLDS : list Z :=
  [0; 100; 300; 600; 1000; 1500; 2100; 2800; 3600; 4500].

(** The descending [for] loop of [getUserRank]: [rank_loop exp n] runs the
    iterations [i = n-1, ..., 0] and yields the final value of [level],
    which starts at [0] and is assigned once, just before [break]. *)
Fixpoint rank_loop (exp : Z) (n : nat) : nat :=
  match n with
  | O => O
  | S i =>
      match EXP_THRESHOLDS !! i with
      | Some t => if (t <=? exp) then i else rank_loop exp i
      | None => rank_loop exp i
      end
  end.

Definition rank_level (exp : Z) : nat :=
  rank_loop exp (length EXP_THRESHOLDS).

(** The value of [titles[level]] when it is truthy. *)
Definition title_at (titles : list jsstring) (level : nat) : option jsstring :=
  match titles !! level with
  | Some t => if truthy t then Some t else None
  | None => None
  end.

(** The synthetic label of the fallback branch. *)
Definition fallback_label (level : nat) : jsstring :=
  utf16 "Cấp " ++ decimal (level + 1).

(** [getUserRank(exp = 0, system = 'NONE')]: an omitted argument is [None]. *)
Definition getUserRank (exp : option Z) (system : option RankSystem) : jsstring :=
  let exp := default 0 exp in
  let system := default NONE system in
  if decide (system = NONE) then []
  else
    let level := rank_level exp in
    match title_at (RANK_TITLES system) level with
    | Some t => t
    | None => fallback_label level
    end.

(** ** Text normaliser *)

Module Unicode.

(** An excerpt of the Unicode character database.  It is the database's on
    ASCII, on the precomposed letters of the Vietnamese alphabet, on the
    combining marks U+0300..U+036F and on the two Hebrew accents U+0591 and
    U+0592; statements about the normaliser are restricted to those code
    units. *)

(** Full canonical decompositions. *)
Definition decomposition_table : list (N * list N) :=
  [(0x340, [0x300]); (0x341, [0x301]); (0x343, [0x313]);
   (0x344, [0x308; 0x301]);
   (0xC0, [0x41; 0x300]); (0xC1, [0x41; 0x301]); (0xC2, [0x41; 0x302]);
   (0xC3, [0x41; 0x303]); (0xC8, [0x45; 0x300]); (0xC9, [0x45; 0x301]);
   (0xCA, [0x45; 0x302]); (0xCC, [0x49; 0x300]); (0xCD, [0x49; 0x301]);
   (0xD2, [0x4F; 0x300]); (0xD3, [0x4F; 0x301]); (0xD4, [0x4F; 0x302]);
   (0xD5, [0x4F; 0x303]); (0xD9, [0x55; 0x300]); (0xDA, [0x55; 0x301]);
   (0xDD, [0x59; 0x301]); (0xE0, [0x61; 0x300]); (0xE1, [0x61; 0x301]);
   (0xE2, [0x61; 0x302]); (0xE3, [0x61; 0x303]); (0xE8, [0x65; 0x300]);
   (0xE9, [0x65; 0x301]); (0xEA, [0x65; 0x302]); (0xEC, [0x69; 0x300]);
   (0xED, [0x69; 0x301]); (0xF2, [0x6F; 0x300]); (0xF3, [0x6F; 0x301]);
   (0xF4, [0x6F; 0x302]); (0xF5, [0x6F; 0x303]); (0xF9, [0x75; 0x300]);
   (0xFA, [0x75; 0x301]); (0xFD, [0x79; 0x301]); (0x102, [0x41; 0x306]);
   (0x103, [0x61; 0x306]); (0x128, [0x49; 0x303]); (0x129, [0x69; 0x303]);
   (0x168, [0x55; 0x303]); (0x169, [0x75; 0x303]); (0x1A0, [0x4F; 0x31B]);
   (0x1A1, [0x6F; 0x31B]); (0x1AF, [0x55; 0x31B]); (0x1B0, [0x75; 0x31B]);
   (0x1EA0, [0x41; 0x323]); (0x1EA1, [0x61; 0x323]); (0x1EA2, [0x41; 0x309]);
   (0x1EA3, [0x61; 0x309]); (0x1EA4, [0x41; 0x302; 0x301]); (0x1EA5, [0x61; 0x302; 0x301]);
   (0x1EA6, [0x41; 0x302; 0x300]); (0x1EA7, [0x61; 0x302; 0x300]); (0x1EA8, [0x41; 0x302; 0x309]);
   (0x1EA9, [0x61; 0x302; 0x309]); (0x1EAA, [0x41; 0x302; 0x303]); (0x1EAB, [0x61; 0x302; 0x303]);
   (0x1EAC, [0x41; 0x323; 0x302]); (0x1EAD, [0x61; 0x323; 0x302]); (0x1EAE, [0x41; 0x306; 0x301]);
   (0x1EAF, [0x61; 0x306; 0x301]); (0x1EB0, [0x41; 0x306; 0x300]); (0x1EB1, [0x61; 0x306; 0x300]);
   (0x1EB2, [0x41; 0x306; 0x309]); (0x1EB3, [0x61; 0x306; 0x309]); (0x1EB4, [0x41; 0x306; 0x303]);
   (0x1EB5, [0x61; 0x306; 0x303]); (0x1EB6, [0x41; 0x323; 0x306]); (0x1EB7, [0x61; 0x323; 0x306]);
   (0x1EB8, [0x45; 0x323]); (0x1EB9, [0x65; 0x323]); (0x1EBA, [0x45; 0x309]);
   (0x1EBB, [0x65; 0x309]); (0x1EBC, [0x45; 0x303]); (0x1EBD, [0x65; 0x303]);
   (0x1EBE, [0x45; 0x302; 0x301]); (0x1EBF, [0x65; 0x302; 0x301]); (0x1EC0, [0x45; 0x302; 0x300]);
   (0x1EC1, [0x65; 0x302; 0x300]); (0x1EC2, [0x45; 0x302; 0x309]); (0x1EC3, [0x65; 0x302; 0x309]);
   (0x1EC4, [0x45; 0x302; 0x303]); (0x1EC5, [0x65; 0x302; 0x303]); (0x1EC6, [0x45; 0x323; 0x302]);
   (0x1EC7, [0x65; 0x323; 0x302]); (0x1EC8, [0x49; 0x309]); (0x1EC9, [0x69; 0x309]);
   (0x1ECA, [0x49; 0x323]); (0x1ECB, [0x69; 0x323]); (0x1ECC, [0x4F; 0x323]);
   (0x1ECD, [0x6F; 0x323]); (0x1ECE, [0x4F; 0x309]); (0x1ECF, [0x6F; 0x309]);
   (0x1ED0, [0x4F; 0x302; 0x301]); (0x1ED1, [0x6F; 0x302; 0x301]); (0x1ED2, [0x4F; 0x302; 0x300]);
   (0x1ED3, [0x6F; 0x302; 0x300]); (0x1ED4, [0x4F; 0x302; 0x309]); (0x1ED5, [0x6F; 0x302; 0x309]);
   (0x1ED6, [0x4F; 0x302; 0x303]); (0x1ED7, [0x6F; 0x302; 0x303]); (0x1ED8, [0x4F; 0x323; 0x302]);
   (0x1ED9, [0x6F; 0x323; 0x302]); (0x1EDA, [0x4F; 0x31B; 0x301]); (0x1EDB, [0x6F; 0x31B; 0x301]);
   (0x1EDC, [0x4F; 0x31B; 0x300]); (0x1EDD, [0x6F; 0x31B; 0x300]); (0x1EDE, [0x4F; 0x31B; 0x309]);
   (0x1EDF, [0x6F; 0x31B; 0x309]); (0x1EE0, [0x4F; 0x31B; 0x303]); (0x1EE1, [0x6F; 0x31B; 0x303]);
   (0x1EE2, [0x4F; 0x31B; 0x323]); (0x1EE3, [0x6F; 0x31B; 0x323]); (0x1EE4, [0x55; 0x323]);
   (0x1EE5, [0x75; 0x323]); (0x1EE6, [0x55; 0x309]); (0x1EE7, [0x75; 0x309]);
   (0x1EE8, [0x55; 0x31B; 0x301]); (0x1EE9, [0x75; 0x31B; 0x301]); (0x1EEA, [0x55; 0x31B; 0x300]);
   (0x1EEB, [0x75; 0x31B; 0x300]); (0x1EEC, [0x55; 0x31B; 0x309]); (0x1EED, [0x75; 0x31B; 0x309]);
   (0x1EEE, [0x55; 0x31B; 0x303]); (0x1EEF, [0x75; 0x31B; 0x303]); (0x1EF0, [0x55; 0x31B; 0x323]);
   (0x1EF1, [0x75; 0x31B; 0x323]); (0x1EF2, [0x59; 0x300]); (0x1EF3, [0x79; 0x300]);
   (0x1EF4, [0x59; 0x323]); (0x1EF5, [0x79; 0x323]); (0x1EF6, [0x59; 0x309]);
   (0x1EF7, [0x79; 0x309]); (0x1EF8, [0x59; 0x303]); (0x1EF9, [0x79; 0x303])]%N.

(** Canonical combining classes, by range; every other code unit of the
    excerpt is a starter (class 0). *)
Definition ccc_table : list (N * N * N) :=
  [(0x300, 0x314, 230); (0x315, 0x315, 232); (0x316, 0x319, 220); (0x31A, 0x31A, 232);
   (0x31B, 0x31B, 216); (0x31C, 0x320, 220); (0x321, 0x322, 202); (0x323, 0x326, 220);
   (0x327, 0x328, 202); (0x329, 0x333, 220); (0x334, 0x338, 1); (0x339, 0x33C, 220);
   (0x33D, 0x344, 230); (0x345, 0x345, 240); (0x346, 0x346, 230); (0x347, 0x349, 220);
   (0x34A, 0x34C, 230); (0x34D, 0x34E, 220); (0x34F, 0x34F, 0); (0x350, 0x352, 230);
   (0x353, 0x356, 220); (0x357, 0x357, 230); (0x358, 0x358, 232); (0x359, 0x35A, 220);
   (0x35B, 0x35B, 230); (0x35C, 0x35C, 233); (0x35D, 0x35E, 234); (0x35F, 0x35F, 233);
   (0x360, 0x361, 234); (0x362, 0x362, 233); (0x363, 0x36F, 230);
   (0x591, 0x591, 220); (0x592, 0x592, 230)]%N.

(** Table lookup. *)
Fixpoint assoc {A} (k : N) (t : list (N * A)) : option A :=
  match t with
  | [] => None
  | (k', v) :: r => if (k =? k')%N then Some v else assoc k r
  end.

(** A code unit without an entry decomposes to itself. *)
Definition canonical_decomposition (c : N) : list N :=
  match assoc c decomposition_table with
  | Some d => d
  | None => [c]
  end.

Fixpoint ccc_in (c : N) (t : list (N * N * N)) : N :=
  match t with
  | [] => 0%N
  | (lo, hi, k) :: r =>
      if ((lo <=? c) && (c <=? hi))%N then k else ccc_in c r
  end.

Definition ccc (c : N) : N := ccc_in c ccc_table.

(** Canonical ordering: a non-starter moves left past the marks of
    strictly greater class that precede it.  [out] is the text emitted so
    far, last code unit first. *)
Fixpoint place (c : N) (out : list N) : list N :=
  match out with
  | [] => [c]
  | p :: r =>
      if (negb (ccc c =? 0) && (ccc c <? ccc p))%N
      then p :: place c r
      else c :: out
  end.

Definition canonical_order (s : jsstring) : jsstring :=
  rev (fold_left (fun out c => place c out) s []).

(** Modelled from the spec: [String.prototype.normalize('NFD')] is a
    built-in of the JavaScript runtime, not code of the repository; the
    spec calls it Unicode decomposition.  It is canonical decomposition
    followed by canonical ordering, over the excerpt above. *)
Definition normalize_NFD (s : jsstring) : jsstring :=
  canonical_order (flat_map canonical_decomposition s).

(** The precomposed capitals: the entries whose base letter is in [A-Z]. *)
Definition is_upper_vn (c : N) : bool :=
  match assoc c decomposition_table with
  | Some (b :: _) => ((0x41 <=? b) && (b <=? 0x5A))%N
  | _ => false
  end.

(** Lower-case mapping of one code unit: [A-Z], the capital Vietnamese
    letters (offset 32 in Latin-1, offset 1 elsewhere) and the capital D
    with stroke. *)
Definition lower_unit (c : N) : N :=
  if ((0x41 <=? c) && (c <=? 0x5A))%N then (c + 32)%N
  else if (c =? 0x110)%N then 0x111%N
  else if is_upper_vn c then (if (c <? 0x100)%N then c + 32 else c + 1)%N
  else c.

(** Modelled from the spec: [String.prototype.toLowerCase] is a built-in
    of the runtime as well ("lower-cases the result"); on the excerpt it
    maps code units one by one. *)
Definition toLowerCase (s : jsstring) : jsstring := map lower_unit s.

End Unicode.

(** The class [[\u0300-\u036f]] of the regular expression. *)
Definition is_combining_mark (c : N) : bool := ((0x300 <=? c) && (c <=? 0x36F))%N.

(** [str.replace(/[\u0300-\u036f]/g, '')]. *)
Definition strip_marks (s : jsstring) : jsstring :=
  filter (fun c => is_combining_mark c = false) s.

(** [str.replace(/x/g, y)] for single code units [x] and [y]. *)
Definition replace_unit (x y : N) (s : jsstring) : jsstring :=
  map (fun c => if (c =? x)%N then y else c) s.

Definition removeAccents (str : jsstring) : jsstring :=
  Unicode.toLowerCase
    (replace_unit 0x110 0x44
       (replace_unit 0x111 0x64
          (strip_marks (Unicode.normalize_NFD str)))).

(** ** Records of [src/types.ts]

    An optional field ([f?: T]) is an [option]; numbers are integers (view
    counts, experience and millisecond timestamps are never fractional). *)

Record ReadingProgress := mkReadingProgress {
  rp_chapterId : jsstring;
  rp_chapterTitle : jsstring;
  rp_pageIndex : Z;
  rp_timestamp : Z
}.

(** The fields of a comment other than [replies]. *)
Record CommentFields := mkCommentFields {
  c_id : jsstring;
  c_userId : jsstring;
  c_username : jsstring;
  c_userAvatar : jsstring;
  c_userTitle : option jsstring;
  c_userRankSystem : option RankSystem;
  c_content : jsstring;
  c_likes : option (list jsstring);
  c_createdAt : Z
}.

(** A comment as a value: its fields and its nested replies. *)
#[local] Unset Elimination Schemes.
Inductive Comment := mkComment {
  fields : CommentFields;
  replies : option (list Comment)
}.

#[local] Set Elimination Schemes.

Definition comment_id (c : Comment) : jsstring := c_id (fields c).

Record Chapter := mkChapter {
  ch_id : jsstring;
  ch_title : jsstring;
  ch_pages : list jsstring;
  ch_comments : list Comment;
  ch_viewCount : option Z;
  ch_createdAt : Z
}.

Record Rating := mkRating { r_userId : jsstring; r_score : Z }.

Inductive ComicStatus := ONGOING | COMPLETED.

Record Comic := mkComic {
  co_id : jsstring;
  co_title : jsstring;
  co_author : jsstring;
  co_description : jsstring;
  co_tags : list jsstring;
  co_coverImage : jsstring;
  co_chapters : list Chapter;
  co_comments : list Comment;
  co_ratings : list Rating;
  co_status : ComicStatus;
  co_viewCount : option Z;
  co_lastRead : option ReadingProgress;
  co_createdAt : Z;
  co_updatedAt : Z
}.

Inductive Role := ADMIN | USER.

Record User := mkUser {
  u_id : jsstring;
  u_username : jsstring;
  u_password : option jsstring;
  u_email : jsstring;
  u_avatar : option jsstring;
  u_role : Role;
  u_exp : option Z;
  u_rankSystem : option RankSystem;
  u_followedComics : option (list jsstring)
}.

Inductive ViewState := GALLERY | DETAIL | READER.

#[global] Instance ReadingProgress_eq_dec : EqDecision ReadingProgress.
Proof. solve_decision. Defined.
#[global] Instance CommentFields_eq_dec : EqDecision CommentFields.
Proof. solve_decision. Defined.

(** ** Comment tree engine: like toggling ([toggleLikeInComments])

    The function is written without assignment: [map], [filter] and object
    spread build new values, so it is a function on comment values. *)

Definition set_likes (f : CommentFields) (l : list jsstring) : CommentFields :=
  mkCommentFields (c_id f) (c_userId f) (c_username f) (c_userAvatar f)
    (c_userTitle f) (c_userRankSystem f) (c_content f) (Some l) (c_createdAt f).

(** [isLiked ? currentLikes.filter(id => id !== userId)
            : [...currentLikes, userId]] with [currentLikes = c.likes || []]. *)
Definition toggled_likes (likes : option (list jsstring)) (userId : jsstring)
  : list jsstring :=
  let currentLikes := default [] likes in
  if arr_includes currentLikes userId
  then filter (fun i => i ≠ userId) currentLikes
  else currentLikes ++ [userId].

Fixpoint toggleLikeInComment (commentId userId : jsstring) (c : Comment) : Comment :=
  if decide (comment_id c = commentId) then
    mkComment (set_likes (fields c) (toggled_likes (c_likes (fields c)) userId))
              (replies c)
  else
    match replies c with
    | Some (r :: rs) =>
        mkComment (fields c)
                  (Some (map (toggleLikeInComment commentId userId) (r :: rs)))
    | _ => c
    end.

Definition toggleLikeInComments (comments : list Comment)
    (commentId userId : jsstring) : list Comment :=
  map (toggleLikeInComment commentId userId) comments.

(** ** View composer: the filtered and sorted gallery ([filteredComics]) *)

Inductive SortOption := LATEST | VIEWS | AZ.
Inductive SearchScope := SCOPE_ALL | SCOPE_TITLE | SCOPE_AUTHOR.

Definition CAT_ALL : jsstring := utf16 "Tất cả".
Definition CAT_FOLLOWING : jsstring := utf16 "Đang theo dõi".
Definition CAT_HISTORY : jsstring := utf16 "Lịch sử".

Section Sort.
Context {A : Type} (cmp : A → A → Z).

(** [x] goes before the first element it does not compare greater than. *)
Fixpoint sort_insert (x : A) (l : list A) : list A :=
  match l with
  | [] => [x]
  | y :: r => if cmp x y <=? 0 then x :: l else y :: sort_insert x r
  end.

(** Modelled from the spec: [Array.prototype.sort(cmp)] is a built-in of
    the runtime.  The sort is stable ("stable order from the underlying
    collection"), and for a comparator that is a consistent ordering its
    result is the one stable sorted arrangement, whatever algorithm the
    engine uses; it is computed here by stable insertion. *)
Definition array_sort (l : list A) : list A := foldr sort_insert [] l.
End Sort.

(** [b.lastRead?.timestamp || 0]. *)
Definition lastReadTimestamp (c : Comic) : Z :=
  orZero (rp_timestamp <$> co_lastRead c).

Section ViewComposer.
(** [String.prototype.localeCompare] is a built-in of the runtime. *)
Variable localeCompare : jsstring → jsstring → Z.

Variables (searchQuery : jsstring) (searchScope : SearchScope)
          (selectedCategory : jsstring) (sortOption : SortOption)
          (user : option User).

Definition matchesSearch (comic : Comic) : bool :=
  let normalizedQuery := removeAccents searchQuery in
  if negb (truthy normalizedQuery) then true
  else match searchScope with
  | SCOPE_AUTHOR => includes (removeAccents (co_author comic)) normalizedQuery
  | SCOPE_TITLE => includes (removeAccents (co_title comic)) normalizedQuery
  | SCOPE_ALL =>
      includes (removeAccents (co_title comic)) normalizedQuery
      || includes (removeAccents (co_author comic)) normalizedQuery
      || existsb (fun tag => includes (removeAccents tag) normalizedQuery)
                 (co_tags comic)
  end.

Definition matchesCategory (comic : Comic) : bool :=
  if decide (selectedCategory = CAT_ALL) then true
  else if decide (selectedCategory = CAT_FOLLOWING) then
    match user with
    | Some u =>
        match u_followedComics u with
        | Some follows => arr_includes follows (co_id comic)
        | None => false
        end
    | None => false
    end
  else if decide (selectedCategory = CAT_HISTORY) then
    bool_decide (is_Some (co_lastRead comic))
  else arr_includes (co_tags comic) selectedCategory.

(** The comparator passed to [sort]. *)
Definition compareComics (a b : Comic) : Z :=
  if decide (selectedCategory = CAT_HISTORY) then
    lastReadTimestamp b - lastReadTimestamp a
  else match sortOption with
  | VIEWS => orZero (co_viewCount b) - orZero (co_viewCount a)
  | AZ => localeCompare (co_title a) (co_title b)
  | LATEST => co_updatedAt b - co_updatedAt a
  end.

Definition filteredComics (comics : list Comic) : list Comic :=
  array_sort compareComics
    (List.filter (fun comic => matchesSearch comic && matchesCategory comic)
                 comics).
End ViewComposer.

(** ** Application state and handlers ([App]) *)

Record ResumeData := mkResumeData {
  rd_comic : Comic;
  rd_chapter : option Chapter
}.

(** What [JSON.parse] makes of the text stored under
    ['vinatoon_last_session']: the pair written by the session effect
    ([chapterId] is dropped by [JSON.stringify] when undefined), or a value
    on which parsing or the field access throws. *)
Record Session := mkSession {
  s_comicId : jsstring;
  s_chapterId : option jsstring
}.

Inductive StoredSession := ValidSession (p : Session) | CorruptSession.

(** Calls that leave the component: the storage service and the user
    entry of [localStorage], which the handlers write and never read. *)
Inductive IoCall :=
| SaveComicToLibrary (c : Comic)
| DeleteComicFromLibrary (id : jsstring)
| UpdateUserInDB (u : User)
| StoreUser (u : User).

(** Which dependencies of the two effects received a new value since the
    last commit. *)
Record Dirty := mkDirty {
  d_comics : bool;
  d_selectedComic : bool;
  d_selectedChapter : bool;
  d_resumeData : bool
}.

Definition clean : Dirty := mkDirty false false false false.

(** The component state held by [useState], the session entry of
    [localStorage], and the trace of outgoing calls. *)
Record AppState := mkAppState {
  view : ViewState;
  comics : list Comic;
  searchQuery : jsstring;
  selectedCategory : jsstring;
  searchScope : SearchScope;
  selectedComic : option Comic;
  selectedChapter : option Chapter;
  user : option User;
  resumeData : option ResumeData;
  ls_last_session : option StoredSession;
  io_log : list IoCall;
  dirty : Dirty
}.

Definition with_view (v : ViewState) (s : AppState) : AppState :=
  mkAppState v (comics s) (searchQuery s) (selectedCategory s) (searchScope s) (selectedComic s) (selectedChapter s) (user s) (resumeData s) (ls_last_session s) (io_log s) (dirty s).
Definition with_comics (v : list Comic) (s : AppState) : AppState :=
  mkAppState (view s) v (searchQuery s) (selectedCategory s) (searchScope s) (selectedComic s) (selectedChapter s) (user s) (resumeData s) (ls_last_session s) (io_log s) (dirty s).
Definition with_searchQuery (v : jsstring) (s : AppState) : AppState :=
  mkAppState (view s) (comics s) v (selectedCategory s) (searchScope s) (selectedComic s) (selectedChapter s) (user s) (resumeData s) (ls_last_session s) (io_log s) (dirty s).
Definition with_selectedCategory (v : jsstring) (s : AppState) : AppState :=
  mkAppState (view s) (comics s) (searchQuery s) v (searchScope s) (selectedComic s) (selectedChapter s) (user s) (resumeData s) (ls_last_session s) (io_log s) (dirty s).
Definition with_searchScope (v : SearchScope) (s : AppState) : AppState :=
  mkAppState (view s) (comics s) (searchQuery s) (selectedCategory s) v (selectedComic s) (selectedChapter s) (user s) (resumeData s) (ls_last_session s) (io_log s) (dirty s).
Definition with_selectedComic (v : option Comic) (s : AppState) : AppState :=
  mkAppState (view s) (comics s) (searchQuery s) (selectedCategory s) (searchScope s) v (selectedChapter s) (user s) (resumeData s) (ls_last_session s) (io_log s) (dirty s).
Definition with_selectedChapter (v : option Chapter) (s : AppState) : AppState :=
  mkAppState (view s) (comics s) (searchQuery s) (selectedCategory s) (searchScope s) (selectedComic s) v (user s) (resumeData s) (ls_last_session s) (io_log s) (dirty s).
Definition with_user (v : option User) (s : AppState) : AppState :=
  mkAppState (view s) (comics s) (searchQuery s) (selectedCategory s) (searchScope s) (selectedComic s) (selectedChapter s) v (resumeData s) (ls_last_session s) (io_log s) (dirty s).
Definition with_resumeData (v : option ResumeData) (s : AppState) : AppState :=
  mkAppState (view s) (comics s) (searchQuery s) (selectedCategory s) (searchScope s) (selectedComic s) (selectedChapter s) (user s) v (ls_last_session s) (io_log s) (dirty s).
Definition with_ls_last_session (v : option StoredSession) (s : AppState) : AppState :=
  mkAppState (view s) (comics s) (searchQuery s) (selectedCategory s) (searchScope s) (selectedComic s) (selectedChapter s) (user s) (resumeData s) v (io_log s) (dirty s).
Definition with_io_log (v : list IoCall) (s : AppState) : AppState :=
  mkAppState (view s) (comics s) (searchQuery s) (selectedCategory s) (searchScope s) (selectedComic s) (selectedChapter s) (user s) (resumeData s) (ls_last_session s) v (dirty s).
Definition with_dirty (v : Dirty) (s : AppState) : AppState :=
  mkAppState (view s) (comics s) (searchQuery s) (selectedCategory s) (searchScope s) (selectedComic s) (selectedChapter s) (user s) (resumeData s) (ls_last_session s) (io_log s) v.

(** Object spread with one field replaced. *)
Definition comic_with_viewCount (v : option Z) (c : Comic) : Comic :=
  mkComic (co_id c) (co_title c) (co_author c) (co_description c) (co_tags c)
    (co_coverImage c) (co_chapters c) (co_comments c) (co_ratings c)
    (co_status c) v (co_lastRead c) (co_createdAt c) (co_updatedAt c).

Definition comic_with_chapters (chs : list Chapter) (c : Comic) : Comic :=
  mkComic (co_id c) (co_title c) (co_author c) (co_description c) (co_tags c)
    (co_coverImage c) chs (co_comments c) (co_ratings c)
    (co_status c) (co_viewCount c) (co_lastRead c) (co_createdAt c)
    (co_updatedAt c).

Definition comic_with_lastRead (r : option ReadingProgress) (c : Comic) : Comic :=
  mkComic (co_id c) (co_title c) (co_author c) (co_description c) (co_tags c)
    (co_coverImage c) (co_chapters c) (co_comments c) (co_ratings c)
    (co_status c) (co_viewCount c) r (co_createdAt c) (co_updatedAt c).

Definition chapter_with_viewCount (v : option Z) (ch : Chapter) : Chapter :=
  mkChapter (ch_id ch) (ch_title ch) (ch_pages ch) (ch_comments ch) v
    (ch_createdAt ch).

Definition user_with_exp (e : option Z) (u : User) : User :=
  mkUser (u_id u) (u_username u) (u_password u) (u_email u) (u_avatar u)
    (u_role u) e (u_rankSystem u) (u_followedComics u).

(** The [useState] setters.  Setting [null] over [null] is the one case in
    which React sees no change; every object the handlers pass is freshly
    built. *)
Definition changed {A} (old new : option A) : bool :=
  match old, new with
  | None, None => false
  | _, _ => true
  end.

Definition setComics (v : list Comic) (s : AppState) : AppState :=
  let d := dirty s in
  with_dirty (mkDirty true (d_selectedComic d) (d_selectedChapter d)
                      (d_resumeData d))
             (with_comics v s).

Definition setSelectedComic (v : option Comic) (s : AppState) : AppState :=
  let d := dirty s in
  with_dirty (mkDirty (d_comics d)
                      (d_selectedComic d || changed (selectedComic s) v)
                      (d_selectedChapter d) (d_resumeData d))
             (with_selectedComic v s).

Definition setSelectedChapter (v : option Chapter) (s : AppState) : AppState :=
  let d := dirty s in
  with_dirty (mkDirty (d_comics d) (d_selectedComic d)
                      (d_selectedChapter d || changed (selectedChapter s) v)
                      (d_resumeData d))
             (with_selectedChapter v s).

Definition setResumeData (v : option ResumeData) (s : AppState) : AppState :=
  let d := dirty s in
  with_dirty (mkDirty (d_comics d) (d_selectedComic d) (d_selectedChapter d)
                      (d_resumeData d || changed (resumeData s) v))
             (with_resumeData v s).

Definition emit (c : IoCall) (s : AppState) : AppState :=
  with_io_log (io_log s ++ [c]) s.

(** [prev.map(c => c.id === x.id ? x : c)]. *)
Definition replace_comic (x : Comic) (prev : list Comic) : list Comic :=
  map (fun c => if decide (co_id c = co_id x) then x else c) prev.

(** [chapters.map(ch => ch.id === id ? {...ch, viewCount: (ch.viewCount || 0) + 1} : ch)]. *)
Definition bump_chapter (id : jsstring) (chapters : list Chapter) : list Chapter :=
  map (fun ch => if decide (ch_id ch = id)
                 then chapter_with_viewCount (Some (orZero (ch_viewCount ch) + 1)) ch
                 else ch) chapters.

Definition find_chapter (id : jsstring) (chapters : list Chapter) : option Chapter :=
  List.find (fun ch => bool_decide (ch_id ch = id)) chapters.

Definition find_comic (id : jsstring) (cs : list Comic) : option Comic :=
  List.find (fun c => bool_decide (co_id c = id)) cs.

(** The experience reward shared by [handleReadChapter] and
    [handleResumeSession]. *)
Definition grant_exp (s : AppState) : AppState :=
  match user s with
  | Some u =>
      let updatedUser := user_with_exp (Some (orZero (u_exp u) + 10)) u in
      emit (UpdateUserInDB updatedUser)
        (emit (StoreUser updatedUser) (with_user (Some updatedUser) s))
  | None => s
  end.

Definition handleOpenComic (comic : Comic) (s : AppState) : AppState :=
  let updatedComic :=
    comic_with_viewCount (Some (orZero (co_viewCount comic) + 1)) comic in
  let s := emit (SaveComicToLibrary updatedComic) s in
  let s := setComics (replace_comic updatedComic (comics s)) s in
  let s := setSelectedComic (Some updatedComic) s in
  with_view DETAIL s.

(** [now] is the value of [Date.now()]. *)
Definition handleReadChapter (now : Z) (chapter : Chapter) (s : AppState) : AppState :=
  match selectedComic s with
  | None => s
  | Some sc =>
      let updatedChapters := bump_chapter (ch_id chapter) (co_chapters sc) in
      let updatedComic :=
        comic_with_lastRead
          (Some (mkReadingProgress (ch_id chapter) (ch_title chapter) 0 now))
          (comic_with_chapters updatedChapters sc) in
      let s := emit (SaveComicToLibrary updatedComic) s in
      let s := setComics (replace_comic updatedComic (comics s)) s in
      let s := setSelectedComic (Some updatedComic) s in
      let updatedChapter :=
        default chapter (find_chapter (ch_id chapter) updatedChapters) in
      let s := setSelectedChapter (Some updatedChapter) s in
      let s := grant_exp s in
      with_view READER s
  end.

Definition handleResumeSession (s : AppState) : AppState :=
  match resumeData s with
  | None => s
  | Some rd =>
      let updatedComic :=
        comic_with_viewCount (Some (orZero (co_viewCount (rd_comic rd)) + 1))
                             (rd_comic rd) in
      let s := emit (SaveComicToLibrary updatedComic) s in
      let s := setComics (replace_comic updatedComic (comics s)) s in
      let s := setSelectedComic (Some updatedComic) s in
      let s :=
        match rd_chapter rd with
        | Some rch =>
            let updatedChapters :=
              bump_chapter (ch_id rch) (co_chapters updatedComic) in
            let finalComic := comic_with_chapters updatedChapters updatedComic in
            let s := emit (SaveComicToLibrary finalComic) s in
            let s := setComics (replace_comic finalComic (comics s)) s in
            let s := setSelectedComic (Some finalComic) s in
            let targetChapter :=
              default rch (find_chapter (ch_id rch) updatedChapters) in
            let s := setSelectedChapter (Some targetChapter) s in
            let s := grant_exp s in
            with_view READER s
        | None => with_view DETAIL s
        end in
      setResumeData None s
  end.

Definition handleDismissResume (s : AppState) : AppState :=
  with_ls_last_session None (setResumeData None s).

Definition handleTagClick (tag : jsstring) (s : AppState) : AppState :=
  setSelectedComic None
    (with_view GALLERY (with_searchQuery [] (with_selectedCategory tag s))).

Definition goBack (s : AppState) : AppState :=
  match view s with
  | READER => setSelectedChapter None (with_view DETAIL s)
  | _ =>
      with_selectedCategory CAT_ALL
        (with_searchQuery [] (setSelectedComic None (with_view GALLERY s)))
  end.

(** The [onHomeClick] callback given to the header. *)
Definition onHomeClick (s : AppState) : AppState :=
  with_searchScope SCOPE_ALL
    (with_selectedCategory CAT_ALL
       (with_searchQuery []
          (setSelectedChapter None
             (setSelectedComic None (with_view GALLERY s))))).

(** [loadLibrary] once [getLibrary()] has answered with [loadedComics]. *)
Definition loadLibrary (loadedComics : list Comic) (s : AppState) : AppState :=
  setComics loadedComics s.

(** [user?.role !== 'ADMIN'] is false. *)
Definition is_admin (user : option User) : bool :=
  match user with
  | Some u => match u_role u with ADMIN => true | USER => false end
  | None => false
  end.

(** [handleDeleteComic] (lines 260-282).  [confirmed] is the answer of
    [confirm(...)] and [updatedLibrary] that of
    [await deleteComicFromLibrary(id)]; [r] is the render in which the
    handler was called, whose [user], [selectedComic] and [resumeData] its
    closure reads, and [s] the state being built.  The notifications it
    shows are not part of [AppState]. *)
Definition handleDeleteComic (id : jsstring) (confirmed : bool)
    (updatedLibrary : list Comic) (r s : AppState) : AppState :=
  if negb (is_admin (user r)) then s
  else if confirmed then
    let s := emit (DeleteComicFromLibrary id) s in
    let s := setComics updatedLibrary s in
    let s :=
      match selectedComic r with
      | Some sc =>
          if decide (co_id sc = id)
          then setSelectedComic None (with_view GALLERY s)
          else s
      | None => s
      end in
    match resumeData r with
    | Some rd =>
        if decide (co_id (rd_comic rd) = id)
        then with_ls_last_session None (setResumeData None s)
        else s
    | None => s
    end
  else s.

(** ** The two effects *)

(** The effect on [[comics, selectedComic]] (lines 80-100).  [r] is the
    rendered state the closure captured; [s] is the state being built, which
    carries [localStorage]. *)
Definition resumeEffect (r s : AppState) : AppState :=
  match comics r, selectedComic r with
  | _ :: _, None =>
      match ls_last_session s with
      | Some (ValidSession parsed) =>
          match find_comic (s_comicId parsed) (comics r) with
          | Some foundComic =>
              let foundChapter :=
                match s_chapterId parsed with
                | Some cid =>
                    if truthy cid
                    then find_chapter cid (co_chapters foundComic)
                    else None
                | None => None
                end in
              setResumeData (Some (mkResumeData foundComic foundChapter)) s
          | None => s
          end
      | Some CorruptSession => s
      | None => s
      end
  | _, _ => s
  end.

(** The effect on [[selectedComic, selectedChapter, resumeData]]
    (lines 102-114). *)
Definition sessionEffect (r s : AppState) : AppState :=
  match selectedComic r with
  | Some sc =>
      let session := mkSession (co_id sc) (ch_id <$> selectedChapter r) in
      let s := with_ls_last_session (Some (ValidSession session)) s in
      match resumeData r with
      | Some rd =>
          if decide (co_id (rd_comic rd) = co_id sc)
          then setResumeData None s
          else s
      | None => s
      end
  | None => s
  end.

(** One commit: the effects whose dependencies changed run in source order
    on the rendered state; their [setState] calls mark the next commit. *)
Definition commit (r : AppState) : AppState :=
  let d := dirty r in
  let s := with_dirty clean r in
  let s := if d_comics d || d_selectedComic d then resumeEffect r s else s in
  if d_selectedComic d || d_selectedChapter d || d_resumeData d
  then sessionEffect r s else s.

(** The effects only ever set [resumeData], so three commits reach a state
    in which no dependency is dirty (lemma [settle_clean]). *)
Definition settle (s : AppState) : AppState := commit (commit (commit s)).

(** The user events and service answers that change [AppState].
    [TagClick] is [handleTagClick], and also the header's
    [onCategorySelect], which has the same body.  [DeleteComic] is the
    click on a card's delete button together with the answers of
    [confirm] and of the storage service; the latter is taken to arrive
    before any other event, so the render its closure captured is the
    current state. *)
Inductive Event :=
| OpenComic (comic : Comic)
| ReadChapter (now : Z) (chapter : Chapter)
| ResumeSession
| DismissResume
| TagClick (tag : jsstring)
| GoBack
| HomeClick
| LibraryLoaded (loadedComics : list Comic)
| DeleteComic (id : jsstring) (confirmed : bool) (updatedLibrary : list Comic).

Definition handle (e : Event) (s : AppState) : AppState :=
  match e with
  | OpenComic comic => handleOpenComic comic s
  | ReadChapter now chapter => handleReadChapter now chapter s
  | ResumeSession => handleResumeSession s
  | DismissResume => handleDismissResume s
  | TagClick tag => handleTagClick tag s
  | GoBack => goBack s
  | HomeClick => onHomeClick s
  | LibraryLoaded loadedComics => loadLibrary loadedComics s
  | DeleteComic id confirmed updatedLibrary =>
      handleDeleteComic id confirmed updatedLibrary s s
  end.

(** A user event followed by the commits it causes. *)
Definition step (s : AppState) (e : Event) : AppState := settle (handle e s).

Definition run (s : AppState) (es : list Event) : AppState := fold_left step es s.

(** ** Comment tree engine: replies ([addReplyRecursively])

    [addReplyRecursively] assigns to [comment.replies] and pushes onto the
    array it finds there, so for this function comments and arrays are
    objects in a store, addressed by reference. *)

Definition loc := nat.

Inductive object :=
| CommentObject (f : CommentFields) (replies_ref : option loc)
| ArrayObject (elems : list loc).

Abbreviation heap := (gmap loc object).

Definition alloc (h : heap) : loc := fresh (dom h).

(** [arr.push(x)] on the array at [a]. *)
Definition push (h : heap) (a x : loc) : option heap :=
  match h !! a with
  | Some (ArrayObject elems) => Some (<[a := ArrayObject (elems ++ [x])]> h)
  | _ => None
  end.

(** The body of the [for ... of] loop over [comments], given the recursive
    call as [recurse].  The loop reads the array once: the only write to
    any array is the [push] that is followed by [return true]. *)
Definition addReply_loop (recurse : heap → loc → option (heap * bool))
    (parentId : jsstring) (newReply : loc)
  : heap → list loc → option (heap * bool) :=
  fix loop (h : heap) (elems : list loc) : option (heap * bool) :=
    match elems with
    | [] => Some (h, false)
    | l :: rest =>
        match h !! l with
        | Some (CommentObject f r) =>
            if decide (c_id f = parentId) then
              match r with
              | Some a => h' ← push h a newReply; Some (h', true)
              | None =>
                  let a := alloc h in
                  let h := <[a := ArrayObject []]> h in
                  let h := <[l := CommentObject f (Some a)]> h in
                  h' ← push h a newReply; Some (h', true)
              end
            else
              match r with
              | Some a =>
                  match h !! a with
                  | Some (ArrayObject []) => loop h rest
                  | Some (ArrayObject (_ :: _)) =>
                      match recurse h a with
                      | Some (h', true) => Some (h', true)
                      | Some (h', false) => loop h' rest
                      | None => None
                      end
                  | _ => None
                  end
              | None => loop h rest
              end
        | _ => None
        end
    end.

(** The result is [None] when [fuel] does not cover the nesting depth, or
    when a reference does not hold the kind of object its TypeScript type
    promises. *)
Fixpoint addReplyRecursively (fuel : nat) (h : heap) (comments : loc)
    (parentId : jsstring) (newReply : loc) : option (heap * bool) :=
  match fuel with
  | O => None
  | S fuel =>
      match h !! comments with
      | Some (ArrayObject elems) =>
          addReply_loop
            (λ h a, addReplyRecursively fuel h a parentId newReply)
            parentId newReply h elems
      | _ => None
      end
  end.

(** The comment forest a holder of the reference [a] observes. *)
Fixpoint read_comments (fuel : nat) (h : heap) (a : loc) : option (list Comment) :=
  match fuel with
  | O => None
  | S fuel =>
      match h !! a with
      | Some (ArrayObject elems) =>
          mapM (fun l =>
                  match h !! l with
                  | Some (CommentObject f None) => Some (mkComment f None)
                  | Some (CommentObject f (Some a')) =>
                      rs ← read_comments fuel h a'; Some (mkComment f (Some rs))
                  | _ => None
                  end) elems
      | _ => None
      end
  end.

(** The comment literal built by [handleAddChapterComment]; [t_id] and
    [t_created] are the two readings of [Date.now()]. *)
Definition newCommentFields (user : User) (content : jsstring)
    (t_id t_created : Z) : CommentFields :=
  {| c_id := decimal (Z.to_nat t_id);
     c_userId := u_id user;
     c_username := u_username user;
     c_userAvatar := default [] (u_avatar user);
     c_userTitle :=
       Some (getUserRank (Some (orZero (u_exp user)))
                         (Some (default NONE (u_rankSystem user))));
     c_userRankSystem := Some (default NONE (u_rankSystem user));
     c_content := content;
     c_likes := Some [];
     c_createdAt := t_created |}.

(** Lines 551-570 of [handleAddChapterComment], past its guard: [comments]
    is the reference in [selectedChapter.comments] (if any), and the result
    is the store together with the reference [updatedComments]. *)
Definition handleAddChapterComment (fuel : nat) (h : heap)
    (comments : option loc) (user : User) (content : jsstring)
    (parentId : option jsstring) (t_id t_created : Z) : option (heap * loc) :=
  let repliesRef := alloc h in
  let h := <[repliesRef := ArrayObject []]> h in
  let newComment := alloc h in
  let h := <[newComment :=
               CommentObject (newCommentFields user content t_id t_created)
                             (Some repliesRef)]> h in
  elems ← match comments with
          | Some a =>
              match h !! a with
              | Some (ArrayObject elems) => Some elems
              | _ => None
              end
          | None => Some []
          end;
  let updatedComments := alloc h in
  let h := <[updatedComments := ArrayObject elems]> h in
  match parentId with
  | Some (u :: us) =>
      '(h', _) ← addReplyRecursively fuel h updatedComments (u :: us) newComment;
      Some (h', updatedComments)
  | _ =>
      h' ← push h updatedComments newComment;
      Some (h', updatedComments)
  end.


(** ** Specification vocabulary *)

(** [i] is the highest index whose threshold [exp] has reached. *)
Definition highest_index (exp : Z) (i : nat) : Prop :=
  (∃ t, EXP_THRESHOLDS !! i = Some t ∧ t ≤ exp) ∧
  ∀ j t, EXP_THRESHOLDS !! j = Some t → t ≤ exp → (j ≤ i)%nat.


(** [l] lists its elements by descending [key] when
    [StronglySorted (key_desc key) l]. *)
Definition key_desc {A} (key : A → Z) (a b : A) : Prop := key b ≤ key a.

(** A comment forest laid out in the store: every comment with the
    reference it lives at, and the reference of its [replies] array when it
    has one. *)
#[local] Unset Elimination Schemes.
Inductive ltree :=
| LNode (l : loc) (f : CommentFields) (r : option loc) (kids : list ltree).
#[local] Set Elimination Schemes.

Definition lt_loc (t : ltree) : loc :=
  match t with LNode l _ _ _ => l end.

(** The comment value a located comment stands for. *)
Fixpoint erase (t : ltree) : Comment :=
  match t with
  | LNode _ f r kids =>
      mkComment f (match r with
                   | Some _ => Some (map erase kids)
                   | None => None
                   end)
  end.

(** The references a located comment occupies. *)
Fixpoint footprint (t : ltree) : list loc :=
  match t with
  | LNode l _ r kids =>
      l :: match r with Some a => [a] | None => [] end
        ++ flat_map footprint kids
  end.

(** The store holds the located comment [t]. *)
Fixpoint stored (h : heap) (t : ltree) : Prop :=
  match t with
  | LNode l f r kids =>
      h !! l = Some (CommentObject f r) ∧
      match r with
      | Some a => h !! a = Some (ArrayObject (map lt_loc kids))
      | None => kids = []
      end ∧
      foldr (λ k rest, stored h k ∧ rest) True kids
  end.

Fixpoint depth (t : ltree) : nat :=
  match t with
  | LNode _ _ _ kids => S (foldr (λ k m, Nat.max (depth k) m) 0%nat kids)
  end.

Definition forest_depth (ts : list ltree) : nat :=
  foldr (λ k m, Nat.max (depth k) m) 0%nat ts.

(** The array at [a] holds the located forest [ts]. *)
Definition stored_forest (h : heap) (a : loc) (ts : list ltree) : Prop :=
  h !! a = Some (ArrayObject (map lt_loc ts)) ∧ Forall (stored h) ts.

(** The forest shares no object: every reference is used once. *)
Definition unshared (a : loc) (ts : list ltree) : Prop :=
  NoDup (a :: flat_map footprint ts).

(** Some comment of the subtree of [c] has id [p]. *)
Fixpoint mentions (p : jsstring) (c : Comment) : bool :=
  bool_decide (comment_id c = p)
  || match replies c with
     | Some rs => existsb (mentions p) rs
     | None => false
     end.

(** [comment.replies.push(n)], after [comment.replies = []] if there was
    no array. *)
Definition push_reply (n : Comment) (c : Comment) : Comment :=
  mkComment (fields c) (Some (default [] (replies c) ++ [n])).

(** [reply_added p n f f']: the forest [f'] is [f] with [n] appended to the
    replies of the first comment with id [p] in pre-order, and nothing
    else changed.  The search passes the siblings whose subtrees do not
    mention [p] and enters the first one that does: at its root if the
    root has id [p], among its replies otherwise. *)
Inductive reply_added (p : jsstring) (n : Comment)
  : list Comment → list Comment → Prop :=
| added_here (c : Comment) (rest : list Comment) :
    comment_id c = p →
    reply_added p n (c :: rest) (push_reply n c :: rest)
| added_below (c : Comment) (rs rs' rest : list Comment) :
    comment_id c ≠ p → replies c = Some rs →
    reply_added p n rs rs' →
    reply_added p n (c :: rest) (mkComment (fields c) (Some rs') :: rest)
| added_later (c : Comment) (rest rest' : list Comment) :
    mentions p c = false →
    reply_added p n rest rest' →
    reply_added p n (c :: rest) (c :: rest').

(** What a call of [addReplyRecursively] (or a run of its loop) must have
    returned as [res] on the store [h], where the located forest [ts] is
    stored and the new reply is the located comment [tn]: if no comment
    has id [p], the store untouched and [false]; otherwise [true] and a
    store that holds, at the same references, a forest [ts'] whose value is
    [reply_added] to that of [ts], with nothing changed outside the
    forest. *)
Definition addReply_outcome (p : jsstring) (tn : ltree) (h : heap)
    (ts : list ltree) (res : option (heap * bool)) : Prop :=
  (existsb (mentions p) (map erase ts) = false → res = Some (h, false)) ∧
  (existsb (mentions p) (map erase ts) = true →
   ∃ h' ts',
     res = Some (h', true) ∧
     map lt_loc ts' = map lt_loc ts ∧
     Forall (stored h') ts' ∧
     stored h' tn ∧
     reply_added p (erase tn) (map erase ts) (map erase ts') ∧
     ∀ x, x ∉ flat_map footprint ts → is_Some (h !! x) → h' !! x = h !! x).

(** The number of comments of a subtree, and of a forest. *)
Fixpoint count_comment (c : Comment) : nat :=
  S (match replies c with
     | Some rs => foldr (λ r m, count_comment r + m)%nat 0%nat rs
     | None => 0%nat
     end).

Definition count_comments (f : list Comment) : nat :=
  foldr (λ r m, count_comment r + m)%nat 0%nat f.

(** The candidate the resume effect derives from the stored session and the
    library (the spec's [resolveSession]); lemma [resumeEffect_resolve]
    relates it to the effect. *)
Definition resolveSession (stored : option StoredSession) (cs : list Comic)
  : option ResumeData :=
  match stored with
  | Some (ValidSession parsed) =>
      match find_comic (s_comicId parsed) cs with
      | Some foundComic =>
          Some (mkResumeData foundComic
                  (match s_chapterId parsed with
                   | Some cid =>
                       if truthy cid
                       then find_chapter cid (co_chapters foundComic)
                       else None
                   | None => None
                   end))
      | None => None
      end
  | _ => None
  end.

(** Two optional like arrays with the same members; an absent array counts
    as empty, and order and repetition are ignored. *)
Definition same_members (a b : option (list jsstring)) : Prop :=
  ∀ x, x ∈ default [] a ↔ x ∈ default [] b.

Definition fields_equiv (f g : CommentFields) : Prop :=
  c_id f = c_id g ∧ c_userId f = c_userId g ∧ c_username f = c_username g ∧
  c_userAvatar f = c_userAvatar g ∧ c_userTitle f = c_userTitle g ∧
  c_userRankSystem f = c_userRankSystem g ∧ c_content f = c_content g ∧
  c_createdAt f = c_createdAt g ∧ same_members (c_likes f) (c_likes g).

(** Comments that agree on everything but the arrangement of their like
    arrays. *)
#[local] Unset Elimination Schemes.
Inductive comment_equiv : Comment → Comment → Prop :=
| comment_equiv_node (f g : CommentFields) (r r' : option (list Comment)) :
    fields_equiv f g →
    option_Forall2 (Forall2 comment_equiv) r r' →
    comment_equiv (mkComment f r) (mkComment g r').
#[local] Set Elimination Schemes.

(** A like array that two toggles by [userId] give back as it was: it is
    present, and [userId] is not in it or is its last entry and nowhere
    else. *)
Definition restorable_likes (userId : jsstring)
    (likes : option (list jsstring)) : Prop :=
  ∃ l, likes = Some l ∧
       (userId ∉ l ∨ ∃ l0, l = l0 ++ [userId] ∧ userId ∉ l0).

(** [restorable_likes] at every comment the traversal of
    [toggleLikeInComments] toggles. *)
Fixpoint restorable (commentId userId : jsstring) (c : Comment) : Prop :=
  if decide (comment_id c = commentId) then
    restorable_likes userId (c_likes (fields c))
  else
    match replies c with
    | Some rs => foldr (λ r rest, restorable commentId userId r ∧ rest) True rs
    | None => True
    end.

(** The code units of Vietnamese text: ASCII, the precomposed letters of
    the Vietnamese alphabet, the two letters d with stroke, and the
    combining marks U+0300..U+036F of decomposed text. *)
Definition vietnamese_unit (c : N) : bool :=
  (c <? 0x80)%N
  || bool_decide (is_Some (Unicode.assoc c Unicode.decomposition_table))
  || (c =? 0x110)%N || (c =? 0x111)%N
  || is_combining_mark c.

(** What the normaliser leaves of Vietnamese text: ASCII without capitals. *)
Definition folded_unit (c : N) : bool :=
  (c <? 0x80)%N && negb ((0x41 <=? c) && (c <=? 0x5A))%N.

(** What decomposition leaves of Vietnamese text. *)
Definition decomposed_unit (c : N) : bool :=
  (c <? 0x80)%N || (c =? 0x110)%N || (c =? 0x111)%N || is_combining_mark c.

Definition ascii_units : list N := N.of_nat <$> seq 0 128.

(** ** Example data *)

Module Demo.

Definition reader : User :=
  mkUser (utf16 "u1") (utf16 "lan") None (utf16 "lan@example.com") None USER
         (Some 120) (Some GAME) None.

Definition chapter1 : Chapter :=
  mkChapter (utf16 "ch1") (utf16 "Chương 1") [] [] None 1000.

Definition chapter2 : Chapter :=
  mkChapter (utf16 "ch2") (utf16 "Chương 2") [] [] (Some 4) 2000.

Definition comic1 : Comic :=
  mkComic (utf16 "c1") (utf16 "Đường Về") (utf16 "Lê Đông") []
          [utf16 "Tiên Hiệp"] [] [chapter1; chapter2] [] [] ONGOING
          None None 1000 2000.

Definition comic2 : Comic :=
  mkComic (utf16 "c2") (utf16 "Biển Xanh") (utf16 "An") []
          [utf16 "Phiêu Lưu"] [] [] [] [] COMPLETED
          (Some 7) (Some (mkReadingProgress (utf16 "x") (utf16 "X") 0 900))
          500 600.

(** A comment liked by two users. *)
Definition liked_comment : Comment :=
  mkComment
    (mkCommentFields (utf16 "c1") (utf16 "u2") (utf16 "minh") [] None None
                     (utf16 "hay") (Some [utf16 "u1"; utf16 "u2"]) 5)
    None.

(** A stored comment thread: [c1] with the reply [c3], then [c2]. *)
Definition comment_fields (id content : string) : CommentFields :=
  mkCommentFields (utf16 id) (utf16 "u2") (utf16 "minh") [] None None
                  (utf16 content) (Some []) 5.

Definition thread : list ltree :=
  [LNode 1%nat (comment_fields "c1" "hay") (Some 2%nat)
         [LNode 4%nat (comment_fields "c3" "hay qua") None []];
   LNode 3%nat (comment_fields "c2" "ok") None []].

Definition thread_heap : heap :=
  list_to_map
    [(0%nat, ArrayObject [1%nat; 3%nat]);
     (1%nat, CommentObject (comment_fields "c1" "hay") (Some 2%nat));
     (2%nat, ArrayObject [4%nat]);
     (3%nat, CommentObject (comment_fields "c2" "ok") None);
     (4%nat, CommentObject (comment_fields "c3" "hay qua") None)].

(** A new comment, allocated next to the thread. *)
Definition new_reply : ltree :=
  LNode 5%nat (comment_fields "c9" "moi") (Some 6%nat) [].

Definition thread_heap_with_reply : heap :=
  <[5%nat := CommentObject (comment_fields "c9" "moi") (Some 6%nat)]>
    (<[6%nat := ArrayObject []]> thread_heap).

(** The detail page of [comic1] is open. *)
Definition detail_state : AppState :=
  mkAppState DETAIL [comic1; comic2] [] CAT_ALL SCOPE_ALL (Some comic1) None
             (Some reader) None
             (Some (ValidSession (mkSession (utf16 "c1") None))) [] clean.

(** The gallery after the library lost [chapter2] of [comic1], while the
    stored session still points at it. *)
Definition comic1_short : Comic := comic_with_chapters [chapter1] comic1.

Definition stale_chapter_state : AppState :=
  mkAppState GALLERY [comic1_short; comic2] [] CAT_ALL SCOPE_ALL None None
             (Some reader) None
             (Some (ValidSession (mkSession (utf16 "c1") (Some (utf16 "ch2")))))
             [] clean.

(** The gallery, offering to resume [chapter1] of [comic1]. *)
Definition gallery_state : AppState :=
  mkAppState GALLERY [comic1; comic2] [] CAT_ALL SCOPE_ALL None None
             (Some reader) (Some (mkResumeData comic1 (Some chapter1)))
             (Some (ValidSession (mkSession (utf16 "c1") (Some (utf16 "ch1")))))
             [] clean.

End Demo.

(** ** Specification vocabulary for the handlers *)

(** [s'] differs from [s] at most in what the two effects write: the
    resume candidate, the stored session and the dirty marks. *)
Definition same_selection (s s' : AppState) : Prop :=
  view s' = view s ∧ comics s' = comics s ∧ searchQuery s' = searchQuery s ∧
  selectedCategory s' = selectedCategory s ∧ searchScope s' = searchScope s ∧
  selectedComic s' = selectedComic s ∧ selectedChapter s' = selectedChapter s ∧
  user s' = user s ∧ io_log s' = io_log s.

(** ** Specification vocabulary for the comment trees *)

Definition clear_likes (f : CommentFields) : CommentFields :=
  mkCommentFields (c_id f) (c_userId f) (c_username f) (c_userAvatar f)
    (c_userTitle f) (c_userRankSystem f) (c_content f) None (c_createdAt f).

(** A comment with the like arrays removed, in its replies too: what is
    left is the shape of the tree and every other field. *)
Fixpoint without_likes (c : Comment) : Comment :=
  mkComment (clear_likes (fields c))
            (match replies c with
             | Some rs => Some (map without_likes rs)
             | None => None
             end).

(** The comments of a subtree, in pre-order. *)
Fixpoint comments_of (c : Comment) : list CommentFields :=
  fields c :: match replies c with
              | Some rs => flat_map comments_of rs
              | None => []
              end.

(** ** What a render shows *)

(** The [filteredComics] of a render (line 194), from the state and the
    sort option, the one state variable it reads that [AppState] leaves
    out. *)
Definition gallery (localeCompare : jsstring → jsstring → Z)
    (sortOption : SortOption) (s : AppState) : list Comic :=
  filteredComics localeCompare (searchQuery s) (searchScope s)
    (selectedCategory s) sortOption (user s) (comics s).

(** ** Category chips ([categories], lines 175-192) *)

(** [allTags.add(tag)]: a [Set] keeps its members in insertion order, the
    order in which [Array.from] lists them. *)
Definition set_add (s : list jsstring) (tag : jsstring) : list jsstring :=
  if arr_includes s tag then s else s ++ [tag].

(** [comics.forEach(comic => comic.tags.forEach(tag => allTags.add(tag)))]. *)
Definition allTags (comics : list Comic) : list jsstring :=
  fold_left (λ s comic, fold_left set_add (co_tags comic) s) comics [].

(** The order [sort()] uses without a comparator: strings compare by their
    UTF-16 code units, a proper prefix coming first. *)
Fixpoint string_lt (x y : jsstring) : bool :=
  match x, y with
  | _, [] => false
  | [], _ :: _ => true
  | a :: x', b :: y' => (a <? b)%N || ((a =? b)%N && string_lt x' y')
  end.

Definition default_compare (x y : jsstring) : Z :=
  if string_lt x y then -1 else if string_lt y x then 1 else 0.

(** [comics.some(c => !!c.lastRead)]. *)
Definition has_history (comics : list Comic) : bool :=
  existsb (λ c, bool_decide (is_Some (co_lastRead c))) comics.

Definition categories (comics : list Comic) (user : option User)
  : list jsstring :=
  let sortedTags := array_sort default_compare (allTags comics) in
  let result := CAT_ALL :: sortedTags in
  match user with
  | Some _ =>
      let result := CAT_FOLLOWING :: result in
      if has_history comics then CAT_HISTORY :: result else result
  | None => result
  end.

(** The three labels the composer treats as categories of their own. *)
Definition reserved_label (tag : jsstring) : Prop :=
  tag = CAT_ALL ∨ tag = CAT_FOLLOWING ∨ tag = CAT_HISTORY.

(** ** Following a comic ([handleUpdateUser], lines 139-144, and
    [handleToggleFollow], lines 153-173)

    The notifications the two handlers show are not part of [AppState]. *)
Definition user_with_followedComics (f : option (list jsstring)) (u : User)
  : User :=
  mkUser (u_id u) (u_username u) (u_password u) (u_email u) (u_avatar u)
    (u_role u) (u_exp u) (u_rankSystem u) f.

Definition handleUpdateUser (updatedUser : User) (s : AppState) : AppState :=
  let s := with_user (Some updatedUser) s in
  let s := emit (StoreUser updatedUser) s in
  emit (UpdateUserInDB updatedUser) s.

Definition handleToggleFollow (comicId : jsstring) (s : AppState) : AppState :=
  match user s with
  | None => s
  | Some u =>
      let currentFollows := default [] (u_followedComics u) in
      let isFollowing := arr_includes currentFollows comicId in
      let newFollows :=
        if isFollowing
        then filter (λ id, id ≠ comicId) currentFollows
        else currentFollows ++ [comicId] in
      handleUpdateUser (user_with_followedComics (Some newFollows) u) s
  end.

(** ** What [main] renders (lines 641, 778 and 791)

    The three blocks are guarded by [view === 'GALLERY'],
    [view === 'DETAIL' && selectedComic] and
    [view === 'READER' && selectedComic && selectedChapter]; when none of
    the guards holds, [main] is empty. *)
Inductive Screen :=
| GalleryScreen
| DetailScreen (comic : Comic)
| ReaderScreen (comic : Comic) (chapter : Chapter)
| NoScreen.

Definition screen (s : AppState) : Screen :=
  match view s with
  | GALLERY => GalleryScreen
  | DETAIL =>
      match selectedComic s with
      | Some comic => DetailScreen comic
      | None => NoScreen
      end
  | READER =>
      match selectedComic s, selectedChapter s with
      | Some comic, Some chapter => ReaderScreen comic chapter
      | _, _ => NoScreen
      end
  end.
(** * Properties *)

(** ** Rank engine *)

Ltac case_threshold exp :=
  match goal with
  | |- context [?t <=? exp] => destruct (Z.leb_spec0 t exp)
  end.

Lemma rank_level_bound (exp : Z) : (rank_level exp ≤ 9)%nat.
Proof.
  unfold rank_level; simpl.
  repeat (case (_ <=? exp); [lia|]); lia.
Qed.

Lemma rank_level_negative (exp : Z) : exp < 0 → rank_level exp = 0%nat.
Proof.
  intros Hneg. unfold rank_level; simpl.
  repeat (case_threshold exp; [lia|]); reflexivity.
Qed.

Lemma rank_level_highest (exp : Z) :
  0 ≤ exp → highest_index exp (rank_level exp).
Proof.
  intros Hpos. unfold rank_level; simpl.
  repeat (case_threshold exp;
    [ split; [eexists; split; [reflexivity|assumption]|];
      intros j t Hj Ht;
      do 10 (destruct j as [|j]; [simpl in Hj; simplify_eq; lia|]);
      discriminate
    | ]).
  lia.
Qed.

Lemma rank_level_clamped (exp : Z) :
  rank_level exp = rank_level (Z.max 0 exp).
Proof.
  destruct (Z.max_spec 0 exp) as [[? ->]|[? ->]]; [reflexivity|].
  destruct (decide (exp = 0)) as [->|]; [reflexivity|].
  rewrite rank_level_negative by lia. reflexivity.
Qed.

Lemma title_at_total (system : RankSystem) (level : nat) :
  system ≠ NONE → (level ≤ 9)%nat →
  ∃ t, RANK_TITLES system !! level = Some t ∧
       title_at (RANK_TITLES system) level = Some t.
Proof.
  intros Hs Hl.
  destruct system; [done| | | | |];
    do 10 (destruct level as [|level];
           [eexists; split; vm_compute; reflexivity|]); lia.
Qed.

Lemma title_not_fallback (system : RankSystem) (level : nat) (t : jsstring) :
  RANK_TITLES system !! level = Some t → t ≠ fallback_label level.
Proof.
  destruct system;
    do 10 (destruct level as [|level]; [vm_compute; congruence|]);
    discriminate.
Qed.

Lemma getUserRank_not_none (exp : option Z) (system : RankSystem) :
  system ≠ NONE →
  getUserRank exp (Some system) =
    match title_at (RANK_TITLES system) (rank_level (default 0 exp)) with
    | Some t => t
    | None => fallback_label (rank_level (default 0 exp))
    end.
Proof.
  intros Hs. unfold getUserRank. simpl.
  destruct (decide (system = NONE)); [contradiction|reflexivity].
Qed.

(** C5.  With the system [NONE] (given, or omitted and defaulted)
    [getUserRank] returns the empty string for every [exp].  With any other
    system it returns the entry [i] of that system's title table, [i] being
    the highest index whose threshold in
    [[0,100,300,600,1000,1500,2100,2800,3600,4500]] is at most [exp], where
    an omitted or negative [exp] counts as [0]. *)
Theorem getUserRank_spec (exp : option Z) (system : option RankSystem) :
  let sys := default NONE system in
  (sys = NONE → getUserRank exp system = []) ∧
  (sys ≠ NONE →
   ∃ i, highest_index (Z.max 0 (default 0 exp)) i ∧
        RANK_TITLES sys !! i = Some (getUserRank exp system)).
Proof.
  intros sys. split.
  - intros Hs. unfold getUserRank. fold sys. rewrite Hs. reflexivity.
  - intros Hs. destruct system as [system|]; [|done]. simpl in sys, Hs.
    subst sys. rewrite getUserRank_not_none by done.
    set (e := default 0 exp).
    destruct (title_at_total system (rank_level e) Hs (rank_level_bound e))
      as (t & Hlook & ->).
    exists (rank_level e). split; [|exact Hlook].
    rewrite (rank_level_clamped e). apply rank_level_highest. lia.
Qed.

Lemma getUserRank_spec_witness :
  default NONE (Some GAME) ≠ NONE ∧
  ∃ i, highest_index (Z.max 0 (default 0 (Some (-7)))) i ∧
       RANK_TITLES GAME !! i = Some (getUserRank (Some (-7)) (Some GAME)).
Proof.
  split; [discriminate|].
  apply (getUserRank_spec (Some (-7)) (Some GAME)). discriminate.
Defined.

(** C10.  For every [exp], negative ones included, and every rank system
    other than [NONE], [getUserRank] returns the entry of the system's
    title table at the computed level, which lies between 0 and 9; the
    fallback branch that builds ["Cấp {level+1}"] is never taken, because
    each such table has ten non-empty titles, one per threshold. *)
Theorem getUserRank_fallback_unreachable (exp : option Z) (system : RankSystem) :
  system ≠ NONE →
  length (RANK_TITLES system) = 10%nat ∧
  length EXP_THRESHOLDS = 10%nat ∧
  ∃ i t, (i ≤ 9)%nat ∧
         rank_level (default 0 exp) = i ∧
         RANK_TITLES system !! i = Some t ∧
         title_at (RANK_TITLES system) i = Some t ∧
         getUserRank exp (Some system) = t ∧
         t ≠ fallback_label i.
Proof.
  intros Hs. split; [by destruct system|]. split; [reflexivity|].
  set (e := default 0 exp).
  destruct (title_at_total system (rank_level e) Hs (rank_level_bound e))
    as (t & Hlook & Htitle).
  exists (rank_level e), t. split; [apply rank_level_bound|].
  split; [reflexivity|]. split; [exact Hlook|]. split; [exact Htitle|].
  split; [|by eapply title_not_fallback].
  rewrite getUserRank_not_none by done. fold e. by rewrite Htitle.
Qed.

Lemma getUserRank_fallback_unreachable_witness :
  MAGE ≠ NONE ∧
  ∃ i t, (i ≤ 9)%nat ∧
         rank_level (default 0 (Some 99999)) = i ∧
         RANK_TITLES MAGE !! i = Some t ∧
         title_at (RANK_TITLES MAGE) i = Some t ∧
         getUserRank (Some 99999) (Some MAGE) = t ∧
         t ≠ fallback_label i.
Proof.
  split; [discriminate|].
  apply (getUserRank_fallback_unreachable (Some 99999) MAGE). discriminate.
Defined.

(** ** Engagement recorder *)

Lemma bump_chapter_lookup (id : jsstring) (chapters : list Chapter) (i : nat) :
  bump_chapter id chapters !! i =
    (λ ch, if decide (ch_id ch = id)
           then chapter_with_viewCount (Some (orZero (ch_viewCount ch) + 1)) ch
           else ch) <$> chapters !! i.
Proof. unfold bump_chapter. apply list_lookup_fmap. Qed.

(** C6.  When the open comic has no [viewCount] and the chapter being read,
    one of its chapters, has none either, [handleReadChapter] selects a
    comic whose [viewCount] is still absent and whose other fields are
    those of the open comic, except [chapters] and [lastRead].  Its
    chapters are the old ones position by position: the chapter read now
    has [viewCount = 1] and is otherwise as it was, every chapter with
    that id has its count raised by one, and chapters with another id are
    untouched.  Its [lastRead] is [{chapterId, chapterTitle:
    chapter.title, pageIndex: 0, timestamp: now}].  That comic is also the
    one handed to the store. *)
Theorem handleReadChapter_first_read (now : Z) (chapter : Chapter)
    (s : AppState) (comic : Comic) :
  selectedComic s = Some comic →
  co_viewCount comic = None →
  chapter ∈ co_chapters comic →
  ch_viewCount chapter = None →
  ∃ comic',
    selectedComic (handleReadChapter now chapter s) = Some comic' ∧
    SaveComicToLibrary comic' ∈ io_log (handleReadChapter now chapter s) ∧
    co_viewCount comic' = co_viewCount comic ∧
    co_viewCount comic' = None ∧
    (co_id comic' = co_id comic ∧ co_title comic' = co_title comic ∧
     co_author comic' = co_author comic ∧
     co_description comic' = co_description comic ∧
     co_tags comic' = co_tags comic ∧
     co_coverImage comic' = co_coverImage comic ∧
     co_comments comic' = co_comments comic ∧
     co_ratings comic' = co_ratings comic ∧
     co_status comic' = co_status comic ∧
     co_createdAt comic' = co_createdAt comic ∧
     co_updatedAt comic' = co_updatedAt comic) ∧
    (∃ lastRead, co_lastRead comic' = Some lastRead ∧
       rp_chapterId lastRead = ch_id chapter ∧
       rp_chapterTitle lastRead = ch_title chapter ∧
       rp_pageIndex lastRead = 0 ∧
       rp_timestamp lastRead = now) ∧
    co_lastRead comic' =
      Some (mkReadingProgress (ch_id chapter) (ch_title chapter) 0 now) ∧
    length (co_chapters comic') = length (co_chapters comic) ∧
    (∀ i, co_chapters comic !! i = Some chapter →
          ∃ read, co_chapters comic' !! i = Some read ∧
                  ch_viewCount read = Some 1 ∧
                  ch_id read = ch_id chapter ∧
                  ch_title read = ch_title chapter ∧
                  ch_pages read = ch_pages chapter ∧
                  ch_comments read = ch_comments chapter ∧
                  ch_createdAt read = ch_createdAt chapter) ∧
    (∀ i ch, co_chapters comic !! i = Some ch → ch_id ch = ch_id chapter →
             ∃ read, co_chapters comic' !! i = Some read ∧
                     ch_viewCount read = Some (orZero (ch_viewCount ch) + 1) ∧
                     ch_id read = ch_id ch ∧
                     ch_title read = ch_title ch ∧
                     ch_pages read = ch_pages ch ∧
                     ch_comments read = ch_comments ch ∧
                     ch_createdAt read = ch_createdAt ch) ∧
    (∀ i ch, co_chapters comic !! i = Some ch → ch_id ch ≠ ch_id chapter →
             co_chapters comic' !! i = Some ch) ∧
    (∃ read, read ∈ co_chapters comic' ∧
             ch_viewCount read = Some 1 ∧
             ch_id read = ch_id chapter ∧
             ch_title read = ch_title chapter ∧
             ch_pages read = ch_pages chapter ∧
             ch_comments read = ch_comments chapter ∧
             ch_createdAt read = ch_createdAt chapter).
Proof.
  intros Hsel Hcv Hin Hchv.
  set (chs := bump_chapter (ch_id chapter) (co_chapters comic)).
  set (comic' :=
         comic_with_lastRead
           (Some (mkReadingProgress (ch_id chapter) (ch_title chapter) 0 now))
           (comic_with_chapters chs comic)).
  assert (Hbump : ∀ i ch, co_chapters comic !! i = Some ch →
            ch_id ch = ch_id chapter →
            ∃ read, chs !! i = Some read ∧
                    ch_viewCount read = Some (orZero (ch_viewCount ch) + 1) ∧
                    ch_id read = ch_id ch ∧
                    ch_title read = ch_title ch ∧
                    ch_pages read = ch_pages ch ∧
                    ch_comments read = ch_comments ch ∧
                    ch_createdAt read = ch_createdAt ch).
  { intros i ch Hi Hid. unfold chs. rewrite bump_chapter_lookup, Hi. simpl.
    rewrite decide_True by done. eexists. split; [reflexivity|].
    by repeat split. }
  assert (Hat : ∀ i, co_chapters comic !! i = Some chapter →
            ∃ read, chs !! i = Some read ∧
                    ch_viewCount read = Some 1 ∧
                    ch_id read = ch_id chapter ∧
                    ch_title read = ch_title chapter ∧
                    ch_pages read = ch_pages chapter ∧
                    ch_comments read = ch_comments chapter ∧
                    ch_createdAt read = ch_createdAt chapter).
  { intros i Hi. destruct (Hbump i chapter Hi eq_refl)
      as (read & Hread & Hv & Hrest).
    exists read. split; [exact Hread|]. split; [|exact Hrest].
    by rewrite Hv, Hchv. }
  exists comic'. unfold handleReadChapter. rewrite Hsel. fold chs comic'.
  split.
  { unfold grant_exp. simpl. destruct (user s); reflexivity. }
  split.
  { unfold grant_exp. simpl. destruct (user s); simpl.
    all: rewrite !elem_of_app, !list_elem_of_singleton; auto. }
  split; [by rewrite Hcv|]. split; [exact Hcv|].
  split; [by repeat split|].
  split; [eexists; split; [reflexivity|by repeat split]|].
  split; [reflexivity|].
  split; [change (length chs = length (co_chapters comic)); apply length_map|].
  split; [exact Hat|]. split; [exact Hbump|]. split.
  - intros i ch Hi Hne. simpl. unfold chs.
    rewrite bump_chapter_lookup, Hi. simpl. by rewrite decide_False.
  - apply list_elem_of_lookup in Hin as [i Hi].
    destruct (Hat i Hi) as (read & Hread & Hrest).
    exists read. split; [|exact Hrest].
    apply list_elem_of_lookup. by exists i.
Qed.

Lemma handleReadChapter_first_read_witness :
  ∃ comic',
    selectedComic (handleReadChapter 1700 Demo.chapter1 Demo.detail_state)
      = Some comic' ∧
    co_viewCount comic' = None ∧
    co_lastRead comic' =
      Some (mkReadingProgress (utf16 "ch1") (utf16 "Chương 1") 0 1700) ∧
    ∃ read, read ∈ co_chapters comic' ∧ ch_viewCount read = Some 1 ∧
            ch_id read = utf16 "ch1".
Proof.
  destruct (handleReadChapter_first_read 1700 Demo.chapter1 Demo.detail_state
              Demo.comic1)
    as (comic' & Hsel & _ & _ & Hv & _ & _ & Hl & _ & _ & _ & _
        & read & Hin & Hone & Hid & _).
  - reflexivity.
  - reflexivity.
  - apply list_elem_of_here.
  - reflexivity.
  - exists comic'. split; [exact Hsel|]. split; [exact Hv|].
    split; [exact Hl|]. exists read. auto.
Defined.

(** ** Session tracker *)

Lemma find_comic_None (id : jsstring) (cs : list Comic) :
  (∀ c, c ∈ cs → co_id c ≠ id) → find_comic id cs = None.
Proof.
  intros Habs. unfold find_comic.
  destruct (List.find _ cs) as [c|] eqn:Hf; [|reflexivity].
  apply List.find_some in Hf as [Hin Hid].
  apply bool_decide_eq_true in Hid. apply list_elem_of_In in Hin.
  by destruct (Habs c Hin).
Qed.

Lemma find_comic_Some (id : jsstring) (cs : list Comic) (c : Comic) :
  find_comic id cs = Some c → c ∈ cs ∧ co_id c = id.
Proof.
  unfold find_comic. intros Hf.
  apply List.find_some in Hf as [Hin Hid].
  apply bool_decide_eq_true in Hid. apply list_elem_of_In in Hin. done.
Qed.

Lemma find_comic_is_Some (id : jsstring) (cs : list Comic) (c : Comic) :
  c ∈ cs → co_id c = id → is_Some (find_comic id cs).
Proof.
  intros Hin Hid. unfold find_comic.
  destruct (List.find _ cs) as [c'|] eqn:Hf; [by eexists|].
  apply list_elem_of_In in Hin.
  eapply List.find_none in Hf; [|exact Hin].
  apply bool_decide_eq_false in Hf. done.
Qed.

Lemma find_chapter_None (id : jsstring) (chs : list Chapter) :
  (∀ ch, ch ∈ chs → ch_id ch ≠ id) → find_chapter id chs = None.
Proof.
  intros Habs. unfold find_chapter.
  destruct (List.find _ chs) as [c|] eqn:Hf; [|reflexivity].
  apply List.find_some in Hf as [Hin Hid].
  apply bool_decide_eq_true in Hid. apply list_elem_of_In in Hin.
  by destruct (Habs c Hin).
Qed.

Lemma resumeEffect_resolve (r s : AppState) :
  resumeEffect r s =
    match comics r, selectedComic r with
    | _ :: _, None =>
        match resolveSession (ls_last_session s) (comics r) with
        | Some rd => setResumeData (Some rd) s
        | None => s
        end
    | _, _ => s
    end.
Proof.
  unfold resumeEffect, resolveSession.
  destruct (comics r), (selectedComic r); try reflexivity.
  destruct (ls_last_session s) as [[p|]|]; try reflexivity.
  by destruct (find_comic _ _).
Qed.

(** C7.  Whatever the stored session item and the library snapshot, the
    resume effect degrades gracefully.  If no comic of the snapshot has the
    pointed id (or the stored item does not parse), nothing is resolved and
    the effect leaves the state as it is: no candidate is produced and
    nothing fails.  If a comic with the pointed id exists, no comic is
    open, and the pointed chapter is in none of the comics of that id, the
    effect offers a candidate for a comic of that id with no chapter. *)
Theorem resumeEffect_degrades_gracefully (r : AppState) (p : Session) :
  (ls_last_session r = Some CorruptSession →
   resolveSession (ls_last_session r) (comics r) = None ∧
   resumeEffect r r = r) ∧
  (ls_last_session r = Some (ValidSession p) →
   (∀ c, c ∈ comics r → co_id c ≠ s_comicId p) →
   resolveSession (ls_last_session r) (comics r) = None ∧
   resumeEffect r r = r) ∧
  (ls_last_session r = Some (ValidSession p) →
   selectedComic r = None →
   (∃ c, c ∈ comics r ∧ co_id c = s_comicId p) →
   (∀ c cid ch, c ∈ comics r → co_id c = s_comicId p →
                s_chapterId p = Some cid → ch ∈ co_chapters c →
                ch_id ch ≠ cid) →
   ∃ comic, comic ∈ comics r ∧ co_id comic = s_comicId p ∧
            resolveSession (ls_last_session r) (comics r)
              = Some (mkResumeData comic None) ∧
            resumeData (resumeEffect r r) = Some (mkResumeData comic None)).
Proof.
  split; [|split].
  - intros Hls. rewrite resumeEffect_resolve, Hls. simpl.
    split; [reflexivity|]. by destruct (comics r), (selectedComic r).
  - intros Hls Habs. rewrite resumeEffect_resolve, Hls. simpl.
    rewrite (find_comic_None _ _ Habs).
    split; [reflexivity|]. by destruct (comics r), (selectedComic r).
  - intros Hls Hsel (c & Hin & Hid) Hch.
    destruct (find_comic_is_Some _ _ _ Hin Hid) as [comic Hfind].
    destruct (find_comic_Some _ _ _ Hfind) as [Hin' Hid'].
    exists comic. split; [exact Hin'|]. split; [exact Hid'|].
    assert (Hres : resolveSession (ls_last_session r) (comics r)
                   = Some (mkResumeData comic None)).
    { rewrite Hls. simpl. rewrite Hfind. do 2 f_equal.
      destruct (s_chapterId p) as [cid|] eqn:Hp; [|reflexivity].
      destruct (truthy cid); [|reflexivity].
      apply find_chapter_None. intros ch Hchin. by eapply Hch. }
    split; [exact Hres|].
    rewrite resumeEffect_resolve, Hsel, Hres.
    destruct (comics r) as [|c0 cs]; [by apply elem_of_nil in Hin|].
    reflexivity.
Qed.

Lemma resumeEffect_degrades_gracefully_witness :
  ∃ comic, comic ∈ comics Demo.stale_chapter_state ∧
           co_id comic = utf16 "c1" ∧
           resolveSession (ls_last_session Demo.stale_chapter_state)
                          (comics Demo.stale_chapter_state)
             = Some (mkResumeData comic None) ∧
           resumeData (resumeEffect Demo.stale_chapter_state
                                    Demo.stale_chapter_state)
             = Some (mkResumeData comic None).
Proof.
  apply (resumeEffect_degrades_gracefully Demo.stale_chapter_state
           (mkSession (utf16 "c1") (Some (utf16 "ch2")))).
  - reflexivity.
  - reflexivity.
  - exists Demo.comic1_short. split; [apply list_elem_of_here|reflexivity].
  - intros c cid ch Hc Hid Hcid Hch. injection Hcid as <-.
    apply elem_of_cons in Hc as [->|Hc].
    + apply list_elem_of_singleton in Hch as ->. vm_compute. discriminate.
    + apply list_elem_of_singleton in Hc as ->. vm_compute in Hid.
      discriminate.
Defined.

(** ** View composer *)

Section SortFacts.
Context {A : Type} (cmp : A → A → Z).

Lemma sort_insert_perm (x : A) (l : list A) : sort_insert cmp x l ≡ₚ x :: l.
Proof.
  induction l as [|y l IH]; simpl; [reflexivity|].
  destruct (cmp x y <=? 0); [reflexivity|].
  rewrite IH. apply Permutation_swap.
Qed.

Lemma array_sort_perm (l : list A) : array_sort cmp l ≡ₚ l.
Proof.
  induction l as [|x l IH]; simpl; [reflexivity|].
  rewrite sort_insert_perm. by rewrite IH.
Qed.

(** Sortedness for a comparator that subtracts keys, larger keys first. *)
Context (key : A → Z) (Hcmp : ∀ x y, cmp x y = key y - key x).

Lemma sort_insert_sorted (x : A) (l : list A) :
  StronglySorted (key_desc key) l →
  StronglySorted (key_desc key) (sort_insert cmp x l).
Proof.
  induction 1 as [|y l Hl IH Hy]; simpl.
  - repeat constructor.
  - rewrite Hcmp. destruct (Z.leb_spec0 (key y - key x) 0) as [Hle|Hgt].
    + constructor; [by constructor|].
      constructor; [unfold key_desc; lia|].
      eapply Forall_impl; [exact Hy|]. unfold key_desc. intros; lia.
    + constructor; [exact IH|].
      rewrite sort_insert_perm. constructor; [unfold key_desc; lia|exact Hy].
Qed.

Lemma array_sort_sorted (l : list A) :
  StronglySorted (key_desc key) (array_sort cmp l).
Proof.
  induction l as [|x l IH]; simpl; [constructor|].
  by apply sort_insert_sorted.
Qed.
End SortFacts.

Lemma array_sort_ext {A} (cmp1 cmp2 : A → A → Z) (l : list A) :
  (∀ a b, cmp1 a b = cmp2 a b) → array_sort cmp1 l = array_sort cmp2 l.
Proof.
  intros Hext. induction l as [|x l IH]; simpl; [reflexivity|].
  rewrite IH. generalize (array_sort cmp2 l). intros m.
  induction m as [|y m IHm]; simpl; [reflexivity|].
  by rewrite Hext, IHm.
Qed.

Lemma StronglySorted_lookup {A} (R : A → A → Prop) (l : list A)
    (i j : nat) (a b : A) :
  StronglySorted R l → (i < j)%nat → l !! i = Some a → l !! j = Some b →
  R a b.
Proof.
  intros Hs. revert i j. induction Hs as [|x l Hs IH Hx]; intros i j Hij Hi Hj.
  - by rewrite lookup_nil in Hi.
  - destruct j as [|j]; [lia|]. simpl in Hj. destruct i as [|i].
    + simpl in Hi. injection Hi as ->.
      rewrite Forall_forall in Hx. apply Hx.
      by eapply list_elem_of_lookup_2.
    + simpl in Hi. apply (IH i j); [lia|done|done].
Qed.

Lemma matchesCategory_history (user : option User) (c : Comic) :
  matchesCategory CAT_HISTORY user c = bool_decide (is_Some (co_lastRead c)).
Proof.
  unfold matchesCategory.
  destruct (decide (CAT_HISTORY = CAT_ALL)) as [Heq|_];
    [vm_compute in Heq; discriminate|].
  destruct (decide (CAT_HISTORY = CAT_FOLLOWING)) as [Heq|_];
    [vm_compute in Heq; discriminate|].
  by rewrite decide_True.
Qed.

(** C8.  Write [timestamp c] for [c.lastRead.timestamp], or 0 when [c]
    has no read marker.  With the History category active the comparator
    handed to [sort] is [timestamp b - timestamp a], whatever the sort
    option.  The list the composer shows holds exactly the comics of the
    library that match the search and have a read marker; it lists them
    by descending [timestamp], and it is the same list for every sort
    option.  The sort itself, on any list, yields a rearrangement in
    descending [timestamp] in which nothing with a positive timestamp
    comes after a comic without a read marker. *)
Theorem history_sorted_by_lastRead
    (localeCompare : jsstring → jsstring → Z) (searchQuery : jsstring)
    (searchScope : SearchScope) (sortOption : SortOption)
    (user : option User) (comics : list Comic) :
  let timestamp := λ c : Comic,
    match co_lastRead c with
    | Some lastRead => rp_timestamp lastRead
    | None => 0
    end in
  let shown :=
    filteredComics localeCompare searchQuery searchScope CAT_HISTORY
                   sortOption user comics in
  (∀ a b, compareComics localeCompare CAT_HISTORY sortOption a b
          = timestamp b - timestamp a) ∧
  shown ≡ₚ List.filter
             (λ c, matchesSearch searchQuery searchScope c
                   && bool_decide (is_Some (co_lastRead c))) comics ∧
  (∀ c, c ∈ shown ↔
        c ∈ comics ∧ matchesSearch searchQuery searchScope c = true ∧
        is_Some (co_lastRead c)) ∧
  (∀ i j a b, (i < j)%nat → shown !! i = Some a → shown !! j = Some b →
              timestamp b ≤ timestamp a) ∧
  (∀ sortOption',
     filteredComics localeCompare searchQuery searchScope CAT_HISTORY
                    sortOption' user comics = shown) ∧
  (∀ l : list Comic,
     let sorted :=
       array_sort (compareComics localeCompare CAT_HISTORY sortOption) l in
     sorted ≡ₚ l ∧
     (∀ i j a b, (i < j)%nat → sorted !! i = Some a → sorted !! j = Some b →
                 timestamp b ≤ timestamp a) ∧
     (∀ i j a b, (i < j)%nat → sorted !! i = Some a → sorted !! j = Some b →
                 co_lastRead a = None → timestamp b ≤ 0)).
Proof.
  intros timestamp shown.
  assert (Hcmp : ∀ o a b, compareComics localeCompare CAT_HISTORY o a b
                          = timestamp b - timestamp a).
  { intros o a b. unfold compareComics. rewrite decide_True by done.
    unfold lastReadTimestamp, orZero, timestamp.
    by destruct (co_lastRead a), (co_lastRead b). }
  assert (Hfilter : ∀ l : list Comic,
            List.filter (λ comic, matchesSearch searchQuery searchScope comic
                                  && matchesCategory CAT_HISTORY user comic) l
            = List.filter (λ c, matchesSearch searchQuery searchScope c
                                && bool_decide (is_Some (co_lastRead c))) l).
  { intros l. induction l as [|c l IH]; [reflexivity|]. simpl.
    by rewrite matchesCategory_history, IH. }
  assert (Hperm : shown ≡ₚ List.filter
             (λ c, matchesSearch searchQuery searchScope c
                   && bool_decide (is_Some (co_lastRead c))) comics).
  { unfold shown, filteredComics. by rewrite array_sort_perm, Hfilter. }
  assert (Horder : ∀ o (l : list Comic) i j a b, (i < j)%nat →
            array_sort (compareComics localeCompare CAT_HISTORY o) l !! i
              = Some a →
            array_sort (compareComics localeCompare CAT_HISTORY o) l !! j
              = Some b →
            timestamp b ≤ timestamp a).
  { intros o l i j a b Hij Hi Hj.
    pose proof (array_sort_sorted _ timestamp (Hcmp o) l) as Hsorted.
    exact (StronglySorted_lookup _ _ _ _ _ _ Hsorted Hij Hi Hj). }
  split; [apply Hcmp|]. split; [exact Hperm|]. split.
  { intros c. rewrite Hperm, !list_elem_of_In, List.filter_In.
    rewrite andb_true_iff, bool_decide_eq_true. tauto. }
  split; [apply Horder|]. split.
  { intros o. unfold shown, filteredComics. apply array_sort_ext.
    intros a b. by rewrite !Hcmp. }
  intros l sorted. split; [apply array_sort_perm|]. split; [apply Horder|].
  intros i j a b Hij Hi Hj Ha.
  pose proof (Horder _ _ _ _ _ _ Hij Hi Hj) as Hle.
  unfold timestamp at 2 in Hle. by rewrite Ha in Hle.
Qed.

(** ** Text normaliser *)

Lemma ascii_units_spec (c : N) : (c < 0x80)%N → c ∈ ascii_units.
Proof.
  intros Hc. unfold ascii_units. apply list_elem_of_fmap.
  exists (N.to_nat c). split; [by rewrite N2Nat.id|].
  apply elem_of_seq. lia.
Qed.

Lemma ascii_check (P : N → bool) :
  forallb P ascii_units = true → ∀ c, (c < 0x80)%N → P c = true.
Proof.
  intros Hall c Hc. rewrite forallb_forall in Hall.
  apply Hall, list_elem_of_In, ascii_units_spec, Hc.
Qed.

Lemma assoc_Some_elem {A} (k : N) (t : list (N * A)) (v : A) :
  Unicode.assoc k t = Some v → (k, v) ∈ t.
Proof.
  induction t as [|[k' v'] t IH]; simpl; [done|].
  destruct (N.eqb_spec k k') as [->|_].
  - intros [= ->]. apply list_elem_of_here.
  - intros Hk. apply list_elem_of_further, IH, Hk.
Qed.

Lemma decomposition_of_ascii (c : N) :
  (c < 0x80)%N → Unicode.assoc c Unicode.decomposition_table = None.
Proof.
  intros Hc.
  apply (ascii_check
           (λ c, bool_decide (Unicode.assoc c Unicode.decomposition_table = None)))
    in Hc; [by apply bool_decide_eq_true in Hc|].
  vm_compute. reflexivity.
Qed.

Lemma ccc_of_ascii (c : N) : (c < 0x80)%N → Unicode.ccc c = 0%N.
Proof.
  intros Hc.
  apply (ascii_check (λ c, (Unicode.ccc c =? 0)%N)) in Hc;
    [by apply N.eqb_eq in Hc|].
  vm_compute. reflexivity.
Qed.

Lemma decomposition_table_decomposed :
  Forall (λ e, forallb decomposed_unit e.2 = true) Unicode.decomposition_table.
Proof.
  apply Forall_forall. intros e He.
  assert (Hall : forallb (λ e, forallb decomposed_unit e.2)
                         Unicode.decomposition_table = true)
    by (vm_compute; reflexivity).
  rewrite forallb_forall in Hall. apply Hall, list_elem_of_In, He.
Qed.

Lemma canonical_decomposition_decomposed (c : N) :
  vietnamese_unit c = true →
  Forall (λ x, decomposed_unit x = true) (Unicode.canonical_decomposition c).
Proof.
  intros Hc. unfold Unicode.canonical_decomposition.
  destruct (Unicode.assoc c Unicode.decomposition_table) as [d|] eqn:Hd.
  - apply assoc_Some_elem in Hd.
    pose proof decomposition_table_decomposed as Hall.
    rewrite Forall_forall in Hall. specialize (Hall _ Hd). simpl in Hall.
    rewrite forallb_forall in Hall. apply Forall_forall.
    intros x Hx. apply Hall, list_elem_of_In, Hx.
  - constructor; [|constructor]. unfold vietnamese_unit in Hc.
    unfold decomposed_unit.
    rewrite Hd in Hc.
    rewrite bool_decide_eq_false_2 in Hc by apply is_Some_None.
    by rewrite orb_false_r in Hc.
Qed.

Lemma place_perm (c : N) (out : list N) : Unicode.place c out ≡ₚ c :: out.
Proof.
  induction out as [|p out IH]; simpl; [reflexivity|].
  destruct (_ && _); [|reflexivity].
  rewrite IH. apply Permutation_swap.
Qed.

Lemma canonical_order_perm (s : jsstring) : Unicode.canonical_order s ≡ₚ s.
Proof.
  unfold Unicode.canonical_order.
  assert (Hgen : ∀ acc, fold_left (λ out c, Unicode.place c out) s acc
                        ≡ₚ s ++ acc).
  { induction s as [|c s IH]; intros acc; simpl; [reflexivity|].
    rewrite IH, place_perm. by rewrite Permutation_middle. }
  rewrite <- Permutation_rev, Hgen. by rewrite app_nil_r.
Qed.

Lemma canonical_order_starters (s : jsstring) :
  Forall (λ c, Unicode.ccc c = 0%N) s → Unicode.canonical_order s = s.
Proof.
  intros Hs. unfold Unicode.canonical_order.
  assert (Hgen : ∀ acc, fold_left (λ out c, Unicode.place c out) s acc
                        = rev s ++ acc).
  { induction Hs as [|c s Hc Hs IH]; intros acc; simpl; [reflexivity|].
    assert (Hplace : Unicode.place c acc = c :: acc).
    { destruct acc as [|p acc]; simpl; [reflexivity|]. by rewrite Hc. }
    rewrite Hplace, IH. by rewrite <- app_assoc. }
  rewrite Hgen, app_nil_r. apply rev_involutive.
Qed.

Lemma is_upper_vn_ascii (c : N) : (c < 0x80)%N → Unicode.is_upper_vn c = false.
Proof.
  intros Hc. unfold Unicode.is_upper_vn.
  by rewrite decomposition_of_ascii.
Qed.

Lemma folded_unit_spec (c : N) :
  folded_unit c = true ↔ (c < 0x80)%N ∧ ¬ (0x41 ≤ c ≤ 0x5A)%N.
Proof.
  unfold folded_unit.
  rewrite andb_true_iff, negb_true_iff, andb_false_iff, N.ltb_lt,
    !N.leb_gt. lia.
Qed.

Lemma is_combining_mark_spec (c : N) :
  is_combining_mark c = true ↔ (0x300 ≤ c ≤ 0x36F)%N.
Proof.
  unfold is_combining_mark. rewrite andb_true_iff, !N.leb_le. lia.
Qed.

Lemma is_combining_mark_ascii (c : N) :
  (c < 0x80)%N → is_combining_mark c = false.
Proof.
  intros Hc. apply not_true_is_false. rewrite is_combining_mark_spec. lia.
Qed.

Lemma lower_unit_ascii (c : N) :
  (c < 0x80)%N → folded_unit (Unicode.lower_unit c) = true.
Proof.
  intros Hc. unfold Unicode.lower_unit.
  destruct (N.leb_spec 0x41 c), (N.leb_spec c 0x5A); simpl;
    try (apply folded_unit_spec; lia).
  all: destruct (N.eqb_spec c 0x110); [lia|].
  all: rewrite is_upper_vn_ascii by done.
  all: apply folded_unit_spec; lia.
Qed.

Lemma lower_unit_folded (c : N) :
  folded_unit c = true → Unicode.lower_unit c = c.
Proof.
  rewrite folded_unit_spec. intros [Hc Hnot]. unfold Unicode.lower_unit.
  destruct (N.leb_spec 0x41 c), (N.leb_spec c 0x5A); simpl; try lia.
  all: destruct (N.eqb_spec c 0x110); [lia|].
  all: by rewrite is_upper_vn_ascii.
Qed.

(** On text that is already folded every stage of [removeAccents] is the
    identity. *)
Lemma removeAccents_folded (r : jsstring) :
  Forall (λ c, folded_unit c = true) r → removeAccents r = r.
Proof.
  intros Hr.
  assert (Hascii : Forall (λ c, (c < 0x80)%N) r).
  { eapply Forall_impl; [exact Hr|]. intros c Hc.
    by apply folded_unit_spec in Hc as [? _]. }
  unfold removeAccents, Unicode.normalize_NFD.
  assert (Hdec : flat_map Unicode.canonical_decomposition r = r).
  { clear Hr. induction Hascii as [|c r Hc _ IH]; simpl; [reflexivity|].
    unfold Unicode.canonical_decomposition at 1.
    rewrite decomposition_of_ascii by done. simpl. by rewrite IH. }
  rewrite Hdec, canonical_order_starters
    by (eapply Forall_impl; [exact Hascii|apply ccc_of_ascii]).
  assert (Hstrip : strip_marks r = r).
  { clear Hr Hdec. unfold strip_marks.
    induction Hascii as [|c r Hc _ IH]; [reflexivity|].
    rewrite (filter_cons_True (λ c, is_combining_mark c = false) c r)
      by (by apply is_combining_mark_ascii).
    f_equal. exact IH. }
  rewrite Hstrip.
  assert (Hrep : ∀ x y, (0x80 ≤ x)%N → replace_unit x y r = r).
  { clear Hr Hdec Hstrip. intros x y Hx. unfold replace_unit.
    induction Hascii as [|c r Hc _ IH]; simpl; [reflexivity|].
    destruct (N.eqb_spec c x); [lia|]. by rewrite IH. }
  rewrite !Hrep by lia.
  unfold Unicode.toLowerCase. clear Hascii Hdec Hstrip Hrep.
  induction Hr as [|c r Hc _ IH]; simpl; [reflexivity|].
  by rewrite lower_unit_folded, IH.
Qed.

(** Vietnamese text comes out of [removeAccents] folded. *)
Lemma removeAccents_folds (s : jsstring) :
  Forall (λ c, vietnamese_unit c = true) s →
  Forall (λ c, folded_unit c = true) (removeAccents s).
Proof.
  intros Hs. unfold removeAccents, Unicode.normalize_NFD.
  assert (Hdec : Forall (λ c, decomposed_unit c = true)
                   (flat_map Unicode.canonical_decomposition s)).
  { induction Hs as [|c s Hc _ IH]; simpl; [constructor|].
    apply Forall_app. split; [|exact IH].
    by apply canonical_decomposition_decomposed. }
  rewrite <- (canonical_order_perm (flat_map _ s)) in Hdec.
  revert Hdec. generalize (Unicode.canonical_order
                             (flat_map Unicode.canonical_decomposition s)).
  clear s Hs. intros s Hs.
  unfold Unicode.toLowerCase, replace_unit, strip_marks.
  rewrite !Forall_forall in *. intros c Hc.
  apply list_elem_of_fmap in Hc as (c1 & -> & Hc).
  apply list_elem_of_fmap in Hc as (c2 & -> & Hc).
  apply list_elem_of_fmap in Hc as (c3 & -> & Hc).
  apply list_elem_of_filter in Hc as [Hmark Hc].
  specialize (Hs _ Hc). unfold decomposed_unit in Hs.
  rewrite Hmark, orb_false_r, !orb_true_iff, N.ltb_lt, !N.eqb_eq in Hs.
  apply lower_unit_ascii.
  destruct (N.eqb_spec c3 0x111) as [->|?]; simpl; [lia|].
  destruct (N.eqb_spec c3 0x110) as [->|?]; simpl; lia.
Qed.

(** C9, as stated, fails: U+034F (combining grapheme joiner) lies in the
    stripped range but is a starter, so in the decomposed text it keeps the
    accents U+0592 (class 230) and U+0591 (class 220) in the order written;
    once it is stripped, a second normalisation reorders them. *)
Lemma removeAccents_not_idempotent :
  removeAccents [0x61; 0x592; 0x34F; 0x591]%N = [0x61; 0x592; 0x591]%N ∧
  removeAccents (removeAccents [0x61; 0x592; 0x34F; 0x591]%N)
    = [0x61; 0x591; 0x592]%N ∧
  removeAccents (removeAccents [0x61; 0x592; 0x34F; 0x591]%N)
    ≠ removeAccents [0x61; 0x592; 0x34F; 0x591]%N.
Proof. vm_compute. repeat split; discriminate. Qed.

(** C9, amended.  On Vietnamese text (ASCII, the precomposed Vietnamese
    letters, d with stroke, and the combining marks U+0300..U+036F)
    [removeAccents] is idempotent: its result is ASCII without capitals,
    which it leaves as it is.  Hence a word and its accent-stripped,
    lower-cased form normalise to the same string, as do the spellings of
    ["Tiên Hiệp"] that differ in case or accents. *)
Theorem removeAccents_idempotent_vietnamese (s : jsstring) :
  Forall (λ c, vietnamese_unit c = true) s →
  removeAccents (removeAccents s) = removeAccents s ∧
  Forall (λ c, folded_unit c = true) (removeAccents s) ∧
  removeAccents (utf16 "Tiên Hiệp") = utf16 "tien hiep" ∧
  removeAccents (utf16 "TIÊN HIỆP") = utf16 "tien hiep" ∧
  removeAccents (utf16 "tien hiep") = utf16 "tien hiep".
Proof.
  intros Hs. split; [|split].
  - apply removeAccents_folded, removeAccents_folds, Hs.
  - apply removeAccents_folds, Hs.
  - vm_compute. done.
Qed.

Lemma removeAccents_idempotent_vietnamese_witness :
  removeAccents (removeAccents (utf16 "Đời Thường"))
    = removeAccents (utf16 "Đời Thường") ∧
  removeAccents (utf16 "Đời Thường") = utf16 "doi thuong".
Proof.
  split; [|vm_compute; reflexivity].
  apply (removeAccents_idempotent_vietnamese (utf16 "Đời Thường")).
  vm_compute. repeat constructor.
Defined.

(** ** Comment tree engine: likes *)

(** Induction on comments, with the hypothesis for every reply. *)
Lemma Comment_ind' (P : Comment → Prop) :
  (∀ f r, from_option (Forall P) True r → P (mkComment f r)) →
  ∀ c, P c.
Proof.
  intros Hnode. fix IH 1. intros [f [rs|]]; apply Hnode; simpl; [|exact I].
  induction rs as [|c rs IHrs]; constructor.
  - apply IH.
  - exact IHrs.
Qed.

Lemma filter_ne_id (u : jsstring) (l : list jsstring) :
  u ∉ l → filter (λ i, i ≠ u) l = l.
Proof.
  induction l as [|x l IH]; [reflexivity|].
  rewrite not_elem_of_cons. intros [Hne Hl].
  rewrite (filter_cons_True (λ i, i ≠ u) x l) by done.
  f_equal. by apply IH.
Qed.

Lemma filter_ne_snoc (u : jsstring) (l : list jsstring) :
  filter (λ i, i ≠ u) (l ++ [u]) = filter (λ i, i ≠ u) l.
Proof.
  rewrite filter_app.
  rewrite (filter_cons_False (λ i, i ≠ u) u []) by (intros H; by apply H).
  rewrite filter_nil. apply app_nil_r.
Qed.

Lemma not_elem_of_filter_ne (u : jsstring) (l : list jsstring) :
  u ∉ filter (λ i, i ≠ u) l.
Proof. rewrite list_elem_of_filter. by intros [? _]. Qed.

(** Two toggles by the same user, on one like array. *)
Lemma toggled_likes_twice (u : jsstring) (likes : option (list jsstring)) :
  toggled_likes (Some (toggled_likes likes u)) u =
    if bool_decide (u ∈ default [] likes)
    then filter (λ i, i ≠ u) (default [] likes) ++ [u]
    else default [] likes.
Proof.
  unfold toggled_likes, arr_includes. simpl.
  set (l := default [] likes).
  destruct (decide (u ∈ l)) as [Hin|Hin].
  - rewrite !(bool_decide_eq_true_2 (u ∈ l)) by done.
    by rewrite bool_decide_eq_false_2 by apply not_elem_of_filter_ne.
  - rewrite !(bool_decide_eq_false_2 (u ∈ l)) by done.
    rewrite bool_decide_eq_true_2 by (apply elem_of_app; right; left).
    rewrite filter_ne_snoc. by apply filter_ne_id.
Qed.

Lemma toggled_likes_twice_members (u : jsstring) (likes : option (list jsstring)) :
  same_members (Some (toggled_likes (Some (toggled_likes likes u)) u)) likes.
Proof.
  intros x. rewrite toggled_likes_twice. simpl.
  case_bool_decide as Hin; [|done].
  rewrite elem_of_app, list_elem_of_filter, list_elem_of_singleton.
  destruct (decide (x = u)) as [->|Hne].
  - split; [by intros _|by right].
  - split; [by intros [[_ ?]|?]|by left].
Qed.

Lemma toggled_likes_twice_restores (u : jsstring) (likes : option (list jsstring)) :
  Some (toggled_likes (Some (toggled_likes likes u)) u) = likes
  ↔ restorable_likes u likes.
Proof.
  rewrite toggled_likes_twice. unfold restorable_likes. split.
  - intros Heq. destruct likes as [l|]; [|discriminate]. simpl in Heq.
    exists l. split; [reflexivity|].
    case_bool_decide as Hin; [|by left].
    right. exists (filter (λ i, i ≠ u) l).
    split; [by injection Heq|apply not_elem_of_filter_ne].
  - intros (l & -> & [Hnot|(l0 & -> & Hnot)]); simpl.
    + by rewrite bool_decide_eq_false_2.
    + rewrite bool_decide_eq_true_2 by (apply elem_of_app; right; left).
      by rewrite filter_ne_snoc, filter_ne_id.
Qed.

Section ToggleTwice.
Variables commentId userId : jsstring.

Local Abbreviation T := (toggleLikeInComment commentId userId).

Lemma toggle_target (c : Comment) :
  comment_id c = commentId →
  T c = mkComment (set_likes (fields c)
                     (toggled_likes (c_likes (fields c)) userId))
                  (replies c).
Proof.
  intros Hid. destruct c as [f r]. simpl.
  rewrite decide_True by done. by destruct r as [[|]|].
Qed.

Lemma toggle_other (c : Comment) :
  comment_id c ≠ commentId →
  T c = match replies c with
        | Some (r :: rs) => mkComment (fields c) (Some (map T (r :: rs)))
        | _ => c
        end.
Proof.
  intros Hid. destruct c as [f r]. simpl.
  rewrite decide_False by done. by destruct r as [[|]|].
Qed.

#[local] Arguments toggleLikeInComment : simpl never.

Lemma toggle_twice_target (c : Comment) :
  comment_id c = commentId →
  T (T c) =
    mkComment (set_likes (fields c)
                 (toggled_likes
                    (Some (toggled_likes (c_likes (fields c)) userId)) userId))
              (replies c).
Proof.
  intros Hid. rewrite (toggle_target c Hid).
  rewrite toggle_target by done. reflexivity.
Qed.

Lemma toggle_twice_other (c : Comment) :
  comment_id c ≠ commentId →
  T (T c) = match replies c with
            | Some (r :: rs) =>
                mkComment (fields c) (Some (map T (map T (r :: rs))))
            | _ => c
            end.
Proof.
  intros Hid. rewrite (toggle_other c Hid).
  destruct c as [f [[|r rs]|]]; simpl in *.
  - by rewrite toggle_other.
  - by rewrite toggle_other.
  - by rewrite toggle_other.
Qed.

Lemma fields_equiv_refl (f : CommentFields) : fields_equiv f f.
Proof. by repeat split. Qed.

Lemma comment_equiv_refl (c : Comment) : comment_equiv c c.
Proof.
  induction c as [f r IH] using Comment_ind'.
  constructor; [apply fields_equiv_refl|].
  destruct r as [rs|]; constructor. simpl in IH.
  induction IH; by constructor.
Qed.

Lemma toggle_twice_equiv (c : Comment) : comment_equiv (T (T c)) c.
Proof.
  induction c as [f r IH] using Comment_ind'.
  destruct (decide (comment_id (mkComment f r) = commentId)) as [Hid|Hid].
  - rewrite toggle_twice_target by done. simpl. constructor.
    + do 8 (split; [reflexivity|]). apply toggled_likes_twice_members.
    + destruct r as [rs|]; constructor.
      clear. induction rs; constructor; [apply comment_equiv_refl|done].
  - rewrite toggle_twice_other by done. cbn [replies fields].
    destruct r as [[|r rs]|]; try apply comment_equiv_refl.
    constructor; [apply fields_equiv_refl|]. constructor.
    cbn [from_option] in IH. revert IH. generalize (r :: rs). clear.
    induction 1; simpl; by constructor.
Qed.

Lemma toggle_twice_restores (c : Comment) :
  T (T c) = c ↔ restorable commentId userId c.
Proof.
  induction c as [f r IH] using Comment_ind'.
  destruct (decide (comment_id (mkComment f r) = commentId)) as [Hid|Hid].
  - rewrite toggle_twice_target by done. simpl.
    rewrite decide_True by done.
    rewrite <- toggled_likes_twice_restores. split.
    + intros Heq. injection Heq as Hf.
      apply (f_equal c_likes) in Hf. exact Hf.
    + intros Hl. f_equal. destruct f. unfold set_likes. simpl in *.
      f_equal. exact Hl.
  - rewrite toggle_twice_other by done. cbn [replies fields restorable].
    rewrite decide_False by done.
    destruct r as [[|r rs]|]; [done| |done].
    cbn [from_option] in IH. revert IH. generalize (r :: rs). clear.
    intros l IH.
    transitivity (map T (map T l) = l); [split; congruence|].
    induction IH as [|c l Hc _ IHl]; simpl; [done|].
    rewrite <- Hc, <- IHl. split; [by intros [= ? ?]|by intros [-> ->]].
Qed.

End ToggleTwice.

(** C3, as stated, fails: a user who is not the last to have liked a comment
    moves to the end of its like array when toggling twice. *)
Lemma toggleLike_twice_reorders :
  c_likes (fields Demo.liked_comment) = Some [utf16 "u1"; utf16 "u2"] ∧
  toggleLikeInComments
    (toggleLikeInComments [Demo.liked_comment] (utf16 "c1") (utf16 "u1"))
    (utf16 "c1") (utf16 "u1")
  = [mkComment (set_likes (fields Demo.liked_comment)
                          [utf16 "u2"; utf16 "u1"]) None] ∧
  toggleLikeInComments
    (toggleLikeInComments [Demo.liked_comment] (utf16 "c1") (utf16 "u1"))
    (utf16 "c1") (utf16 "u1")
  ≠ [Demo.liked_comment].
Proof. vm_compute. repeat split; discriminate. Qed.

(** C3, amended.  Toggling twice with the same comment id and user id gives
    back the forest up to the arrangement of like arrays: same shape, same
    fields, and at every comment the same set of likers (an absent array
    counting as empty).  The forest comes back exactly equal if and only if,
    at every comment the traversal toggles, the like array is present and
    the user is not in it or is its last entry and occurs once. *)
Theorem toggleLike_twice (comments : list Comment) (commentId userId : jsstring) :
  let twice :=
    toggleLikeInComments (toggleLikeInComments comments commentId userId)
                         commentId userId in
  Forall2 comment_equiv twice comments ∧
  (twice = comments ↔ Forall (restorable commentId userId) comments).
Proof.
  unfold toggleLikeInComments. split.
  - induction comments as [|c l IH]; simpl; constructor; [|exact IH].
    apply toggle_twice_equiv.
  - induction comments as [|c l IH]; simpl.
    + split; [constructor|reflexivity].
    + rewrite Forall_cons, <- IH, <- toggle_twice_restores.
      split; [by intros [= ? ?]|by intros [-> ->]].
Qed.

(** ** Session tracker: the life of a resume candidate *)

Lemma with_dirty_id (s : AppState) : dirty s = clean → with_dirty clean s = s.
Proof. destruct s. simpl. by intros ->. Qed.

Lemma commit_idle (s : AppState) : dirty s = clean → commit s = s.
Proof.
  intros Hd. unfold commit. rewrite Hd. simpl. by apply with_dirty_id.
Qed.

Lemma resumeEffect_open (r s : AppState) (sc : Comic) :
  selectedComic r = Some sc → resumeEffect r s = s.
Proof.
  intros Hsel. rewrite resumeEffect_resolve, Hsel. by destruct (comics r).
Qed.

Lemma sessionEffect_closed (r s : AppState) :
  selectedComic r = None → sessionEffect r s = s.
Proof. intros Hsel. unfold sessionEffect. by rewrite Hsel. Qed.

(** One commit while a comic is open. *)
Lemma commit_open (s : AppState) (sc : Comic) :
  selectedComic s = Some sc →
  commit s =
    if d_selectedComic (dirty s) || d_selectedChapter (dirty s)
       || d_resumeData (dirty s)
    then sessionEffect s (with_dirty clean s)
    else with_dirty clean s.
Proof.
  intros Hsel. unfold commit.
  rewrite (resumeEffect_open _ _ _ Hsel).
  by destruct (d_comics (dirty s) || d_selectedComic (dirty s)).
Qed.

(** One commit while no comic is open. *)
Lemma commit_closed (s : AppState) :
  selectedComic s = None →
  commit s =
    if d_comics (dirty s) || d_selectedComic (dirty s)
    then resumeEffect s (with_dirty clean s)
    else with_dirty clean s.
Proof.
  intros Hsel. unfold commit.
  rewrite !(sessionEffect_closed _ _ Hsel).
  by destruct (d_selectedComic (dirty s) || d_selectedChapter (dirty s)
               || d_resumeData (dirty s)).
Qed.

Lemma settle_open (s : AppState) (sc : Comic) :
  selectedComic s = Some sc →
  settle s =
    with_dirty clean
      (if d_selectedComic (dirty s) || d_selectedChapter (dirty s)
          || d_resumeData (dirty s)
       then
         with_resumeData
           (match resumeData s with
            | Some rd =>
                if decide (co_id (rd_comic rd) = co_id sc) then None
                else Some rd
            | None => None
            end)
           (with_ls_last_session
              (Some (ValidSession
                       (mkSession (co_id sc) (ch_id <$> selectedChapter s))))
              s)
       else s).
Proof.
  intros Hsel. unfold settle.
  rewrite (commit_open s sc Hsel).
  destruct (d_selectedComic (dirty s) || d_selectedChapter (dirty s)
            || d_resumeData (dirty s)) eqn:Hfire.
  2: { by rewrite !commit_idle. }
  unfold sessionEffect at 1. rewrite Hsel.
  destruct (resumeData s) as [rd|] eqn:Hrd.
  2: { rewrite !commit_idle by reflexivity.
       destruct s; simpl in *; by subst. }
  destruct (decide (co_id (rd_comic rd) = co_id sc)) as [Heq|Hne].
  2: { rewrite !commit_idle by reflexivity.
       destruct s; simpl in *; by subst. }
  match goal with |- commit (commit ?x) = _ => set (s1 := x) end.
  assert (Hsel1 : selectedComic s1 = Some sc) by exact Hsel.
  assert (Hrd1 : resumeData s1 = None) by reflexivity.
  assert (Hd1 : dirty s1 = mkDirty false false false true).
  { unfold s1, setResumeData. simpl. by rewrite Hrd. }
  rewrite (commit_open s1 sc Hsel1), Hd1. simpl.
  unfold sessionEffect. rewrite Hsel1, Hrd1.
  rewrite commit_idle by reflexivity.
  unfold s1. destruct s; simpl in *; by subst.
Qed.

Lemma settle_closed (s : AppState) :
  selectedComic s = None →
  settle s =
    with_dirty clean
      (if d_comics (dirty s) || d_selectedComic (dirty s)
       then
         match comics s with
         | _ :: _ =>
             match resolveSession (ls_last_session s) (comics s) with
             | Some rd => with_resumeData (Some rd) s
             | None => s
             end
         | [] => s
         end
       else s).
Proof.
  intros Hsel. unfold settle.
  rewrite (commit_closed s Hsel).
  destruct (d_comics (dirty s) || d_selectedComic (dirty s)) eqn:Hfire.
  2: { by rewrite !commit_idle. }
  rewrite resumeEffect_resolve, Hsel.
  destruct (comics s) as [|c cs] eqn:Hcs.
  { by rewrite !commit_idle. }
  simpl. destruct (resolveSession _ _) as [rd|] eqn:Hres.
  2: { by rewrite !commit_idle. }
  match goal with |- commit (commit ?x) = _ => set (s1 := x) end.
  assert (Hsel1 : selectedComic s1 = None) by exact Hsel.
  rewrite (commit_closed s1 Hsel1).
  assert (Hd1 : dirty s1 = mkDirty false false false true).
  { unfold s1, setResumeData. simpl. by destruct (resumeData s). }
  rewrite Hd1. simpl. rewrite commit_idle by reflexivity.
  unfold s1. destruct s; simpl in *; by subst.
Qed.

Lemma settle_clean (s : AppState) : dirty (settle s) = clean.
Proof.
  destruct (selectedComic s) as [sc|] eqn:Hsel.
  - by rewrite (settle_open s sc Hsel).
  - by rewrite (settle_closed s Hsel).
Qed.

Lemma replace_comic_ids (x : Comic) (cs : list Comic) :
  co_id <$> replace_comic x cs = co_id <$> cs.
Proof.
  unfold replace_comic. induction cs as [|c cs IH]; [reflexivity|].
  cbn [map]. rewrite !fmap_cons, IH. f_equal.
  by destruct (decide (co_id c = co_id x)).
Qed.

Lemma find_comic_elem (id : jsstring) (cs : list Comic) :
  id ∈ co_id <$> cs → ∃ c, find_comic id cs = Some c ∧ co_id c = id.
Proof.
  intros Hin. apply list_elem_of_fmap in Hin as (c0 & -> & Hc0).
  destruct (find_comic_is_Some _ _ _ Hc0 eq_refl) as [c Hc].
  exists c. split; [exact Hc|]. by apply find_comic_Some in Hc as [_ ?].
Qed.

Lemma resolveSession_elem (id : jsstring) (chap : option jsstring)
    (cs : list Comic) :
  id ∈ co_id <$> cs →
  ∃ rd, resolveSession (Some (ValidSession (mkSession id chap))) cs = Some rd ∧
        co_id (rd_comic rd) = id.
Proof.
  intros Hin. destruct (find_comic_elem _ _ Hin) as (c & Hc & Hid).
  unfold resolveSession. simpl. rewrite Hc. by eexists.
Qed.

(** What the gallery shows after returning home from an open comic. *)
Lemma home_after_open (s : AppState) (sc : Comic) (chap : option jsstring) :
  dirty s = clean → selectedComic s = Some sc →
  ls_last_session s = Some (ValidSession (mkSession (co_id sc) chap)) →
  co_id sc ∈ co_id <$> comics s →
  ∃ rd, resumeData (step s HomeClick) = Some rd ∧
        co_id (rd_comic rd) = co_id sc.
Proof.
  intros Hd Hsel Hls Hin.
  destruct (resolveSession_elem _ chap _ Hin) as (rd & Hres & Hid).
  exists rd. split; [|exact Hid].
  unfold step. rewrite settle_closed by reflexivity.
  destruct s as [v cs q cat scope sel ch u r ls io d].
  simpl in *. subst. simpl.
  destruct cs as [|c cs]; [by apply elem_of_nil in Hin|].
  by rewrite Hres.
Qed.

(** The resume action: the comic is open, the candidate is gone, and the
    stored session names the open selection. *)
Lemma resume_opens (s : AppState) (rd : ResumeData) :
  selectedComic s = None → resumeData s = Some rd →
  ∃ c, selectedComic (step s ResumeSession) = Some c ∧
       co_id c = co_id (rd_comic rd) ∧
       resumeData (step s ResumeSession) = None ∧
       ls_last_session (step s ResumeSession)
         = Some (ValidSession
                   (mkSession (co_id c)
                      (ch_id <$> selectedChapter (step s ResumeSession)))) ∧
       co_id <$> comics (step s ResumeSession) = co_id <$> comics s ∧
       dirty (step s ResumeSession) = clean.
Proof.
  intros Hsel Hrd.
  destruct s as [v cs q cat scope sel ch u r ls io d].
  simpl in Hsel, Hrd. subst. destruct rd as [rc [rch|]], u as [u|].
  all: unfold step, handle, handleResumeSession, grant_exp.
  all: cbn [resumeData rd_comic rd_chapter user].
  all: match goal with
       | |- context [setSelectedComic (Some ?x)
                       (setComics _ (emit (SaveComicToLibrary ?x) _))] =>
           first [ match goal with
                   | |- context [comic_with_chapters ?chs x] =>
                       exists (comic_with_chapters chs x)
                   end
                 | exists x ]
       end.
  all: erewrite settle_open by reflexivity.
  all: cbn -[replace_comic bump_chapter find_chapter];
    rewrite ?orb_true_r; cbn -[replace_comic bump_chapter find_chapter].
  all: rewrite ?replace_comic_ids.
  all: repeat split; reflexivity.
Qed.

(** Opening a comic from the gallery: a candidate for that comic is
    dropped, and the stored session names the open selection. *)
Lemma open_by_hand (s : AppState) (rd : ResumeData) (comic : Comic) :
  selectedComic s = None → resumeData s = Some rd →
  co_id comic = co_id (rd_comic rd) →
  ∃ c, selectedComic (step s (OpenComic comic)) = Some c ∧
       co_id c = co_id (rd_comic rd) ∧
       resumeData (step s (OpenComic comic)) = None ∧
       ls_last_session (step s (OpenComic comic))
         = Some (ValidSession
                   (mkSession (co_id c)
                      (ch_id <$> selectedChapter (step s (OpenComic comic))))) ∧
       co_id <$> comics (step s (OpenComic comic)) = co_id <$> comics s ∧
       dirty (step s (OpenComic comic)) = clean.
Proof.
  intros Hsel Hrd Hid.
  destruct s as [v cs q cat scope sel ch u r ls io d].
  simpl in Hsel, Hrd. subst.
  unfold step, handle, handleOpenComic.
  exists (comic_with_viewCount (Some (orZero (co_viewCount comic) + 1)) comic).
  erewrite settle_open by reflexivity.
  cbn -[replace_comic]. rewrite ?orb_true_r. cbn -[replace_comic].
  rewrite decide_True by done. rewrite replace_comic_ids.
  repeat split; done.
Qed.

(** Dismissing the prompt removes candidate and stored session, and the
    gallery does not bring them back. *)
Lemma dismiss_forgets (s : AppState) :
  dirty s = clean → selectedComic s = None →
  resumeData (step s DismissResume) = None ∧
  ls_last_session (step s DismissResume) = None ∧
  resumeData (run s [DismissResume; HomeClick]) = None ∧
  ls_last_session (run s [DismissResume; HomeClick]) = None.
Proof.
  intros Hd Hsel.
  destruct s as [v cs q cat scope sel ch u r ls io d].
  simpl in Hd, Hsel. subst.
  unfold run, fold_left, step, handle, handleDismissResume.
  rewrite settle_closed by reflexivity. cbn.
  split; [reflexivity|]. split; [reflexivity|].
  unfold onHomeClick. rewrite settle_closed by reflexivity. cbn.
  split; reflexivity.
Qed.

(** Deleting the comic of the candidate, as an administrator who confirms:
    candidate and stored session are removed, and the gallery does not
    bring them back. *)
Lemma delete_forgets (s : AppState) (rd : ResumeData)
    (updatedLibrary : list Comic) :
  selectedComic s = None → resumeData s = Some rd →
  is_admin (user s) = true →
  resumeData (step s (DeleteComic (co_id (rd_comic rd)) true updatedLibrary))
    = None ∧
  ls_last_session
    (step s (DeleteComic (co_id (rd_comic rd)) true updatedLibrary)) = None ∧
  comics (step s (DeleteComic (co_id (rd_comic rd)) true updatedLibrary))
    = updatedLibrary ∧
  resumeData
    (run s [DeleteComic (co_id (rd_comic rd)) true updatedLibrary; HomeClick])
    = None.
Proof.
  intros Hsel Hrd Hadmin.
  destruct s as [v cs q cat scope sel ch u r ls io d].
  simpl in Hsel, Hrd, Hadmin. subst.
  unfold run, fold_left, step, handle, handleDeleteComic.
  cbn [user selectedComic resumeData]. rewrite Hadmin. cbn [negb].
  rewrite decide_True by done.
  rewrite settle_closed by reflexivity.
  destruct updatedLibrary as [|c0 lib]; cbn.
  all: split; [reflexivity|]; split; [reflexivity|]; split; [reflexivity|].
  all: unfold onHomeClick; rewrite settle_closed by reflexivity; reflexivity.
Qed.

(** A deletion that is refused, or not confirmed, changes nothing. *)
Lemma delete_refused (s : AppState) (id : jsstring) (confirmed : bool)
    (updatedLibrary : list Comic) :
  dirty s = clean → is_admin (user s) = false ∨ confirmed = false →
  step s (DeleteComic id confirmed updatedLibrary) = s.
Proof.
  intros Hd Hno.
  assert (Hs : handleDeleteComic id confirmed updatedLibrary s s = s).
  { unfold handleDeleteComic. destruct Hno as [Hno|Hno]; rewrite Hno.
    - reflexivity.
    - by destruct (negb (is_admin (user s))). }
  unfold step, handle. rewrite Hs. unfold settle.
  by rewrite !(commit_idle s Hd).
Qed.

(** The effects never remove the stored session. *)
Lemma commit_keeps_pointer (s : AppState) :
  ls_last_session (commit s) = None → ls_last_session s = None.
Proof.
  unfold commit.
  set (s0 := with_dirty clean s).
  set (s1 := if d_comics (dirty s) || d_selectedComic (dirty s)
             then resumeEffect s s0 else s0).
  assert (H1 : ls_last_session s1 = ls_last_session s).
  { unfold s1. destruct (d_comics (dirty s) || d_selectedComic (dirty s));
      [|reflexivity].
    rewrite resumeEffect_resolve.
    destruct (comics s), (selectedComic s); try reflexivity.
    by destruct (resolveSession _ _). }
  destruct (d_selectedComic (dirty s) || d_selectedChapter (dirty s)
            || d_resumeData (dirty s)); [|by rewrite H1].
  unfold sessionEffect. destruct (selectedComic s); [|by rewrite H1].
  destruct (resumeData s); [|discriminate].
  destruct (decide _); discriminate.
Qed.

Lemma settle_keeps_pointer (s : AppState) :
  ls_last_session (settle s) = None → ls_last_session s = None.
Proof.
  unfold settle. intros H.
  by apply commit_keeps_pointer, commit_keeps_pointer, commit_keeps_pointer.
Qed.

(** The stored session under the setters and handlers. *)
Lemma grant_exp_pointer (s : AppState) :
  ls_last_session (grant_exp s) = ls_last_session s.
Proof. unfold grant_exp. by destruct (user s). Qed.

Lemma with_view_pointer (v : ViewState) (s : AppState) :
  ls_last_session (with_view v s) = ls_last_session s.
Proof. reflexivity. Qed.

Lemma with_searchQuery_pointer (q : jsstring) (s : AppState) :
  ls_last_session (with_searchQuery q s) = ls_last_session s.
Proof. reflexivity. Qed.

Lemma with_selectedCategory_pointer (c : jsstring) (s : AppState) :
  ls_last_session (with_selectedCategory c s) = ls_last_session s.
Proof. reflexivity. Qed.

Lemma with_searchScope_pointer (c : SearchScope) (s : AppState) :
  ls_last_session (with_searchScope c s) = ls_last_session s.
Proof. reflexivity. Qed.

Lemma emit_pointer (c : IoCall) (s : AppState) :
  ls_last_session (emit c s) = ls_last_session s.
Proof. reflexivity. Qed.

Lemma setComics_pointer (v : list Comic) (s : AppState) :
  ls_last_session (setComics v s) = ls_last_session s.
Proof. reflexivity. Qed.

Lemma setSelectedComic_pointer (v : option Comic) (s : AppState) :
  ls_last_session (setSelectedComic v s) = ls_last_session s.
Proof. reflexivity. Qed.

Lemma setSelectedChapter_pointer (v : option Chapter) (s : AppState) :
  ls_last_session (setSelectedChapter v s) = ls_last_session s.
Proof. reflexivity. Qed.

Lemma setResumeData_pointer (v : option ResumeData) (s : AppState) :
  ls_last_session (setResumeData v s) = ls_last_session s.
Proof. reflexivity. Qed.

Create Rewrite HintDb pointer.
#[local] Hint Rewrite grant_exp_pointer with_view_pointer
  with_searchQuery_pointer with_selectedCategory_pointer
  with_searchScope_pointer emit_pointer setComics_pointer
  setSelectedComic_pointer setSelectedChapter_pointer setResumeData_pointer
  : pointer.

(** Every handler but [handleDismissResume] and [handleDeleteComic] leaves
    the stored session as it is. *)
Lemma handle_keeps_pointer (s : AppState) (e : Event) :
  e ≠ DismissResume →
  (∀ id confirmed updatedLibrary, e ≠ DeleteComic id confirmed updatedLibrary) →
  ls_last_session (handle e s) = ls_last_session s.
Proof.
  intros Hdismiss Hdelete.
  destruct e as [comic|now chapter| | |tag| | |lib|id confirmed lib];
    cbn [handle].
  - unfold handleOpenComic. by autorewrite with pointer.
  - unfold handleReadChapter. destruct (selectedComic s); [|reflexivity].
    by autorewrite with pointer.
  - unfold handleResumeSession.
    destruct (resumeData s) as [rd|]; [|reflexivity].
    destruct (rd_chapter rd); by autorewrite with pointer.
  - done.
  - unfold handleTagClick. by autorewrite with pointer.
  - unfold goBack. destruct (view s); by autorewrite with pointer.
  - unfold onHomeClick. by autorewrite with pointer.
  - unfold loadLibrary. by autorewrite with pointer.
  - by destruct (Hdelete id confirmed lib).
Qed.

(** [handleDeleteComic] removes the stored session exactly when an
    administrator confirms the deletion of the candidate's comic. *)
Lemma handleDeleteComic_pointer (id : jsstring) (confirmed : bool)
    (updatedLibrary : list Comic) (s : AppState) :
  ls_last_session (handleDeleteComic id confirmed updatedLibrary s s) = None →
  ls_last_session s = None ∨
  ∃ rd, confirmed = true ∧ is_admin (user s) = true ∧
        resumeData s = Some rd ∧ co_id (rd_comic rd) = id.
Proof.
  unfold handleDeleteComic.
  destruct (is_admin (user s)) eqn:Hadmin; cbn [negb]; [|by left].
  destruct confirmed; [|by left].
  destruct (resumeData s) as [rd|] eqn:Hrd.
  - destruct (decide (co_id (rd_comic rd) = id)) as [Hid|Hne].
    + intros _. right. by exists rd.
    + destruct (selectedComic s) as [sc|]; [destruct (decide (co_id sc = id))|].
      all: autorewrite with pointer; by left.
  - destruct (selectedComic s) as [sc|]; [destruct (decide (co_id sc = id))|].
    all: autorewrite with pointer; by left.
Qed.

(** Which handlers remove the stored session. *)
Lemma handle_removes_pointer (s : AppState) (e : Event) :
  is_Some (ls_last_session s) → ls_last_session (handle e s) = None →
  e = DismissResume ∨
  ∃ id updatedLibrary rd,
    e = DeleteComic id true updatedLibrary ∧ is_admin (user s) = true ∧
    resumeData s = Some rd ∧ co_id (rd_comic rd) = id.
Proof.
  intros [p Hp] Hnone.
  destruct e as [comic|now chapter| | |tag| | |lib|id confirmed lib].
  4: by left.
  all: right.
  1-7: rewrite handle_keeps_pointer in Hnone by (intros; discriminate);
    congruence.
  cbn [handle] in Hnone.
  apply handleDeleteComic_pointer in Hnone
    as [Hnone|(rd & -> & Hadmin & Hrd & Hid)]; [congruence|].
  by exists id, lib, rd.
Qed.

(** C2, as stated, fails: the resume action opens chapter [ch1] of comic
    [c1] and clears the candidate, the stored session still names that
    chapter, and the home button brings the same candidate back. *)
Lemma resume_offered_again :
  resumeData (run Demo.gallery_state [ResumeSession]) = None ∧
  (co_id <$> selectedComic (run Demo.gallery_state [ResumeSession]))
    = Some (utf16 "c1") ∧
  (ch_id <$> selectedChapter (run Demo.gallery_state [ResumeSession]))
    = Some (utf16 "ch1") ∧
  ls_last_session (run Demo.gallery_state [ResumeSession])
    = ls_last_session Demo.gallery_state ∧
  view (run Demo.gallery_state [ResumeSession; HomeClick]) = GALLERY ∧
  ((λ rd, (co_id (rd_comic rd), ch_id <$> rd_chapter rd))
     <$> resumeData (run Demo.gallery_state [ResumeSession; HomeClick]))
    = Some (utf16 "c1", Some (utf16 "ch1")).
Proof. vm_compute. repeat split; reflexivity. Qed.

(** C2, amended.  From a settled gallery that offers a candidate for a
    comic of the library: the resume action, or opening that comic by hand,
    opens it, clears the candidate and leaves the stored session naming the
    open selection; the session is not removed, so the home button brings
    back a candidate for the same comic.  Dismissing the prompt removes the
    stored session, and so does an administrator's confirmed deletion of
    the candidate's comic; after either the gallery offers nothing.  A
    deletion that is refused or not confirmed changes nothing.  From any
    state, these two are the only events that remove a stored session:
    opening, reading, resuming, a tag click, going back, the home button,
    a library reload and the effects keep or rewrite it. *)
Theorem resume_candidate_lifecycle (s : AppState) (rd : ResumeData) :
  dirty s = clean → selectedComic s = None → resumeData s = Some rd →
  co_id (rd_comic rd) ∈ co_id <$> comics s →
  (∀ e, e = ResumeSession ∨ (∃ comic, e = OpenComic comic ∧
                                      co_id comic = co_id (rd_comic rd)) →
     (∃ c, selectedComic (step s e) = Some c ∧
           co_id c = co_id (rd_comic rd) ∧
           ls_last_session (step s e)
             = Some (ValidSession
                       (mkSession (co_id c)
                                  (ch_id <$> selectedChapter (step s e))))) ∧
     resumeData (step s e) = None ∧
     ∃ rd', resumeData (run s [e; HomeClick]) = Some rd' ∧
            co_id (rd_comic rd') = co_id (rd_comic rd)) ∧
  resumeData (step s DismissResume) = None ∧
  ls_last_session (step s DismissResume) = None ∧
  resumeData (run s [DismissResume; HomeClick]) = None ∧
  (∀ updatedLibrary, is_admin (user s) = true →
     resumeData
       (step s (DeleteComic (co_id (rd_comic rd)) true updatedLibrary)) = None ∧
     ls_last_session
       (step s (DeleteComic (co_id (rd_comic rd)) true updatedLibrary)) = None ∧
     resumeData
       (run s [DeleteComic (co_id (rd_comic rd)) true updatedLibrary;
               HomeClick]) = None) ∧
  (∀ id confirmed updatedLibrary,
     is_admin (user s) = false ∨ confirmed = false →
     step s (DeleteComic id confirmed updatedLibrary) = s) ∧
  (∀ s0 e, is_Some (ls_last_session s0) →
     ls_last_session (step s0 e) = None →
     e = DismissResume ∨
     ∃ id updatedLibrary rd0,
       e = DeleteComic id true updatedLibrary ∧ is_admin (user s0) = true ∧
       resumeData s0 = Some rd0 ∧ co_id (rd_comic rd0) = id).
Proof.
  intros Hd Hsel Hrd Hin. split.
  - intros e He.
    assert (Hopen : ∃ c, selectedComic (step s e) = Some c ∧
              co_id c = co_id (rd_comic rd) ∧
              resumeData (step s e) = None ∧
              ls_last_session (step s e)
                = Some (ValidSession
                          (mkSession (co_id c)
                                     (ch_id <$> selectedChapter (step s e)))) ∧
              co_id <$> comics (step s e) = co_id <$> comics s ∧
              dirty (step s e) = clean).
    { destruct He as [->|(comic & -> & Hid)].
      - by apply resume_opens.
      - by apply open_by_hand. }
    destruct Hopen as (c & Hc & Hid & Hnone & Hls & Hids & Hclean).
    split; [by exists c|]. split; [exact Hnone|].
    destruct (home_after_open (step s e) c _ Hclean Hc Hls) as (rd' & Hrd' & Hid').
    { rewrite Hids, Hid. exact Hin. }
    exists rd'. split; [exact Hrd'|]. by rewrite Hid'.
  - destruct (dismiss_forgets s Hd Hsel) as (? & ? & ? & _).
    split; [done|]. split; [done|]. split; [done|]. split.
    { intros lib Hadmin.
      destruct (delete_forgets s rd lib Hsel Hrd Hadmin) as (? & ? & _ & ?).
      done. }
    split.
    { intros id confirmed lib Hno. by apply delete_refused. }
    intros s0 e Hsome Hnone. unfold step in Hnone.
    apply settle_keeps_pointer in Hnone.
    by apply handle_removes_pointer.
Qed.

Lemma resume_candidate_lifecycle_witness :
  (∃ rd', resumeData (run Demo.gallery_state [ResumeSession; HomeClick])
            = Some rd' ∧
          co_id (rd_comic rd') = utf16 "c1") ∧
  resumeData (run Demo.gallery_state [DismissResume; HomeClick]) = None ∧
  step Demo.gallery_state (DeleteComic (utf16 "c1") true [Demo.comic2])
    = Demo.gallery_state.
Proof.
  destruct (resume_candidate_lifecycle Demo.gallery_state
              (mkResumeData Demo.comic1 (Some Demo.chapter1)))
    as (Hopen & _ & _ & Hdismiss & _ & Hrefused & _).
  - reflexivity.
  - reflexivity.
  - reflexivity.
  - vm_compute. apply list_elem_of_here.
  - split; [|split; [exact Hdismiss|]].
    + destruct (Hopen ResumeSession) as (_ & _ & Hagain); [by left|].
      exact Hagain.
    + apply Hrefused. by left.
Defined.

(** ** Comment tree engine: replies *)

Lemma reply_added_count (p : jsstring) (n : Comment) (f f' : list Comment) :
  reply_added p n f f' →
  count_comments f' = (count_comments f + count_comment n)%nat.
Proof.
  induction 1 as [c rest Hid|c rs rs' rest Hid Hrs _ IH|c rest rest' Hm _ IH].
  - unfold push_reply, count_comments. destruct c as [fl [rs|]]; simpl.
    + assert (Happ : ∀ l m, foldr (λ r k, count_comment r + k)%nat 0%nat (l ++ m)
                 = (foldr (λ r k, count_comment r + k)%nat 0%nat l
                    + foldr (λ r k, count_comment r + k)%nat 0%nat m)%nat).
      { intros l m. induction l as [|x l IHl]; simpl; [reflexivity|].
        rewrite IHl. lia. }
      rewrite Happ. simpl. lia.
    + lia.
  - destruct c as [fl r]. simpl in *. subst r.
    unfold count_comments in *. simpl. rewrite IH. lia.
  - unfold count_comments in *. simpl. rewrite IH. lia.
Qed.

Lemma reply_added_mentions (p : jsstring) (n : Comment) (f f' : list Comment) :
  reply_added p n f f' → existsb (mentions p) f = true.
Proof.
  induction 1 as [c rest Hid|c rs rs' rest Hid Hrs _ IH|c rest rest' Hm _ IH];
    simpl.
  - destruct c as [fl r]. simpl. by rewrite bool_decide_eq_true_2.
  - destruct c as [fl r]. simpl in *. subst r. rewrite IH.
    by rewrite orb_true_r.
  - by rewrite IH, orb_true_r.
Qed.

(** The relation determines the result. *)
Lemma reply_added_functional (p : jsstring) (n : Comment)
    (f f1 f2 : list Comment) :
  reply_added p n f f1 → reply_added p n f f2 → f1 = f2.
Proof.
  intros H1. revert f2.
  induction H1 as [c rest Hid|c rs rs' rest Hid Hrs H1 IH|c rest rest' Hm H1 IH];
    intros f2 H2; inversion H2; subst; try done.
  - destruct c as [fl r]. simpl in *.
    by rewrite bool_decide_eq_true_2 in *.
  - assert (rs0 = rs) by congruence. subst. f_equal. f_equal. f_equal.
    by apply IH.
  - apply reply_added_mentions in H1.
    destruct c as [fl r]. simpl in *. subst r.
    by rewrite H1, orb_true_r in *.
  - destruct c as [fl r]. simpl in *.
    by rewrite bool_decide_eq_true_2 in *.
  - match goal with H : reply_added _ _ rs _ |- _ =>
      apply reply_added_mentions in H as Hm' end.
    destruct c as [fl r]. simpl in *. subst r.
    by rewrite Hm', orb_true_r in *.
  - f_equal. by apply IH.
Qed.

(** The siblings keep their places and ids, at the top level. *)
Lemma reply_added_ids (p : jsstring) (n : Comment) (f f' : list Comment) :
  reply_added p n f f' → map comment_id f' = map comment_id f.
Proof.
  induction 1 as [c rest Hid|c rs rs' rest Hid Hrs _ IH|c rest rest' Hm _ IH];
    simpl; [reflexivity|reflexivity|by rewrite IH].
Qed.

Lemma ltree_ind' (P : ltree → Prop) :
  (∀ l f r kids, Forall P kids → P (LNode l f r kids)) → ∀ t, P t.
Proof.
  intros Hnode. fix IH 1. intros [l f r kids]. apply Hnode.
  induction kids as [|k kids IHk]; constructor; [apply IH|exact IHk].
Qed.

Lemma foldr_and_Forall {A} (P : A → Prop) (l : list A) :
  foldr (λ k rest, P k ∧ rest) True l ↔ Forall P l.
Proof.
  induction l as [|x l IH]; simpl.
  - split; [constructor|done].
  - rewrite Forall_cons, IH. done.
Qed.

Lemma stored_node (h : heap) (l : loc) (f : CommentFields) (r : option loc)
    (kids : list ltree) :
  stored h (LNode l f r kids) ↔
    h !! l = Some (CommentObject f r) ∧
    match r with
    | Some a => h !! a = Some (ArrayObject (map lt_loc kids))
    | None => kids = []
    end ∧
    Forall (stored h) kids.
Proof. simpl. by rewrite foldr_and_Forall. Qed.

Lemma elem_of_flat_map {A B} (f : A → list B) (l : list A) (y : B) :
  y ∈ flat_map f l ↔ ∃ x, x ∈ l ∧ y ∈ f x.
Proof.
  rewrite list_elem_of_In, in_flat_map.
  split; intros (x & Hx & Hy); exists x; by rewrite ?list_elem_of_In in *.
Qed.

Lemma stored_dom (h : heap) (t : ltree) (x : loc) :
  stored h t → x ∈ footprint t → is_Some (h !! x).
Proof.
  revert x. induction t as [l f r kids IH] using ltree_ind'.
  intros x (Hl & Hr & Hkids)%stored_node Hx. simpl in Hx.
  apply elem_of_cons in Hx as [->|Hx]; [by eexists|].
  apply elem_of_app in Hx as [Hx|Hx].
  - destruct r as [a|]; [|by apply elem_of_nil in Hx].
    apply list_elem_of_singleton in Hx as ->. by eexists.
  - apply elem_of_flat_map in Hx as (k & Hk & Hx).
    rewrite Forall_forall in IH, Hkids. by eapply IH, Hx; [|apply Hkids].
Qed.

(** A located comment stays stored when the store changes elsewhere. *)
Lemma stored_frame (h h' : heap) (t : ltree) :
  stored h t → (∀ x, x ∈ footprint t → h' !! x = h !! x) → stored h' t.
Proof.
  induction t as [l f r kids IH] using ltree_ind'.
  intros (Hl & Hr & Hkids)%stored_node Hsame. apply stored_node.
  split; [|split].
  - rewrite Hsame; [exact Hl|]. simpl. apply list_elem_of_here.
  - destruct r as [a|]; [|exact Hr].
    rewrite Hsame; [exact Hr|]. simpl.
    apply list_elem_of_further, list_elem_of_here.
  - rewrite Forall_forall in *. intros k Hk. apply IH; [done|by apply Hkids|].
    intros x Hx. apply Hsame. simpl. apply list_elem_of_further.
    apply elem_of_app. right. apply elem_of_flat_map. by exists k.
Qed.

Lemma push_array (h : heap) (a x : loc) (es : list loc) :
  h !! a = Some (ArrayObject es) →
  push h a x = Some (<[a := ArrayObject (es ++ [x])]> h).
Proof. intros Ha. unfold push. by rewrite Ha. Qed.

Lemma alloc_fresh (h : heap) : h !! alloc h = None.
Proof. unfold alloc. apply (not_elem_of_dom (D := gset loc)). apply is_fresh. Qed.

Lemma mentions_erase (p : jsstring) (l : loc) (f : CommentFields)
    (r : option loc) (kids : list ltree) :
  mentions p (erase (LNode l f r kids)) =
    bool_decide (c_id f = p)
    || match r with
       | Some _ => existsb (mentions p) (map erase kids)
       | None => false
       end.
Proof. simpl. by destruct r. Qed.

Section AddReply.
Context (p : jsstring) (tn : ltree).

(** Passing a sibling whose subtree does not mention [p]. *)
Lemma outcome_skip (h : heap) (t : ltree) (ts : list ltree)
    (res : option (heap * bool)) :
  mentions p (erase t) = false → stored h t →
  (∀ x, x ∈ footprint t → x ∉ flat_map footprint ts) →
  addReply_outcome p tn h ts res →
  addReply_outcome p tn h (t :: ts) res.
Proof.
  intros Hm Ht Hdisj [Hno Hyes]. split; simpl; rewrite Hm; simpl.
  - exact Hno.
  - intros Hex.
    destruct (Hyes Hex) as (h' & ts' & -> & Hlocs & Hst & Htn & Hadd & Hfr).
    exists h', (t :: ts'). split; [reflexivity|].
    split; [simpl; by rewrite Hlocs|]. split.
    { constructor; [|exact Hst]. apply (stored_frame h); [exact Ht|].
      intros x Hx. apply Hfr; [by apply Hdisj|by eapply stored_dom]. }
    split; [exact Htn|]. split; [by apply added_later|].
    intros x Hx. apply Hfr. intros Hin. apply Hx. simpl.
    apply elem_of_app. by right.
Qed.

(** The comment at the head of the list is the target. *)
Lemma outcome_here (h : heap) (l : loc) (f : CommentFields) (r : option loc)
    (kids ts : list ltree) :
  c_id f = p →
  stored h (LNode l f r kids) → Forall (stored h) ts → stored h tn →
  NoDup (flat_map footprint (LNode l f r kids :: ts)) →
  (∀ x, x ∈ footprint tn →
        x ∉ flat_map footprint (LNode l f r kids :: ts)) →
  addReply_outcome p tn h (LNode l f r kids :: ts)
    (match r with
     | Some a => h' ← push h a (lt_loc tn); Some (h', true)
     | None =>
         let a := alloc h in
         let h := <[a := ArrayObject []]> h in
         let h := <[l := CommentObject f (Some a)]> h in
         h' ← push h a (lt_loc tn); Some (h', true)
     end).
Proof.
  intros Hid Ht Hts Htn Hnd Hdisj.
  pose proof Ht as (Hl & Hr & Hkids)%stored_node.
  split.
  { cbn [map existsb]. rewrite mentions_erase.
    by rewrite bool_decide_eq_true_2. }
  intros _.
  simpl in Hnd. apply NoDup_cons in Hnd as [Hl_out Hnd].
  set (a := match r with Some a => a | None => alloc h end).
  set (h' := <[a := ArrayObject (map lt_loc kids ++ [lt_loc tn])]>
               (<[l := CommentObject f (Some a)]> h)).
  assert (Hal : a ≠ l).
  { unfold a. destruct r as [a0|].
    - intros ->. apply Hl_out. apply list_elem_of_here.
    - intros Heq. pose proof (alloc_fresh h) as Hf. rewrite Heq in Hf.
      congruence. }
  assert (Hres : match r with
                 | Some a => h' ← push h a (lt_loc tn); Some (h', true)
                 | None =>
                     let a := alloc h in
                     let h := <[a := ArrayObject []]> h in
                     let h := <[l := CommentObject f (Some a)]> h in
                     h' ← push h a (lt_loc tn); Some (h', true)
                 end = Some (h', true)).
  { unfold h', a. destruct r as [a0|].
    - rewrite (push_array _ _ _ _ Hr). simpl. f_equal. f_equal.
      rewrite (insert_id h l) by exact Hl. reflexivity.
    - subst kids. cbn zeta.
      erewrite push_array; [|by rewrite lookup_insert_ne, lookup_insert_eq].
      simpl. f_equal. f_equal.
      rewrite (insert_insert_ne _ l (alloc h)) by (intros Heq; by apply Hal).
      by rewrite insert_insert_eq. }
  rewrite Hres.
  assert (Hframe : ∀ x, x ≠ l → x ≠ a → h' !! x = h !! x).
  { intros x Hxl Hxa. unfold h'.
    by rewrite lookup_insert_ne, lookup_insert_ne. }
  assert (Hfp : ∀ x, x ∈ l :: match r with Some a => [a] | None => [] end
                       ++ flat_map footprint kids ++ flat_map footprint ts →
                 is_Some (h !! x)).
  { intros x Hx. apply elem_of_cons in Hx as [->|Hx]; [by eexists|].
    rewrite !elem_of_app in Hx. destruct Hx as [Hx|[Hx|Hx]].
    - destruct r as [a0|]; [|by apply elem_of_nil in Hx].
      apply list_elem_of_singleton in Hx as ->. by eexists.
    - apply elem_of_flat_map in Hx as (k & Hk & Hx).
      rewrite Forall_forall in Hkids. eapply stored_dom; [|exact Hx]. auto.
    - apply elem_of_flat_map in Hx as (k & Hk & Hx).
      rewrite Forall_forall in Hts. eapply stored_dom; [|exact Hx]. auto. }
  assert (Ha_out : ∀ x, x ∈ flat_map footprint kids ++ flat_map footprint ts
                        ∨ x ∈ footprint tn → x ≠ a).
  { intros x Hx ->. unfold a in *. destruct r as [a0|].
    - destruct Hx as [Hx|Hx].
      + simpl in Hnd. apply NoDup_cons in Hnd as [Hnd _]. by apply Hnd.
      + apply (Hdisj _ Hx). simpl.
        apply list_elem_of_further, list_elem_of_here.
    - pose proof (alloc_fresh h) as Hf.
      destruct Hx as [Hx|Hx].
      + destruct (Hfp (alloc h)) as [? ?]; [|congruence].
        by apply list_elem_of_further.
      + destruct (stored_dom _ _ _ Htn Hx) as [? ?]. congruence. }
  assert (Hl_out' : ∀ x, x ∈ flat_map footprint kids ++ flat_map footprint ts
                         ∨ x ∈ footprint tn → x ≠ l).
  { intros x Hx ->. destruct Hx as [Hx|Hx].
    - apply Hl_out. rewrite <- app_assoc. apply elem_of_app. by right.
    - apply (Hdisj _ Hx). simpl. apply list_elem_of_here. }
  assert (Htn' : stored h' tn).
  { apply (stored_frame h); [exact Htn|]. intros x Hx.
    apply Hframe; [apply Hl_out'|apply Ha_out]; by right. }
  exists h', (LNode l f (Some a) (kids ++ [tn]) :: ts).
  split; [reflexivity|]. split; [reflexivity|]. split; [|split; [exact Htn'|split]].
  - constructor.
    + apply stored_node. split; [|split].
      * unfold h'. rewrite lookup_insert_ne by done. apply lookup_insert_eq.
      * unfold h'. rewrite lookup_insert_eq. by rewrite map_app.
      * apply Forall_app. split; [|by repeat constructor].
        rewrite Forall_forall in *. intros k Hk.
        apply (stored_frame h); [by apply Hkids|]. intros x Hx.
        assert (x ∈ flat_map footprint kids ++ flat_map footprint ts).
        { apply elem_of_app. left. apply elem_of_flat_map. by exists k. }
        apply Hframe; [apply Hl_out'|apply Ha_out]; by left.
    + rewrite Forall_forall in *. intros k Hk.
      apply (stored_frame h); [by apply Hts|]. intros x Hx.
      assert (x ∈ flat_map footprint kids ++ flat_map footprint ts).
      { apply elem_of_app. right. apply elem_of_flat_map. by exists k. }
      apply Hframe; [apply Hl_out'|apply Ha_out]; by left.
  - rewrite !map_cons.
    assert (Heq : erase (LNode l f (Some a) (kids ++ [tn]))
                  = push_reply (erase tn) (erase (LNode l f r kids))).
    { unfold push_reply. simpl. rewrite map_app. simpl.
      destruct r as [a0|]; [reflexivity|]. by subst kids. }
    rewrite Heq. by apply added_here.
  - intros x Hx Hsome. apply Hframe.
    + intros ->. apply Hx. simpl. apply list_elem_of_here.
    + intros ->. unfold a in *. destruct r as [a0|].
      * apply Hx. simpl. apply list_elem_of_further, list_elem_of_here.
      * destruct Hsome as [? Hsome]. rewrite alloc_fresh in Hsome. congruence.
Qed.

(** The target is among the replies of the comment at the head. *)
Lemma outcome_below (h : heap) (l : loc) (f : CommentFields) (a : loc)
    (kids ts : list ltree) (res : option (heap * bool)) :
  c_id f ≠ p →
  stored h (LNode l f (Some a) kids) → Forall (stored h) ts →
  NoDup (flat_map footprint (LNode l f (Some a) kids :: ts)) →
  existsb (mentions p) (map erase kids) = true →
  addReply_outcome p tn h kids res →
  addReply_outcome p tn h (LNode l f (Some a) kids :: ts) res.
Proof.
  intros Hid Ht Hts Hnd Hex [_ Hyes].
  pose proof Ht as (Hl & Ha & Hkids)%stored_node.
  split.
  { cbn [map existsb]. rewrite mentions_erase, Hex.
    by rewrite orb_true_r. }
  intros _.
  destruct (Hyes Hex) as (h' & kids' & -> & Hlocs & Hst & Htn & Hadd & Hfr).
  simpl in Hnd. apply NoDup_cons in Hnd as [Hl_out Hnd].
  apply NoDup_cons in Hnd as [Ha_out Hnd].
  apply NoDup_app in Hnd as (_ & Hsep & _).
  exists h', (LNode l f (Some a) kids' :: ts).
  split; [reflexivity|]. split; [reflexivity|]. split; [|split; [exact Htn|split]].
  - constructor.
    + apply stored_node. split; [|split; [|exact Hst]].
      * rewrite Hfr; [exact Hl| |by eexists]. intros Hin. apply Hl_out.
        apply list_elem_of_further, elem_of_app. by left.
      * rewrite Hfr; [by rewrite Hlocs| |by eexists]. intros Hin.
        apply Ha_out, elem_of_app. by left.
    + rewrite Forall_forall in *. intros k Hk.
      apply (stored_frame h); [by apply Hts|]. intros x Hx.
      apply Hfr; [|by eapply stored_dom; [apply Hts|]].
      intros Hin. apply (Hsep _ Hin). apply elem_of_flat_map. by exists k.
  - cbn [map].
    change (erase (LNode l f (Some a) kids'))
      with (mkComment (fields (erase (LNode l f (Some a) kids)))
                      (Some (map erase kids'))).
    by apply added_below with (rs := map erase kids).
  - intros x Hx Hsome. apply Hfr; [|exact Hsome]. intros Hin. apply Hx.
    simpl. apply list_elem_of_further, list_elem_of_further, elem_of_app.
    by left.
Qed.

Lemma addReply_loop_cons (recurse : heap → loc → option (heap * bool))
    (h : heap) (l : loc) (rest : list loc) :
  addReply_loop recurse p (lt_loc tn) h (l :: rest) =
    match h !! l with
    | Some (CommentObject f r) =>
        if decide (c_id f = p) then
          match r with
          | Some a => h' ← push h a (lt_loc tn); Some (h', true)
          | None =>
              let a := alloc h in
              let h := <[a := ArrayObject []]> h in
              let h := <[l := CommentObject f (Some a)]> h in
              h' ← push h a (lt_loc tn); Some (h', true)
          end
        else
          match r with
          | Some a =>
              match h !! a with
              | Some (ArrayObject []) =>
                  addReply_loop recurse p (lt_loc tn) h rest
              | Some (ArrayObject (_ :: _)) =>
                  match recurse h a with
                  | Some (h', true) => Some (h', true)
                  | Some (h', false) =>
                      addReply_loop recurse p (lt_loc tn) h' rest
                  | None => None
                  end
              | _ => None
              end
          | None => addReply_loop recurse p (lt_loc tn) h rest
          end
    | _ => None
    end.
Proof. reflexivity. Qed.

(** The loop, given that the recursive calls behave on shallower
    forests. *)
Lemma addReply_loop_outcome (fuel : nat) :
  (∀ h a ts,
     stored_forest h a ts → unshared a ts → stored h tn →
     (∀ x, x ∈ footprint tn → x ∉ flat_map footprint ts) →
     (forest_depth ts < fuel)%nat →
     addReply_outcome p tn h ts
       (addReplyRecursively fuel h a p (lt_loc tn))) →
  ∀ ts h,
    Forall (stored h) ts → NoDup (flat_map footprint ts) → stored h tn →
    (∀ x, x ∈ footprint tn → x ∉ flat_map footprint ts) →
    (forest_depth ts ≤ fuel)%nat →
    addReply_outcome p tn h ts
      (addReply_loop (λ h a, addReplyRecursively fuel h a p (lt_loc tn))
                     p (lt_loc tn) h (map lt_loc ts)).
Proof.
  intros IHfuel. induction ts as [|t ts IHts];
    intros h Hst Hnd Htn Hdisj Hdepth.
  { split; [reflexivity|discriminate]. }
  apply Forall_cons in Hst as [Ht Hts].
  assert (Hnd_ts : NoDup (flat_map footprint ts)).
  { simpl in Hnd. by apply NoDup_app in Hnd as (_ & _ & ?). }
  assert (Hsep : ∀ x, x ∈ footprint t → x ∉ flat_map footprint ts).
  { simpl in Hnd. by apply NoDup_app in Hnd as (_ & ? & _). }
  assert (Hdisj_ts : ∀ x, x ∈ footprint tn → x ∉ flat_map footprint ts).
  { intros x Hx Hin. apply (Hdisj x Hx). simpl. apply elem_of_app. by right. }
  assert (Hrest : addReply_outcome p tn h ts
            (addReply_loop (λ h a, addReplyRecursively fuel h a p (lt_loc tn))
                           p (lt_loc tn) h (map lt_loc ts))).
  { apply IHts; try done. unfold forest_depth in *. simpl in Hdepth. lia. }
  destruct t as [l f r kids].
  pose proof Ht as (Hl & Hr & Hkids)%stored_node.
  cbn [map lt_loc]. rewrite addReply_loop_cons, Hl.
  destruct (decide (c_id f = p)) as [Hid|Hid].
  { by apply outcome_here. }
  assert (Hroot : bool_decide (c_id f = p) = false)
    by by apply bool_decide_eq_false_2.
  destruct r as [a|].
  2: { apply outcome_skip; try done.
       rewrite mentions_erase, Hroot. reflexivity. }
  rewrite Hr. destruct kids as [|k kids].
  { apply outcome_skip; try done.
    rewrite mentions_erase, Hroot. reflexivity. }
  cbn [map].
  assert (Hkids_out : addReply_outcome p tn h (k :: kids)
            (addReplyRecursively fuel h a p (lt_loc tn))).
  { apply IHfuel.
    - by split.
    - unfold unshared. simpl in Hnd. apply NoDup_cons in Hnd as [_ Hnd].
      change (NoDup ((a :: flat_map footprint (k :: kids))
                     ++ flat_map footprint ts)) in Hnd.
      by apply NoDup_app in Hnd as (Hnd & _ & _).
    - exact Htn.
    - intros x Hx Hin. apply (Hdisj x Hx).
      change (x ∈ (l :: a :: flat_map footprint (k :: kids))
                  ++ flat_map footprint ts).
      apply elem_of_app. left.
      by apply list_elem_of_further, list_elem_of_further.
    - unfold forest_depth in *. simpl in *. lia. }
  destruct (existsb (mentions p) (map erase (k :: kids))) eqn:Hex.
  - pose proof Hkids_out as [_ Hyes].
    destruct (Hyes Hex) as (h' & kids' & Hres & _).
    rewrite Hres. rewrite <- Hres. by apply outcome_below.
  - pose proof Hkids_out as [Hno _]. rewrite (Hno Hex).
    apply outcome_skip; try done.
    rewrite mentions_erase, Hroot, Hex. reflexivity.
Qed.

(** [addReplyRecursively] on a stored, unshared forest, with enough fuel. *)
Lemma addReplyRecursively_outcome (fuel : nat) (h : heap) (a : loc)
    (ts : list ltree) :
  stored_forest h a ts → unshared a ts → stored h tn →
  (∀ x, x ∈ footprint tn → x ∉ flat_map footprint ts) →
  (forest_depth ts < fuel)%nat →
  addReply_outcome p tn h ts (addReplyRecursively fuel h a p (lt_loc tn)).
Proof.
  revert h a ts. induction fuel as [|fuel IH];
    intros h a ts [Ha Hst] Hun Htn Hdisj Hdepth; [lia|].
  simpl. rewrite Ha.
  apply addReply_loop_outcome; try done.
  - unfold unshared in Hun. by apply NoDup_cons in Hun as [_ ?].
  - lia.
Qed.

End AddReply.

(** Reading a stored forest back gives its value. *)
Lemma read_comments_stored (fuel : nat) (h : heap) (a : loc) (ts : list ltree) :
  stored_forest h a ts → (forest_depth ts < fuel)%nat →
  read_comments fuel h a = Some (map erase ts).
Proof.
  revert a ts. induction fuel as [|fuel IH]; intros a ts [Ha Hst] Hd; [lia|].
  simpl. rewrite Ha. clear Ha.
  induction Hst as [|t ts Ht _ IHts]; [reflexivity|].
  assert (Hd' : (depth t ≤ fuel ∧ forest_depth ts < S fuel)%nat).
  { unfold forest_depth in *. simpl in Hd. lia. }
  destruct Hd' as [Hdt Hdts].
  cbn [map mapM]. rewrite (IHts Hdts). clear IHts.
  destruct t as [l f r kids].
  apply stored_node in Ht as (Hl & Hr & Hkids). simpl lt_loc. rewrite Hl.
  destruct r as [a'|]; [|reflexivity].
  rewrite (IH a' kids); [reflexivity|by split|].
  simpl in Hdt. unfold forest_depth. lia.
Qed.

(** C4.  On a store that holds the forest without sharing, and the new
    comment apart from it: if some comment of the forest has id
    [parentId], [addReplyRecursively] (with fuel beyond the nesting depth)
    returns [true] and leaves at the same array a forest [f'] that is the
    old one with the new comment appended to the replies of the first
    comment with that id in pre-order, the replies array being created if
    there was none ([reply_added]).  Every other comment, and so the order
    of all siblings, is as before; the forest has as many comments more as
    the new comment brings: exactly one when it has no replies of its
    own. *)
Theorem addReply_first_match (fuel : nat) (h : heap) (comments : loc)
    (ts : list ltree) (tn : ltree) (parentId : jsstring) :
  stored_forest h comments ts → unshared comments ts →
  stored h tn →
  (∀ x, x ∈ footprint tn → x ∉ flat_map footprint ts) →
  existsb (mentions parentId) (map erase ts) = true →
  (forest_depth ts < fuel)%nat →
  ∃ h' ts',
    addReplyRecursively fuel h comments parentId (lt_loc tn)
      = Some (h', true) ∧
    stored_forest h' comments ts' ∧
    (∀ fuel', (forest_depth ts' < fuel')%nat →
              read_comments fuel' h' comments = Some (map erase ts')) ∧
    reply_added parentId (erase tn) (map erase ts) (map erase ts') ∧
    (∀ f', reply_added parentId (erase tn) (map erase ts) f' →
           f' = map erase ts') ∧
    map comment_id (map erase ts') = map comment_id (map erase ts) ∧
    count_comments (map erase ts')
      = (count_comments (map erase ts) + count_comment (erase tn))%nat ∧
    (replies (erase tn) = None ∨ replies (erase tn) = Some [] →
     count_comments (map erase ts') = S (count_comments (map erase ts))).
Proof.
  intros Hst Hun Htn Hdisj Hex Hfuel.
  destruct (addReplyRecursively_outcome parentId tn fuel h comments ts
              Hst Hun Htn Hdisj Hfuel) as [_ Hyes].
  destruct (Hyes Hex) as (h' & ts' & Hres & Hlocs & Hst' & _ & Hadd & Hfr).
  assert (Hforest : stored_forest h' comments ts').
  { split; [|exact Hst']. destruct Hst as [Ha _].
    rewrite Hfr, Hlocs; [exact Ha| |by eexists].
    unfold unshared in Hun. by apply NoDup_cons in Hun as [? _]. }
  exists h', ts'. split; [exact Hres|]. split; [exact Hforest|]. split.
  { intros fuel' Hf. by apply read_comments_stored. }
  split; [exact Hadd|]. split.
  { intros f' Hf'. by eapply reply_added_functional. }
  split; [by eapply reply_added_ids|].
  pose proof (reply_added_count _ _ _ _ Hadd) as Hcount.
  split; [exact Hcount|].
  intros Hleaf. rewrite Hcount.
  destruct (erase tn) as [fn rn]. simpl in *.
  destruct Hleaf as [->| ->]; simpl; lia.
Qed.

Lemma addReply_first_match_witness :
  ∃ h' ts',
    addReplyRecursively 3 Demo.thread_heap_with_reply 0%nat (utf16 "c3") 5%nat
      = Some (h', true) ∧
    reply_added (utf16 "c3") (erase Demo.new_reply)
                (map erase Demo.thread) (map erase ts') ∧
    count_comments (map erase ts') = S (count_comments (map erase Demo.thread)).
Proof.
  destruct (addReply_first_match 3 Demo.thread_heap_with_reply 0%nat
              Demo.thread Demo.new_reply (utf16 "c3"))
    as (h' & ts' & Hres & _ & _ & Hadd & _ & _ & _ & Hone).
  - split; [reflexivity|]. repeat constructor.
  - unfold unshared. apply (bool_decide_unpack _). vm_compute. exact I.
  - repeat constructor.
  - intros x Hx. simpl in Hx. rewrite !elem_of_cons in Hx.
    destruct Hx as [->|[->|Hx]]; [| |by apply elem_of_nil in Hx].
    all: apply (bool_decide_unpack _); vm_compute; exact I.
  - reflexivity.
  - vm_compute. lia.
  - exists h', ts'. split; [exact Hres|]. split; [exact Hadd|].
    apply Hone. by right.
Defined.

(** ** The caller's forest under [handleAddChapterComment] *)

Lemma alloc_insert_ne (h : heap) (x : loc) (v : object) :
  alloc (<[x := v]> h) ≠ x ∧ h !! alloc (<[x := v]> h) = None.
Proof.
  pose proof (alloc_fresh (<[x := v]> h)) as Hf.
  destruct (decide (alloc (<[x := v]> h) = x)) as [Heq|Hne].
  - rewrite Heq, lookup_insert_eq in Hf. discriminate.
  - split; [exact Hne|]. by rewrite lookup_insert_ne in Hf.
Qed.

Lemma stored_forest_fresh (h h' : heap) (ts : list ltree) :
  Forall (stored h) ts →
  (∀ x, is_Some (h !! x) → h' !! x = h !! x) →
  Forall (stored h') ts.
Proof.
  intros Hst Hsame. eapply Forall_impl; [exact Hst|].
  intros t Ht. apply (stored_frame h); [exact Ht|].
  intros x Hx. apply Hsame. by eapply stored_dom.
Qed.

(** The three allocations of the handler, on a store that holds the
    caller's forest at [a]: the new comment [tn] with its empty replies
    array, and the copy [uc] of the caller's array. *)
Lemma handler_allocations (h : heap) (a : loc) (ts : list ltree)
    (nf : CommentFields) :
  stored_forest h a ts →
  let ra := alloc h in
  let h1 := <[ra := ArrayObject []]> h in
  let nc := alloc h1 in
  let h2 := <[nc := CommentObject nf (Some ra)]> h1 in
  let uc := alloc h2 in
  let h3 := <[uc := ArrayObject (map lt_loc ts)]> h2 in
  h2 !! a = Some (ArrayObject (map lt_loc ts)) ∧
  uc ≠ a ∧
  (∀ x, is_Some (h !! x) → h3 !! x = h !! x) ∧
  (∀ x, is_Some (h !! x) → x ≠ ra ∧ x ≠ nc ∧ x ≠ uc) ∧
  (uc ≠ nc ∧ uc ≠ ra) ∧
  stored h3 (LNode nc nf (Some ra) []) ∧
  stored_forest h3 uc ts.
Proof.
  intros [Ha Hst] ra h1 nc h2 uc h3.
  pose proof (alloc_fresh h) as Hra. fold ra in Hra.
  destruct (alloc_insert_ne h ra (ArrayObject [])) as [Hnc_ra Hnc].
  fold h1 nc in Hnc_ra, Hnc.
  destruct (alloc_insert_ne h1 nc (CommentObject nf (Some ra)))
    as [Huc_nc Huc1].
  fold h2 uc in Huc_nc, Huc1.
  assert (Huc_ra : uc ≠ ra).
  { intros Heq. unfold h1 in Huc1. rewrite Heq, lookup_insert_eq in Huc1.
    discriminate. }
  assert (Huc : h !! uc = None).
  { unfold h1 in Huc1. by rewrite lookup_insert_ne in Huc1. }
  assert (Hne : ∀ x, is_Some (h !! x) → x ≠ ra ∧ x ≠ nc ∧ x ≠ uc).
  { intros x [v Hx]. repeat split; intros ->; congruence. }
  assert (Hsame : ∀ x, is_Some (h !! x) → h3 !! x = h !! x).
  { intros x Hx. destruct (Hne x Hx) as (? & ? & ?). unfold h3, h2, h1.
    by rewrite !lookup_insert_ne. }
  destruct (Hne a) as (Ha_ra & Ha_nc & Ha_uc); [by eexists|].
  split; [unfold h2, h1; by rewrite !lookup_insert_ne|].
  split; [done|]. split; [exact Hsame|]. split; [exact Hne|].
  split; [done|]. split.
  - apply stored_node. split; [|split; [|constructor]].
    + unfold h3, h2. rewrite lookup_insert_ne by done.
      apply lookup_insert_eq.
    + unfold h3, h2, h1. rewrite !lookup_insert_ne by done.
      apply lookup_insert_eq.
  - split; [apply lookup_insert_eq|]. by apply (stored_forest_fresh h).
Qed.

(** A reply to an existing comment: the forest is updated through the copy
    [updatedComments], and the caller's array, which shares its comment
    objects, shows the same updated forest. *)
Lemma handleAddChapterComment_reply (fuel : nat) (h : heap) (a : loc)
    (ts : list ltree) (user : User) (content parentId : jsstring)
    (t_id t_created : Z) :
  stored_forest h a ts → unshared a ts →
  existsb (mentions parentId) (map erase ts) = true →
  truthy parentId = true →
  (forest_depth ts < fuel)%nat →
  ∃ h' updatedComments ts',
    handleAddChapterComment fuel h (Some a) user content (Some parentId)
                            t_id t_created
      = Some (h', updatedComments) ∧
    updatedComments ≠ a ∧
    stored_forest h' updatedComments ts' ∧
    stored_forest h' a ts' ∧
    reply_added parentId
      (mkComment (newCommentFields user content t_id t_created) (Some []))
      (map erase ts) (map erase ts').
Proof.
  intros Hst Hun Hex Htruthy Hfuel.
  set (nf := newCommentFields user content t_id t_created).
  pose proof (handler_allocations h a ts nf Hst) as Halloc.
  cbn zeta in Halloc.
  destruct Halloc as (Ha2 & Hne & Hsame & Hfresh & _ & Htn & Hforest).
  set (ra := alloc h) in *.
  set (h1 := <[ra := ArrayObject []]> h) in *.
  set (nc := alloc h1) in *.
  set (h2 := <[nc := CommentObject nf (Some ra)]> h1) in *.
  set (uc := alloc h2) in *.
  set (h3 := <[uc := ArrayObject (map lt_loc ts)]> h2) in *.
  set (tn := LNode nc nf (Some ra) []) in *.
  assert (Hfp : ∀ x, x ∈ flat_map footprint ts → is_Some (h !! x)).
  { intros x (t & Ht & Hx)%elem_of_flat_map. destruct Hst as [_ Hst].
    rewrite Forall_forall in Hst. eapply stored_dom; [|exact Hx]. auto. }
  assert (Hun3 : unshared uc ts).
  { unfold unshared in *. apply NoDup_cons in Hun as [_ Hnd].
    constructor; [|exact Hnd]. intros Hin.
    by destruct (Hfresh uc (Hfp _ Hin)) as (_ & _ & ?). }
  assert (Hdisj : ∀ x, x ∈ footprint tn → x ∉ flat_map footprint ts).
  { intros x Hx Hin. destruct (Hfresh x (Hfp _ Hin)) as (? & ? & _).
    simpl in Hx. rewrite !elem_of_cons in Hx.
    destruct Hx as [->|[->|Hx]]; [done|done|by apply elem_of_nil in Hx]. }
  destruct (addReplyRecursively_outcome parentId tn fuel h3 uc ts
              Hforest Hun3 Htn Hdisj Hfuel) as [_ Hyes].
  destruct (Hyes Hex) as (h' & ts' & Hres & Hlocs & Hst' & _ & Hadd & Hfr).
  exists h', uc, ts'.
  destruct parentId as [|u us]; [discriminate|].
  split.
  { unfold handleAddChapterComment. cbn zeta.
    fold ra h1 nc. fold nf. fold h2. rewrite Ha2. simpl.
    fold uc h3. change nc with (lt_loc tn). by rewrite Hres. }
  split; [exact Hne|].
  assert (Hlook : ∀ x, x ∉ flat_map footprint ts → is_Some (h3 !! x) →
                       h' !! x = h3 !! x) by exact Hfr.
  split; [|split; [|exact Hadd]].
  - split; [|exact Hst']. destruct Hforest as [Huc _].
    rewrite Hlook, Hlocs; [exact Huc| |by eexists].
    unfold unshared in Hun3. by apply NoDup_cons in Hun3 as [? _].
  - split; [|exact Hst']. destruct Hst as [Ha _].
    assert (Ha3 : h3 !! a = Some (ArrayObject (map lt_loc ts))).
    { rewrite Hsame; [exact Ha|by eexists]. }
    rewrite Hlook, Hlocs; [exact Ha3| |by eexists].
    unfold unshared in Hun. by apply NoDup_cons in Hun as [? _].
Qed.

(** A top-level post: the new comment is pushed onto the copy, and the
    caller's array holds the forest it held. *)
Lemma handleAddChapterComment_top_level (fuel : nat) (h : heap) (a : loc)
    (ts : list ltree) (user : User) (content : jsstring)
    (parentId : option jsstring) (t_id t_created : Z) :
  stored_forest h a ts →
  parentId = None ∨ parentId = Some [] →
  ∃ h' updatedComments tn,
    handleAddChapterComment fuel h (Some a) user content parentId
                            t_id t_created
      = Some (h', updatedComments) ∧
    updatedComments ≠ a ∧
    erase tn
      = mkComment (newCommentFields user content t_id t_created) (Some []) ∧
    stored_forest h' updatedComments (ts ++ [tn]) ∧
    stored_forest h' a ts.
Proof.
  intros Hst Hparent.
  set (nf := newCommentFields user content t_id t_created).
  pose proof (handler_allocations h a ts nf Hst) as Halloc.
  cbn zeta in Halloc.
  destruct Halloc
    as (Ha2 & Hne & Hsame & Hfresh & [Huc_nc Huc_ra] & Htn & [Huc Hts3]).
  set (ra := alloc h) in *.
  set (h1 := <[ra := ArrayObject []]> h) in *.
  set (nc := alloc h1) in *.
  set (h2 := <[nc := CommentObject nf (Some ra)]> h1) in *.
  set (uc := alloc h2) in *.
  set (h3 := <[uc := ArrayObject (map lt_loc ts)]> h2) in *.
  set (tn := LNode nc nf (Some ra) []) in *.
  set (h' := <[uc := ArrayObject (map lt_loc ts ++ [nc])]> h3).
  assert (Hsame' : ∀ x, x ≠ uc → h' !! x = h3 !! x).
  { intros x Hx. unfold h'. by rewrite lookup_insert_ne. }
  exists h', uc, tn. split.
  { unfold handleAddChapterComment. cbn zeta.
    fold ra h1 nc. fold nf. fold h2. rewrite Ha2. simpl.
    fold uc h3. rewrite (push_array h3 uc nc (map lt_loc ts) Huc).
    by destruct Hparent as [->| ->]. }
  split; [exact Hne|]. split; [reflexivity|].
  assert (Hframe : ∀ t, stored h3 t → uc ∉ footprint t → stored h' t).
  { intros t Ht Hout. apply (stored_frame h3); [exact Ht|].
    intros x Hx. apply Hsame'. by intros ->. }
  assert (Hout : ∀ t, t ∈ ts → uc ∉ footprint t).
  { intros t Ht Hin. destruct Hst as [_ Hst].
    rewrite Forall_forall in Hst.
    destruct (Hfresh uc) as (_ & _ & ?); [|done].
    eapply stored_dom; [|exact Hin]. auto. }
  assert (Hts' : Forall (stored h') ts).
  { rewrite Forall_forall in *. intros t Ht.
    apply Hframe; [by apply Hts3|by apply Hout]. }
  split; [split|split].
  - unfold h'. rewrite lookup_insert_eq, map_app. reflexivity.
  - apply Forall_app. split; [exact Hts'|]. constructor; [|constructor].
    apply Hframe; [exact Htn|]. simpl. rewrite !elem_of_cons.
    by intros [Heq|[Heq|Hnil]]; [| |apply elem_of_nil in Hnil].
  - rewrite Hsame' by done. destruct Hst as [Ha _].
    rewrite Hsame; [exact Ha|by eexists].
  - exact Hts'.
Qed.

(** C1 fails on the code: a reply to the nested comment [c3] of the demo
    thread.  The handler builds its own array [updatedComments], but the
    forest read through the caller's array (reference 0) before the call,
    [c1 [c3], c2], has become [c1 [c3 [new]], c2] after it: the comment
    objects are shared. *)
Lemma handleAddChapterComment_mutates_caller :
  ∃ h' updatedComments before after,
    handleAddChapterComment 3 Demo.thread_heap (Some 0%nat) Demo.reader
        (utf16 "ok") (Some (utf16 "c3")) 1700 1701
      = Some (h', updatedComments) ∧
    updatedComments ≠ 0%nat ∧
    read_comments 4 Demo.thread_heap 0%nat = Some before ∧
    read_comments 4 h' 0%nat = Some after ∧
    before = map erase Demo.thread ∧
    reply_added (utf16 "c3")
      (mkComment (newCommentFields Demo.reader (utf16 "ok") 1700 1701)
                 (Some []))
      before after ∧
    count_comments before = 3%nat ∧
    count_comments after = 4%nat ∧
    after ≠ before.
Proof.
  eexists _, _, _, _.
  split; [vm_compute; reflexivity|]. split; [discriminate|].
  split; [vm_compute; reflexivity|]. split; [vm_compute; reflexivity|].
  split; [vm_compute; reflexivity|]. split.
  { apply added_below with (rs := [erase (LNode 4%nat
                                      (Demo.comment_fields "c3" "hay qua")
                                      None [])]).
    - vm_compute. discriminate.
    - reflexivity.
    - apply (added_here (utf16 "c3")). reflexivity. }
  split; [reflexivity|]. split; [reflexivity|]. discriminate.
Qed.

(** * Further properties of the code *)

(** ** Rank engine: more experience never lowers the rank *)

Lemma getUserRank_title (exp : option Z) (system : RankSystem) :
  system ≠ NONE →
  RANK_TITLES system !! rank_level (default 0 exp)
    = Some (getUserRank exp (Some system)).
Proof.
  intros Hs. rewrite getUserRank_not_none by done.
  destruct (title_at_total system (rank_level (default 0 exp)) Hs
              (rank_level_bound _)) as (t & Hl & ->).
  exact Hl.
Qed.

Lemma rank_level_mono (exp1 exp2 : Z) :
  exp1 ≤ exp2 → (rank_level exp1 ≤ rank_level exp2)%nat.
Proof.
  intros Hle. unfold rank_level; simpl.
  repeat (case_threshold exp1;
          [repeat (case_threshold exp2; [lia|]); lia|]).
  lia.
Qed.

(** X1.  [getUserRank] is monotone in [exp]: for a rank system other than
    [NONE], the titles returned for [exp1 ≤ exp2] stand at indices
    [i ≤ j] of the system's title table.  The titles of a table are
    pairwise distinct, so a title stands at one index only. *)
Theorem rank_never_drops (exp1 exp2 : Z) (system : RankSystem) :
  exp1 ≤ exp2 → system ≠ NONE →
  (rank_level exp1 ≤ rank_level exp2)%nat ∧
  RANK_TITLES system !! rank_level exp1
    = Some (getUserRank (Some exp1) (Some system)) ∧
  RANK_TITLES system !! rank_level exp2
    = Some (getUserRank (Some exp2) (Some system)) ∧
  NoDup (RANK_TITLES system).
Proof.
  intros Hle Hs. split; [by apply rank_level_mono|].
  split; [by apply (getUserRank_title (Some exp1))|].
  split; [by apply (getUserRank_title (Some exp2))|].
  apply (bool_decide_unpack _). by destruct system; vm_compute.
Qed.

Lemma rank_never_drops_witness :
  (rank_level 290 ≤ rank_level 300)%nat ∧
  RANK_TITLES GAME !! rank_level 290
    = Some (getUserRank (Some 290) (Some GAME)) ∧
  RANK_TITLES GAME !! rank_level 300
    = Some (getUserRank (Some 300) (Some GAME)) ∧
  NoDup (RANK_TITLES GAME).
Proof. apply (rank_never_drops 290 300 GAME); [lia|discriminate]. Defined.

(** ** Text normaliser and search *)

Lemma starts_with_spec (q s : jsstring) :
  starts_with q s = true ↔ ∃ post, s = q ++ post.
Proof.
  revert s. induction q as [|a q IH]; intros s; simpl.
  - split; [by exists s|done].
  - destruct s as [|b s].
    + split; [done|by intros [post ?]].
    + rewrite andb_true_iff, N.eqb_eq, IH. split.
      * intros [-> [post ->]]. by exists post.
      * intros [post [= -> ->]]. split; [done|by exists post].
Qed.

(** [s.includes(q)] holds exactly when [q] is a substring of [s]. *)
Lemma includes_spec (s q : jsstring) :
  includes s q = true ↔ ∃ pre post, s = pre ++ q ++ post.
Proof.
  induction s as [|b s IH].
  - simpl. rewrite orb_false_r, starts_with_spec. split.
    + intros [post ->]. by exists [], post.
    + intros (pre & post & Heq). symmetry in Heq.
      apply app_eq_nil in Heq as [-> Heq]. exists post. done.
  - cbn [includes]. rewrite orb_true_iff, starts_with_spec, IH. split.
    + intros [[post ->]|(pre & post & ->)].
      * by exists [], post.
      * by exists (b :: pre), post.
    + intros ([|b' pre] & post & Heq).
      * left. by exists post.
      * right. injection Heq as -> ->. by exists pre, post.
Qed.

Lemma strip_marks_cons (c : N) (s : jsstring) :
  strip_marks (c :: s)
    = if is_combining_mark c then strip_marks s else c :: strip_marks s.
Proof.
  unfold strip_marks. destruct (is_combining_mark c) eqn:Hc.
  - by rewrite (filter_cons_False (λ c, is_combining_mark c = false) c s)
      by (by rewrite Hc).
  - by rewrite (filter_cons_True (λ c, is_combining_mark c = false) c s).
Qed.

Lemma strip_marks_app (s t : jsstring) :
  strip_marks (s ++ t) = strip_marks s ++ strip_marks t.
Proof. apply filter_app. Qed.

Lemma strip_marks_rev (s : jsstring) :
  strip_marks (rev s) = rev (strip_marks s).
Proof.
  induction s as [|c s IH]; [reflexivity|].
  simpl rev. rewrite strip_marks_app, IH, !strip_marks_cons.
  destruct (is_combining_mark c); simpl; [by rewrite app_nil_r|reflexivity].
Qed.

(** In decomposed Vietnamese text only marks of the stripped range have a
    non-zero combining class. *)
Lemma decomposed_nonstarter (c : N) :
  decomposed_unit c = true → Unicode.ccc c ≠ 0%N → is_combining_mark c = true.
Proof.
  unfold decomposed_unit. rewrite !orb_true_iff, N.ltb_lt, !N.eqb_eq.
  intros [[[Hc| ->]| ->]|Hc] Hccc; [|done|done|done].
  by rewrite ccc_of_ascii in Hccc.
Qed.

(** Canonical ordering moves a mark only past marks, and all of them are
    stripped. *)
Lemma strip_marks_place (c : N) (out : list N) :
  decomposed_unit c = true → Forall (λ x, decomposed_unit x = true) out →
  strip_marks (Unicode.place c out) = strip_marks (c :: out).
Proof.
  intros Hc Hout. induction Hout as [|p out Hp _ IH]; [reflexivity|].
  cbn [Unicode.place].
  destruct (negb (Unicode.ccc c =? 0)%N && (Unicode.ccc c <? Unicode.ccc p)%N)
    eqn:Hmove; [|reflexivity].
  apply andb_true_iff in Hmove as [Hc0 Hlt].
  apply negb_true_iff, N.eqb_neq in Hc0. apply N.ltb_lt in Hlt.
  assert (Hcm : is_combining_mark c = true) by by apply decomposed_nonstarter.
  assert (Hpm : is_combining_mark p = true)
    by (apply decomposed_nonstarter; [done|lia]).
  rewrite (strip_marks_cons p), Hpm, IH.
  by rewrite !strip_marks_cons, Hcm, Hpm.
Qed.

Lemma strip_marks_canonical_order (s : jsstring) :
  Forall (λ x, decomposed_unit x = true) s →
  strip_marks (Unicode.canonical_order s) = strip_marks s.
Proof.
  intros Hs. unfold Unicode.canonical_order. rewrite strip_marks_rev.
  assert (Hgen : ∀ acc, Forall (λ x, decomposed_unit x = true) acc →
            strip_marks (fold_left (λ out c, Unicode.place c out) s acc)
              = strip_marks (rev s ++ acc)).
  { induction Hs as [|c s Hc Hs IH]; intros acc Hacc; [reflexivity|].
    cbn [fold_left]. rewrite IH.
    - simpl rev. rewrite <- app_assoc, !strip_marks_app.
      rewrite strip_marks_place by done.
      change (c :: acc) with ([c] ++ acc). by rewrite strip_marks_app.
    - rewrite place_perm. by constructor. }
  rewrite Hgen by constructor. rewrite app_nil_r, strip_marks_rev.
  apply rev_involutive.
Qed.

(** On Vietnamese text the normaliser works code unit by code unit. *)
Lemma removeAccents_unordered (s : jsstring) :
  Forall (λ c, vietnamese_unit c = true) s →
  removeAccents s =
    Unicode.toLowerCase
      (replace_unit 0x110 0x44
         (replace_unit 0x111 0x64
            (strip_marks (flat_map Unicode.canonical_decomposition s)))).
Proof.
  intros Hs. unfold removeAccents, Unicode.normalize_NFD.
  rewrite strip_marks_canonical_order; [reflexivity|].
  induction Hs as [|c s Hc _ IH]; simpl; [constructor|].
  apply Forall_app. split; [|exact IH].
  by apply canonical_decomposition_decomposed.
Qed.

(** X2.  On Vietnamese text (ASCII, the precomposed Vietnamese letters, d
    with stroke, and the combining marks U+0300..U+036F) [removeAccents]
    distributes over concatenation: normalising two strings and joining
    them gives the normalisation of the joined string. *)
Theorem removeAccents_concat (s t : jsstring) :
  Forall (λ c, vietnamese_unit c = true) s →
  Forall (λ c, vietnamese_unit c = true) t →
  removeAccents (s ++ t) = removeAccents s ++ removeAccents t.
Proof.
  intros Hs Ht.
  rewrite !removeAccents_unordered by (try apply Forall_app; done).
  rewrite flat_map_app, strip_marks_app.
  unfold Unicode.toLowerCase, replace_unit. by rewrite !map_app.
Qed.

Lemma removeAccents_concat_witness :
  removeAccents (utf16 "Đường" ++ utf16 " Về")
    = removeAccents (utf16 "Đường") ++ removeAccents (utf16 " Về").
Proof.
  apply (removeAccents_concat (utf16 "Đường") (utf16 " Về")).
  - vm_compute. repeat constructor.
  - vm_compute. repeat constructor.
Defined.

Lemma removeAccents_substring (fragment pre post : jsstring) :
  Forall (λ c, vietnamese_unit c = true) (pre ++ fragment ++ post) →
  includes (removeAccents (pre ++ fragment ++ post)) (removeAccents fragment)
    = true.
Proof.
  intros Hall. apply Forall_app in Hall as [Hpre Hall].
  apply Forall_app in Hall as [Hfrag Hpost].
  rewrite !removeAccents_concat by (try apply Forall_app; done).
  apply includes_spec. by eexists _, _.
Qed.

(** X3.  The search finds every comic by any fragment of its text,
    whatever the accents and the case typed: if the title, the author or
    a tag of a comic is Vietnamese text that contains [fragment], and the
    typed query normalises to the same string as [fragment], then the comic
    matches under the scope of that field (title or author) and under the
    scope ALL. *)
Theorem search_finds_substring (typed fragment pre post : jsstring)
    (comic : Comic) :
  Forall (λ c, vietnamese_unit c = true) (pre ++ fragment ++ post) →
  removeAccents typed = removeAccents fragment →
  (co_title comic = pre ++ fragment ++ post →
   matchesSearch typed SCOPE_TITLE comic = true ∧
   matchesSearch typed SCOPE_ALL comic = true) ∧
  (co_author comic = pre ++ fragment ++ post →
   matchesSearch typed SCOPE_AUTHOR comic = true ∧
   matchesSearch typed SCOPE_ALL comic = true) ∧
  (pre ++ fragment ++ post ∈ co_tags comic →
   matchesSearch typed SCOPE_ALL comic = true).
Proof.
  intros Hall Htyped.
  pose proof (removeAccents_substring fragment pre post Hall) as Hinc.
  unfold matchesSearch. rewrite Htyped.
  destruct (truthy (removeAccents fragment)); simpl; [|done].
  split; [|split].
  - intros ->. by rewrite Hinc.
  - intros ->. by rewrite Hinc, orb_true_r.
  - intros Htag. rewrite !orb_true_iff. right.
    apply existsb_exists. exists (pre ++ fragment ++ post).
    split; [by apply list_elem_of_In|exact Hinc].
Qed.

Lemma search_finds_substring_witness :
  matchesSearch (utf16 "duong") SCOPE_TITLE Demo.comic1 = true ∧
  matchesSearch (utf16 "duong") SCOPE_ALL Demo.comic1 = true.
Proof.
  apply (search_finds_substring (utf16 "duong") (utf16 "Đường") []
           (utf16 " Về") Demo.comic1).
  - vm_compute. repeat constructor.
  - vm_compute. reflexivity.
  - vm_compute. reflexivity.
Defined.

(** ** View composer *)

Lemma reserved_distinct :
  CAT_ALL ≠ CAT_FOLLOWING ∧ CAT_ALL ≠ CAT_HISTORY ∧ CAT_FOLLOWING ≠ CAT_HISTORY.
Proof. vm_compute. repeat split; discriminate. Qed.

(** A query that normalises to the empty string matches every comic. *)
Lemma matchesSearch_empty (q : jsstring) (scope : SearchScope) (c : Comic) :
  removeAccents q = [] → matchesSearch q scope c = true.
Proof. intros Hq. unfold matchesSearch. by rewrite Hq. Qed.



Lemma filter_none {A} (P : A → bool) (l : list A) :
  (∀ x, x ∈ l → P x = false) → List.filter P l = [].
Proof.
  induction l as [|x l IH]; intros Hall; [reflexivity|]. simpl.
  rewrite Hall by apply list_elem_of_here. apply IH.
  intros y Hy. apply Hall. by apply list_elem_of_further.
Qed.

Lemma elem_of_List_filter {A} (P : A → bool) (l : list A) (x : A) :
  x ∈ List.filter P l ↔ x ∈ l ∧ P x = true.
Proof. rewrite !list_elem_of_In. apply List.filter_In. Qed.

Section Gallery.
Context (localeCompare : jsstring → jsstring → Z).
Context (searchQuery : jsstring) (searchScope : SearchScope)
        (selectedCategory : jsstring) (sortOption : SortOption)
        (user : option User).

Local Abbreviation shown :=
  (filteredComics localeCompare searchQuery searchScope selectedCategory
                  sortOption user).

Lemma elem_of_filteredComics (comics : list Comic) (c : Comic) :
  c ∈ shown comics ↔
  c ∈ comics ∧ matchesSearch searchQuery searchScope c = true ∧
  matchesCategory selectedCategory user c = true.
Proof.
  unfold filteredComics. rewrite array_sort_perm, elem_of_List_filter.
  by rewrite andb_true_iff.
Qed.

(** X4.  The gallery shows exactly the comics of the library that match
    the search and the category, each as often as the library holds it:
    [filteredComics] is a rearrangement of the filtered library, so it
    never invents, repeats or drops a comic, and it is never longer than
    the library. *)
Theorem filteredComics_exact (comics : list Comic) :
  shown comics
    ≡ₚ List.filter (λ c, matchesSearch searchQuery searchScope c
                         && matchesCategory selectedCategory user c) comics ∧
  (∀ c, c ∈ shown comics ↔
        c ∈ comics ∧ matchesSearch searchQuery searchScope c = true ∧
        matchesCategory selectedCategory user c = true) ∧
  (length (shown comics) ≤ length comics)%nat ∧
  (NoDup comics → NoDup (shown comics)).
Proof.
  assert (Hperm : shown comics
    ≡ₚ List.filter (λ c, matchesSearch searchQuery searchScope c
                         && matchesCategory selectedCategory user c) comics)
    by apply array_sort_perm.
  split; [exact Hperm|]. split; [apply elem_of_filteredComics|]. split.
  - rewrite Hperm. apply List.filter_length_le.
  - intros Hnd. rewrite Hperm. apply NoDup_ListNoDup, List.NoDup_filter.
    by apply NoDup_ListNoDup.
Qed.

End Gallery.


(** X6.  Whatever a search finds under the scope TITLE or AUTHOR it also
    finds under the scope ALL, the other settings being equal. *)
Theorem search_scope_all_covers (localeCompare : jsstring → jsstring → Z)
    (searchQuery selectedCategory : jsstring) (sortOption : SortOption)
    (user : option User) (comics : list Comic) (scope : SearchScope)
    (c : Comic) :
  c ∈ filteredComics localeCompare searchQuery scope selectedCategory
        sortOption user comics →
  c ∈ filteredComics localeCompare searchQuery SCOPE_ALL selectedCategory
        sortOption user comics.
Proof.
  rewrite !elem_of_filteredComics. intros (Hin & Hs & Hc).
  split; [exact Hin|]. split; [|exact Hc].
  revert Hs. unfold matchesSearch.
  destruct (truthy (removeAccents searchQuery)); simpl; [|done].
  destruct scope; [done| |]; intros ->; by rewrite ?orb_true_r.
Qed.

Lemma search_scope_all_covers_witness :
  Demo.comic1 ∈ filteredComics (λ _ _, 0) (utf16 "le dong") SCOPE_ALL CAT_ALL
                  LATEST None [Demo.comic1; Demo.comic2].
Proof.
  apply (search_scope_all_covers (λ _ _, 0) (utf16 "le dong") CAT_ALL LATEST
           None [Demo.comic1; Demo.comic2] SCOPE_AUTHOR Demo.comic1).
  vm_compute. apply list_elem_of_here.
Defined.

(** X7.  Under the category ["Đang theo dõi"] the gallery is empty for a
    visitor who is not logged in and for a user who follows nothing, and
    every comic it shows is one the logged-in user follows. *)
Theorem following_needs_follows (localeCompare : jsstring → jsstring → Z)
    (searchQuery : jsstring) (searchScope : SearchScope)
    (sortOption : SortOption) (user : option User) (comics : list Comic) :
  (from_option (λ u, default [] (u_followedComics u)) [] user = [] →
   filteredComics localeCompare searchQuery searchScope CAT_FOLLOWING
                  sortOption user comics = []) ∧
  (∀ c, c ∈ filteredComics localeCompare searchQuery searchScope
               CAT_FOLLOWING sortOption user comics →
        ∃ u, user = Some u ∧ co_id c ∈ default [] (u_followedComics u)).
Proof.
  destruct reserved_distinct as (Hne & _ & _).
  assert (Hcat : ∀ c, matchesCategory CAT_FOLLOWING user c = true →
            ∃ u, user = Some u ∧ co_id c ∈ default [] (u_followedComics u)).
  { intros c. unfold matchesCategory.
    rewrite decide_False by done. rewrite decide_True by done.
    destruct user as [u|]; [|done].
    destruct (u_followedComics u) as [follows|] eqn:Hf; [|done].
    intros Hin%bool_decide_eq_true. exists u. by rewrite Hf. }
  split.
  - intros Hnone. unfold filteredComics. rewrite filter_none; [done|].
    intros c _. apply andb_false_iff. right.
    apply not_true_is_false. intros (u & -> & Hin)%Hcat.
    simpl in Hnone. rewrite Hnone in Hin. by apply elem_of_nil in Hin.
  - intros c (_ & _ & Hc)%elem_of_filteredComics. by apply Hcat.
Qed.

(** ** Projections of the state under its setters *)

Lemma view_with_view (v : ViewState) (s : AppState) :
  view (with_view v s) = v.
Proof. reflexivity. Qed.

Lemma comics_with_view (v : ViewState) (s : AppState) :
  comics (with_view v s) = comics s.
Proof. reflexivity. Qed.

Lemma selectedComic_with_view (v : ViewState) (s : AppState) :
  selectedComic (with_view v s) = selectedComic s.
Proof. reflexivity. Qed.

Lemma selectedChapter_with_view (v : ViewState) (s : AppState) :
  selectedChapter (with_view v s) = selectedChapter s.
Proof. reflexivity. Qed.

Lemma user_with_view (v : ViewState) (s : AppState) :
  user (with_view v s) = user s.
Proof. reflexivity. Qed.

Lemma resumeData_with_view (v : ViewState) (s : AppState) :
  resumeData (with_view v s) = resumeData s.
Proof. reflexivity. Qed.

Lemma io_log_with_view (v : ViewState) (s : AppState) :
  io_log (with_view v s) = io_log s.
Proof. reflexivity. Qed.

Lemma view_with_user (v : option User) (s : AppState) :
  view (with_user v s) = view s.
Proof. reflexivity. Qed.

Lemma comics_with_user (v : option User) (s : AppState) :
  comics (with_user v s) = comics s.
Proof. reflexivity. Qed.

Lemma selectedComic_with_user (v : option User) (s : AppState) :
  selectedComic (with_user v s) = selectedComic s.
Proof. reflexivity. Qed.

Lemma selectedChapter_with_user (v : option User) (s : AppState) :
  selectedChapter (with_user v s) = selectedChapter s.
Proof. reflexivity. Qed.

Lemma user_with_user (v : option User) (s : AppState) :
  user (with_user v s) = v.
Proof. reflexivity. Qed.

Lemma resumeData_with_user (v : option User) (s : AppState) :
  resumeData (with_user v s) = resumeData s.
Proof. reflexivity. Qed.

Lemma io_log_with_user (v : option User) (s : AppState) :
  io_log (with_user v s) = io_log s.
Proof. reflexivity. Qed.

Lemma view_emit (v : IoCall) (s : AppState) :
  view (emit v s) = view s.
Proof. reflexivity. Qed.

Lemma comics_emit (v : IoCall) (s : AppState) :
  comics (emit v s) = comics s.
Proof. reflexivity. Qed.

Lemma selectedComic_emit (v : IoCall) (s : AppState) :
  selectedComic (emit v s) = selectedComic s.
Proof. reflexivity. Qed.

Lemma selectedChapter_emit (v : IoCall) (s : AppState) :
  selectedChapter (emit v s) = selectedChapter s.
Proof. reflexivity. Qed.

Lemma user_emit (v : IoCall) (s : AppState) :
  user (emit v s) = user s.
Proof. reflexivity. Qed.

Lemma resumeData_emit (v : IoCall) (s : AppState) :
  resumeData (emit v s) = resumeData s.
Proof. reflexivity. Qed.

Lemma io_log_emit (v : IoCall) (s : AppState) :
  io_log (emit v s) = io_log s ++ [v].
Proof. reflexivity. Qed.

Lemma view_setComics (v : list Comic) (s : AppState) :
  view (setComics v s) = view s.
Proof. reflexivity. Qed.

Lemma comics_setComics (v : list Comic) (s : AppState) :
  comics (setComics v s) = v.
Proof. reflexivity. Qed.

Lemma selectedComic_setComics (v : list Comic) (s : AppState) :
  selectedComic (setComics v s) = selectedComic s.
Proof. reflexivity. Qed.

Lemma selectedChapter_setComics (v : list Comic) (s : AppState) :
  selectedChapter (setComics v s) = selectedChapter s.
Proof. reflexivity. Qed.

Lemma user_setComics (v : list Comic) (s : AppState) :
  user (setComics v s) = user s.
Proof. reflexivity. Qed.

Lemma resumeData_setComics (v : list Comic) (s : AppState) :
  resumeData (setComics v s) = resumeData s.
Proof. reflexivity. Qed.

Lemma io_log_setComics (v : list Comic) (s : AppState) :
  io_log (setComics v s) = io_log s.
Proof. reflexivity. Qed.

Lemma view_setSelectedComic (v : option Comic) (s : AppState) :
  view (setSelectedComic v s) = view s.
Proof. reflexivity. Qed.

Lemma comics_setSelectedComic (v : option Comic) (s : AppState) :
  comics (setSelectedComic v s) = comics s.
Proof. reflexivity. Qed.

Lemma selectedComic_setSelectedComic (v : option Comic) (s : AppState) :
  selectedComic (setSelectedComic v s) = v.
Proof. reflexivity. Qed.

Lemma selectedChapter_setSelectedComic (v : option Comic) (s : AppState) :
  selectedChapter (setSelectedComic v s) = selectedChapter s.
Proof. reflexivity. Qed.

Lemma user_setSelectedComic (v : option Comic) (s : AppState) :
  user (setSelectedComic v s) = user s.
Proof. reflexivity. Qed.

Lemma resumeData_setSelectedComic (v : option Comic) (s : AppState) :
  resumeData (setSelectedComic v s) = resumeData s.
Proof. reflexivity. Qed.

Lemma io_log_setSelectedComic (v : option Comic) (s : AppState) :
  io_log (setSelectedComic v s) = io_log s.
Proof. reflexivity. Qed.

Lemma view_setSelectedChapter (v : option Chapter) (s : AppState) :
  view (setSelectedChapter v s) = view s.
Proof. reflexivity. Qed.

Lemma comics_setSelectedChapter (v : option Chapter) (s : AppState) :
  comics (setSelectedChapter v s) = comics s.
Proof. reflexivity. Qed.

Lemma selectedComic_setSelectedChapter (v : option Chapter) (s : AppState) :
  selectedComic (setSelectedChapter v s) = selectedComic s.
Proof. reflexivity. Qed.

Lemma selectedChapter_setSelectedChapter (v : option Chapter) (s : AppState) :
  selectedChapter (setSelectedChapter v s) = v.
Proof. reflexivity. Qed.

Lemma user_setSelectedChapter (v : option Chapter) (s : AppState) :
  user (setSelectedChapter v s) = user s.
Proof. reflexivity. Qed.

Lemma resumeData_setSelectedChapter (v : option Chapter) (s : AppState) :
  resumeData (setSelectedChapter v s) = resumeData s.
Proof. reflexivity. Qed.

Lemma io_log_setSelectedChapter (v : option Chapter) (s : AppState) :
  io_log (setSelectedChapter v s) = io_log s.
Proof. reflexivity. Qed.

Lemma view_setResumeData (v : option ResumeData) (s : AppState) :
  view (setResumeData v s) = view s.
Proof. reflexivity. Qed.

Lemma comics_setResumeData (v : option ResumeData) (s : AppState) :
  comics (setResumeData v s) = comics s.
Proof. reflexivity. Qed.

Lemma selectedComic_setResumeData (v : option ResumeData) (s : AppState) :
  selectedComic (setResumeData v s) = selectedComic s.
Proof. reflexivity. Qed.

Lemma selectedChapter_setResumeData (v : option ResumeData) (s : AppState) :
  selectedChapter (setResumeData v s) = selectedChapter s.
Proof. reflexivity. Qed.

Lemma user_setResumeData (v : option ResumeData) (s : AppState) :
  user (setResumeData v s) = user s.
Proof. reflexivity. Qed.

Lemma resumeData_setResumeData (v : option ResumeData) (s : AppState) :
  resumeData (setResumeData v s) = v.
Proof. reflexivity. Qed.

Lemma io_log_setResumeData (v : option ResumeData) (s : AppState) :
  io_log (setResumeData v s) = io_log s.
Proof. reflexivity. Qed.

Lemma view_with_ls_last_session (v : option StoredSession) (s : AppState) :
  view (with_ls_last_session v s) = view s.
Proof. reflexivity. Qed.

Lemma comics_with_ls_last_session (v : option StoredSession) (s : AppState) :
  comics (with_ls_last_session v s) = comics s.
Proof. reflexivity. Qed.

Lemma selectedComic_with_ls_last_session (v : option StoredSession) (s : AppState) :
  selectedComic (with_ls_last_session v s) = selectedComic s.
Proof. reflexivity. Qed.

Lemma selectedChapter_with_ls_last_session (v : option StoredSession) (s : AppState) :
  selectedChapter (with_ls_last_session v s) = selectedChapter s.
Proof. reflexivity. Qed.

Lemma user_with_ls_last_session (v : option StoredSession) (s : AppState) :
  user (with_ls_last_session v s) = user s.
Proof. reflexivity. Qed.

Lemma resumeData_with_ls_last_session (v : option StoredSession) (s : AppState) :
  resumeData (with_ls_last_session v s) = resumeData s.
Proof. reflexivity. Qed.

Lemma io_log_with_ls_last_session (v : option StoredSession) (s : AppState) :
  io_log (with_ls_last_session v s) = io_log s.
Proof. reflexivity. Qed.

Lemma view_grant_exp (s : AppState) : view (grant_exp s) = view s.
Proof. unfold grant_exp. by destruct (user s). Qed.

Lemma comics_grant_exp (s : AppState) : comics (grant_exp s) = comics s.
Proof. unfold grant_exp. by destruct (user s). Qed.

Lemma selectedComic_grant_exp (s : AppState) : selectedComic (grant_exp s) = selectedComic s.
Proof. unfold grant_exp. by destruct (user s). Qed.

Lemma selectedChapter_grant_exp (s : AppState) : selectedChapter (grant_exp s) = selectedChapter s.
Proof. unfold grant_exp. by destruct (user s). Qed.

Lemma resumeData_grant_exp (s : AppState) : resumeData (grant_exp s) = resumeData s.
Proof. unfold grant_exp. by destruct (user s). Qed.

Lemma user_grant_exp (s : AppState) :
  user (grant_exp s)
    = (λ u, user_with_exp (Some (orZero (u_exp u) + 10)) u) <$> user s.
Proof. unfold grant_exp. destruct (user s) eqn:Hu; [done|by rewrite Hu]. Qed.

Create Rewrite HintDb frame.
#[local] Hint Rewrite view_with_view comics_with_view
  selectedComic_with_view selectedChapter_with_view user_with_view
  resumeData_with_view io_log_with_view view_with_user comics_with_user
  selectedComic_with_user selectedChapter_with_user user_with_user
  resumeData_with_user io_log_with_user view_emit comics_emit
  selectedComic_emit selectedChapter_emit user_emit resumeData_emit
  io_log_emit view_setComics comics_setComics selectedComic_setComics
  selectedChapter_setComics user_setComics resumeData_setComics
  io_log_setComics view_setSelectedComic comics_setSelectedComic
  selectedComic_setSelectedComic selectedChapter_setSelectedComic
  user_setSelectedComic resumeData_setSelectedComic io_log_setSelectedComic
  view_setSelectedChapter comics_setSelectedChapter
  selectedComic_setSelectedChapter selectedChapter_setSelectedChapter
  user_setSelectedChapter resumeData_setSelectedChapter
  io_log_setSelectedChapter view_setResumeData comics_setResumeData
  selectedComic_setResumeData selectedChapter_setResumeData
  user_setResumeData resumeData_setResumeData io_log_setResumeData
  view_with_ls_last_session comics_with_ls_last_session
  selectedComic_with_ls_last_session selectedChapter_with_ls_last_session
  user_with_ls_last_session resumeData_with_ls_last_session
  io_log_with_ls_last_session view_grant_exp comics_grant_exp
  selectedComic_grant_exp selectedChapter_grant_exp resumeData_grant_exp
  user_grant_exp
  : frame.

(** ** The effects leave the selection alone *)

Lemma same_selection_refl (s : AppState) : same_selection s s.
Proof. by repeat split. Qed.

Lemma same_selection_trans (s1 s2 s3 : AppState) :
  same_selection s1 s2 → same_selection s2 s3 → same_selection s1 s3.
Proof.
  unfold same_selection. intros H1 H2.
  destruct H1 as (?&?&?&?&?&?&?&?&?), H2 as (?&?&?&?&?&?&?&?&?).
  repeat split; congruence.
Qed.

Lemma resumeEffect_selection (r s : AppState) :
  same_selection s (resumeEffect r s).
Proof.
  rewrite resumeEffect_resolve.
  destruct (comics r), (selectedComic r); try apply same_selection_refl.
  destruct (resolveSession _ _); [|apply same_selection_refl].
  by repeat split.
Qed.

Lemma sessionEffect_selection (r s : AppState) :
  same_selection s (sessionEffect r s).
Proof.
  unfold sessionEffect.
  destruct (selectedComic r); [|apply same_selection_refl].
  destruct (resumeData r); [|by repeat split].
  destruct (decide _); by repeat split.
Qed.

Lemma commit_selection (s : AppState) : same_selection s (commit s).
Proof.
  unfold commit.
  assert (H0 : same_selection s (with_dirty clean s)) by by repeat split.
  destruct (d_comics (dirty s) || d_selectedComic (dirty s));
    destruct (d_selectedComic (dirty s) || d_selectedChapter (dirty s)
              || d_resumeData (dirty s)).
  - eapply same_selection_trans; [|apply sessionEffect_selection].
    eapply same_selection_trans; [exact H0|apply resumeEffect_selection].
  - eapply same_selection_trans; [exact H0|apply resumeEffect_selection].
  - eapply same_selection_trans; [exact H0|apply sessionEffect_selection].
  - exact H0.
Qed.

Lemma settle_selection (s : AppState) : same_selection s (settle s).
Proof.
  unfold settle.
  eapply same_selection_trans; [|apply commit_selection].
  eapply same_selection_trans; [|apply commit_selection].
  apply commit_selection.
Qed.

(** X12.  The two effects come to rest: after the commits of [settle] no
    effect has anything left to do, so a further commit, or settling
    again, changes nothing.  Along the way the effects touch nothing but
    the resume candidate, the stored session and their own dirty marks. *)
Theorem effects_settle (s : AppState) :
  commit (settle s) = settle s ∧ settle (settle s) = settle s ∧
  same_selection s (settle s).
Proof.
  assert (Hc : commit (settle s) = settle s)
    by (apply commit_idle, settle_clean).
  split; [exact Hc|]. split; [|apply settle_selection].
  unfold settle at 1. by rewrite !Hc.
Qed.

(** ** Engagement recorder, continued *)












(** X11.  Resuming is opening the comic and reading the chapter, without
    the reading mark.  For a candidate with a chapter, [handleResumeSession]
    leaves the view, the chapter shown and the user as
    [handleOpenComic] followed by [handleReadChapter] would, with the same
    library ids, and selects the same comic except that its [lastRead] is
    the one it had.  For a candidate without a chapter it is
    [handleOpenComic] followed by clearing the candidate.  Either way the
    candidate is cleared. *)
Theorem resume_is_open_then_read (now : Z) (s : AppState) (rd : ResumeData) :
  resumeData s = Some rd →
  resumeData (handleResumeSession s) = None ∧
  (rd_chapter rd = None →
   handleResumeSession s
     = setResumeData None (handleOpenComic (rd_comic rd) s)) ∧
  (∀ rch, rd_chapter rd = Some rch →
     let resumed := handleResumeSession s in
     let walked :=
       handleReadChapter now rch (handleOpenComic (rd_comic rd) s) in
     let keep_mark := comic_with_lastRead (co_lastRead (rd_comic rd)) in
     view resumed = READER ∧ view walked = READER ∧
     selectedChapter resumed = selectedChapter walked ∧
     user resumed = user walked ∧
     selectedComic resumed = keep_mark <$> selectedComic walked ∧
     co_id <$> comics resumed = co_id <$> comics walked).
Proof.
  intros Hrd. unfold handleResumeSession. rewrite Hrd. cbv zeta. split.
  { destruct (rd_chapter rd); by autorewrite with frame. }
  split; [by intros ->|].
  intros rch ->. cbv zeta.
  unfold handleReadChapter, handleOpenComic. cbv zeta.
  autorewrite with frame. cbv zeta. autorewrite with frame.
  split; [reflexivity|]. split; [reflexivity|]. split; [reflexivity|].
  split; [reflexivity|]. split.
  - reflexivity.
  - by rewrite !replace_comic_ids.
Qed.

Lemma resume_is_open_then_read_witness :
  resumeData (handleResumeSession Demo.gallery_state) = None ∧
  selectedChapter (handleResumeSession Demo.gallery_state)
    = selectedChapter
        (handleReadChapter 1700 Demo.chapter1
           (handleOpenComic Demo.comic1 Demo.gallery_state)).
Proof.
  destruct (resume_is_open_then_read 1700 Demo.gallery_state
              (mkResumeData Demo.comic1 (Some Demo.chapter1)) eq_refl)
    as (Hnone & _ & Hwalk).
  split; [exact Hnone|].
  destruct (Hwalk Demo.chapter1 eq_refl) as (_ & _ & Hch & _). exact Hch.
Defined.

(** ** Comment tree engine: what a like changes *)

Lemma Forall2_same {A} (R : A → A → Prop) (l : list A) :
  (∀ x, R x x) → Forall2 R l l.
Proof. intros Hr. induction l; by constructor. Qed.

Lemma toggle_touches_likes_only (commentId userId : jsstring) (c : Comment) :
  without_likes (toggleLikeInComment commentId userId c) = without_likes c ∧
  count_comment (toggleLikeInComment commentId userId c) = count_comment c ∧
  Forall2 (λ f g, c_id f ≠ commentId → g = f)
          (comments_of c)
          (comments_of (toggleLikeInComment commentId userId c)).
Proof.
  induction c as [f r IH] using Comment_ind'.
  destruct (decide (comment_id (mkComment f r) = commentId)) as [Hid|Hid].
  - rewrite (toggle_target _ _ _ Hid). cbn [fields replies].
    split; [reflexivity|]. split; [reflexivity|].
    cbn [comments_of fields replies]. constructor; [done|].
    by apply Forall2_same.
  - rewrite (toggle_other _ _ _ Hid). cbn [fields replies].
    destruct r as [[|r0 rs]|].
    + split; [reflexivity|]. split; [reflexivity|]. by apply Forall2_same.
    + cbn [from_option] in IH.
      generalize dependent (r0 :: rs). clear r0 rs. intros rs IH.
      assert (Hw : map without_likes
                     (map (toggleLikeInComment commentId userId) rs)
                   = map without_likes rs).
      { clear -IH. induction IH as [|c rs (Hc & _) _ IHrs]; [reflexivity|].
        cbn [map]. by rewrite Hc, IHrs. }
      assert (Hn : foldr (λ r m, count_comment r + m)%nat 0%nat
                     (map (toggleLikeInComment commentId userId) rs)
                   = foldr (λ r m, count_comment r + m)%nat 0%nat rs).
      { clear -IH. induction IH as [|c rs (_ & Hc & _) _ IHrs]; [reflexivity|].
        cbn [map foldr]. by rewrite Hc, IHrs. }
      assert (Hf : Forall2 (λ f g, c_id f ≠ commentId → g = f)
                     (flat_map comments_of rs)
                     (flat_map comments_of
                        (map (toggleLikeInComment commentId userId) rs))).
      { clear -IH. induction IH as [|c rs (_ & _ & Hc) _ IHrs]; [constructor|].
        cbn [map flat_map]. by apply Forall2_app. }
      split; [cbn [without_likes fields replies]; by rewrite Hw|].
      split; [cbn [count_comment replies]; by rewrite Hn|].
      cbn [comments_of fields replies]. by constructor.
    + split; [reflexivity|]. split; [reflexivity|]. by apply Forall2_same.
Qed.

(** X13.  A like changes like arrays only, and only at comments with the
    id given: with the like arrays left out the forest is the same before
    and after (same shape, same order, same other fields), it has as many
    comments, and comment by comment in pre-order every comment with
    another id is unchanged. *)
Theorem toggleLike_touches_likes_only (comments : list Comment)
    (commentId userId : jsstring) :
  map without_likes (toggleLikeInComments comments commentId userId)
    = map without_likes comments ∧
  length (toggleLikeInComments comments commentId userId) = length comments ∧
  count_comments (toggleLikeInComments comments commentId userId)
    = count_comments comments ∧
  Forall2 (λ f g, c_id f ≠ commentId → g = f)
          (flat_map comments_of comments)
          (flat_map comments_of
             (toggleLikeInComments comments commentId userId)).
Proof.
  unfold toggleLikeInComments, count_comments.
  split; [|split; [apply length_map|]].
  - induction comments as [|c cs IH]; [reflexivity|]. cbn [map].
    destruct (toggle_touches_likes_only commentId userId c) as (-> & _).
    by rewrite IH.
  - split.
    + induction comments as [|c cs IH]; [reflexivity|]. cbn [map foldr].
      destruct (toggle_touches_likes_only commentId userId c) as (_ & -> & _).
      by rewrite IH.
    + induction comments as [|c cs IH]; [constructor|]. cbn [map flat_map].
      apply Forall2_app; [|exact IH].
      by destruct (toggle_touches_likes_only commentId userId c) as (_ & _ & ?).
Qed.

Lemma toggled_likes_flips (likes : option (list jsstring)) (userId : jsstring) :
  (userId ∈ toggled_likes likes userId ↔ userId ∉ default [] likes) ∧
  (∀ u, u ≠ userId →
        u ∈ toggled_likes likes userId ↔ u ∈ default [] likes) ∧
  (NoDup (default [] likes) → NoDup (toggled_likes likes userId)).
Proof.
  unfold toggled_likes, arr_includes. set (l := default [] likes).
  destruct (decide (userId ∈ l)) as [Hin|Hin].
  - rewrite bool_decide_eq_true_2 by done. split; [|split].
    + split; [intros H; by apply not_elem_of_filter_ne in H|done].
    + intros u Hu. rewrite list_elem_of_filter. split; [by intros [_ ?]|done].
    + apply NoDup_filter.
  - rewrite bool_decide_eq_false_2 by done. split; [|split].
    + split; [done|]. intros _. apply elem_of_app. right. apply list_elem_of_here.
    + intros u Hu. rewrite elem_of_app, list_elem_of_singleton.
      split; [by intros [?|?]|by left].
    + intros Hnd. apply NoDup_app. split; [done|].
      split; [|apply NoDup_singleton].
      intros x Hx ->%list_elem_of_singleton. done.
Qed.

(** X14.  A like on a top-level comment flips the user in that comment's
    like array and nothing else: afterwards the array is present, the user
    is in it exactly if they were not before, every other user is in it
    exactly if they were before, an array without repeats stays without
    repeats, and the replies of the comment are as they were. *)
Theorem toggleLike_flips_membership (comments : list Comment)
    (commentId userId : jsstring) (i : nat) (c : Comment) :
  comments !! i = Some c → comment_id c = commentId →
  ∃ c' likes',
    toggleLikeInComments comments commentId userId !! i = Some c' ∧
    replies c' = replies c ∧
    clear_likes (fields c') = clear_likes (fields c) ∧
    c_likes (fields c') = Some likes' ∧
    (userId ∈ likes' ↔ userId ∉ default [] (c_likes (fields c))) ∧
    (∀ u, u ≠ userId → u ∈ likes' ↔ u ∈ default [] (c_likes (fields c))) ∧
    (NoDup (default [] (c_likes (fields c))) → NoDup likes').
Proof.
  intros Hi Hid.
  exists (toggleLikeInComment commentId userId c),
         (toggled_likes (c_likes (fields c)) userId).
  split.
  { unfold toggleLikeInComments.
    etrans; [apply list_lookup_fmap|]. by rewrite Hi. }
  rewrite (toggle_target _ _ _ Hid). cbn [fields replies].
  split; [reflexivity|]. split; [reflexivity|]. split; [reflexivity|].
  apply toggled_likes_flips.
Qed.

Lemma toggleLike_flips_membership_witness :
  ∃ c' likes',
    toggleLikeInComments [Demo.liked_comment] (utf16 "c1") (utf16 "u1") !! 0%nat
      = Some c' ∧
    c_likes (fields c') = Some likes' ∧
    (utf16 "u1" ∈ likes' ↔
     utf16 "u1" ∉ default [] (c_likes (fields Demo.liked_comment))).
Proof.
  destruct (toggleLike_flips_membership [Demo.liked_comment] (utf16 "c1")
              (utf16 "u1") 0 Demo.liked_comment eq_refl eq_refl)
    as (c' & likes' & Hc & _ & _ & Hl & Hflip & _).
  by exists c', likes'.
Defined.

(** ** Comment tree engine: what a post leaves in the store *)

Lemma erase_leaf_depth (t : ltree) (f : CommentFields) :
  erase t = mkComment f (Some []) → depth t = 1%nat.
Proof.
  destruct t as [l g r kids]. cbn [erase].
  destruct r as [a|]; [|discriminate].
  intros [= _ Hkids]. by destruct kids.
Qed.

Lemma forest_depth_snoc (ts : list ltree) (t : ltree) :
  forest_depth (ts ++ [t]) = Nat.max (forest_depth ts) (depth t).
Proof.
  unfold forest_depth. induction ts as [|k ts IH]; simpl; [lia|].
  rewrite IH. lia.
Qed.

(** X15.  A top-level post ([parentId] absent or empty) never fails and
    never touches the forest it starts from: read through
    [updatedComments] the forest is the old one with the new comment, which
    has an empty replies array, appended at the end; read through the
    caller's array it is the old forest.  No fuel is needed, since nothing
    is searched. *)
Theorem top_level_post_appends (fuel fuel' : nat) (h : heap) (a : loc)
    (ts : list ltree) (user : User) (content : jsstring)
    (parentId : option jsstring) (t_id t_created : Z) :
  stored_forest h a ts →
  parentId = None ∨ parentId = Some [] →
  (forest_depth ts < fuel')%nat → (1 < fuel')%nat →
  ∃ h' updatedComments,
    handleAddChapterComment fuel h (Some a) user content parentId
                            t_id t_created
      = Some (h', updatedComments) ∧
    updatedComments ≠ a ∧
    read_comments fuel' h a = Some (map erase ts) ∧
    read_comments fuel' h' a = Some (map erase ts) ∧
    read_comments fuel' h' updatedComments
      = Some (map erase ts
              ++ [mkComment (newCommentFields user content t_id t_created)
                            (Some [])]).
Proof.
  intros Hst Hparent Hdepth Hone.
  destruct (handleAddChapterComment_top_level fuel h a ts user content
              parentId t_id t_created Hst Hparent)
    as (h' & uc & tn & Hrun & Hne & Herase & Huc & Ha).
  exists h', uc. split; [exact Hrun|]. split; [exact Hne|].
  split; [by apply read_comments_stored|].
  split; [by apply read_comments_stored|].
  rewrite (read_comments_stored fuel' h' uc (ts ++ [tn]) Huc).
  - by rewrite map_app, <- Herase.
  - rewrite forest_depth_snoc, (erase_leaf_depth _ _ Herase). lia.
Qed.

Lemma top_level_post_appends_witness :
  ∃ h' updatedComments,
    handleAddChapterComment 0 Demo.thread_heap (Some 0%nat) Demo.reader
        (utf16 "ok") None 1700 1701
      = Some (h', updatedComments) ∧
    read_comments 3 h' 0%nat = Some (map erase Demo.thread) ∧
    read_comments 3 h' updatedComments
      = Some (map erase Demo.thread
              ++ [mkComment (newCommentFields Demo.reader (utf16 "ok")
                                              1700 1701) (Some [])]).
Proof.
  destruct (top_level_post_appends 0 3 Demo.thread_heap 0%nat Demo.thread
              Demo.reader (utf16 "ok") None 1700 1701)
    as (h' & uc & Hrun & _ & _ & Ha & Huc).
  - split; [reflexivity|]. repeat constructor.
  - by left.
  - vm_compute. lia.
  - lia.
  - by exists h', uc.
Defined.

(** X16.  A reply to a comment that is not in the forest is dropped
    without notice: [addReplyRecursively] finds no comment with the id,
    the handler goes on, and the forest read through [updatedComments] is
    the old forest, as is the one read through the caller's array; the new
    comment is in neither. *)
Theorem reply_to_unknown_parent_is_dropped (fuel fuel' : nat) (h : heap)
    (a : loc) (ts : list ltree) (user : User) (content parentId : jsstring)
    (t_id t_created : Z) :
  stored_forest h a ts → unshared a ts →
  existsb (mentions parentId) (map erase ts) = false →
  truthy parentId = true →
  (forest_depth ts < fuel)%nat → (forest_depth ts < fuel')%nat →
  ∃ h' updatedComments,
    handleAddChapterComment fuel h (Some a) user content (Some parentId)
                            t_id t_created
      = Some (h', updatedComments) ∧
    updatedComments ≠ a ∧
    read_comments fuel' h' updatedComments = Some (map erase ts) ∧
    read_comments fuel' h' a = Some (map erase ts).
Proof.
  intros Hst Hun Hex Htruthy Hfuel Hfuel'.
  set (nf := newCommentFields user content t_id t_created).
  pose proof (handler_allocations h a ts nf Hst) as Halloc.
  cbn zeta in Halloc.
  destruct Halloc as (Ha2 & Hne & Hsame & Hfresh & _ & Htn & Hforest).
  set (ra := alloc h) in *.
  set (h1 := <[ra := ArrayObject []]> h) in *.
  set (nc := alloc h1) in *.
  set (h2 := <[nc := CommentObject nf (Some ra)]> h1) in *.
  set (uc := alloc h2) in *.
  set (h3 := <[uc := ArrayObject (map lt_loc ts)]> h2) in *.
  set (tn := LNode nc nf (Some ra) []) in *.
  assert (Hfp : ∀ x, x ∈ flat_map footprint ts → is_Some (h !! x)).
  { intros x (t & Ht & Hx)%elem_of_flat_map. destruct Hst as [_ Hst].
    rewrite Forall_forall in Hst. eapply stored_dom; [|exact Hx]. auto. }
  assert (Hun3 : unshared uc ts).
  { unfold unshared in *. apply NoDup_cons in Hun as [_ Hnd].
    constructor; [|exact Hnd]. intros Hin.
    by destruct (Hfresh uc (Hfp _ Hin)) as (_ & _ & ?). }
  assert (Hdisj : ∀ x, x ∈ footprint tn → x ∉ flat_map footprint ts).
  { intros x Hx Hin. destruct (Hfresh x (Hfp _ Hin)) as (? & ? & _).
    simpl in Hx. rewrite !elem_of_cons in Hx.
    destruct Hx as [->|[->|Hx]]; [done|done|by apply elem_of_nil in Hx]. }
  destruct (addReplyRecursively_outcome parentId tn fuel h3 uc ts
              Hforest Hun3 Htn Hdisj Hfuel) as [Hno _].
  specialize (Hno Hex).
  exists h3, uc.
  destruct parentId as [|u us]; [discriminate|].
  split.
  { unfold handleAddChapterComment. cbn zeta.
    fold ra h1 nc. fold nf. fold h2. rewrite Ha2. simpl.
    fold uc h3. change nc with (lt_loc tn). by rewrite Hno. }
  split; [exact Hne|].
  split; [by apply read_comments_stored|].
  apply read_comments_stored; [|exact Hfuel'].
  destruct Hforest as [_ Hts3]. split; [|exact Hts3].
  destruct Hst as [Ha _]. rewrite Hsame; [exact Ha|by eexists].
Qed.

Lemma reply_to_unknown_parent_is_dropped_witness :
  ∃ h' updatedComments,
    handleAddChapterComment 3 Demo.thread_heap (Some 0%nat) Demo.reader
        (utf16 "ok") (Some (utf16 "c7")) 1700 1701
      = Some (h', updatedComments) ∧
    read_comments 3 h' updatedComments = Some (map erase Demo.thread) ∧
    read_comments 3 h' 0%nat = Some (map erase Demo.thread).
Proof.
  destruct (reply_to_unknown_parent_is_dropped 3 3 Demo.thread_heap 0%nat
              Demo.thread Demo.reader (utf16 "ok") (utf16 "c7") 1700 1701)
    as (h' & uc & Hrun & _ & Huc & Ha).
  - split; [reflexivity|]. repeat constructor.
  - unfold unshared. apply (bool_decide_unpack _). vm_compute. exact I.
  - vm_compute. reflexivity.
  - reflexivity.
  - vm_compute. lia.
  - vm_compute. lia.
  - by exists h', uc.
Defined.

(** ** Session tracker: what a settled selection leaves behind *)














(** ** Deleting a comic *)

Lemma resolveSession_in (stored : option StoredSession) (cs : list Comic)
    (rd : ResumeData) :
  resolveSession stored cs = Some rd → rd_comic rd ∈ cs.
Proof.
  unfold resolveSession. destruct stored as [[p|]|]; [|done|done].
  destruct (find_comic (s_comicId p) cs) as [c|] eqn:Hc; [|done].
  intros [= <-]. by apply find_comic_Some in Hc as [? _].
Qed.

(** The state [handleDeleteComic] leaves when an administrator confirms. *)
Lemma handleDeleteComic_confirmed (id : jsstring) (updatedLibrary : list Comic)
    (s : AppState) :
  is_admin (user s) = true →
  comics (handleDeleteComic id true updatedLibrary s s) = updatedLibrary ∧
  io_log (handleDeleteComic id true updatedLibrary s s)
    = io_log s ++ [DeleteComicFromLibrary id] ∧
  selectedComic (handleDeleteComic id true updatedLibrary s s)
    = match selectedComic s with
      | Some sc => if decide (co_id sc = id) then None else Some sc
      | None => None
      end ∧
  resumeData (handleDeleteComic id true updatedLibrary s s)
    = match resumeData s with
      | Some rd => if decide (co_id (rd_comic rd) = id) then None else Some rd
      | None => None
      end ∧
  view (handleDeleteComic id true updatedLibrary s s)
    = match selectedComic s with
      | Some sc => if decide (co_id sc = id) then GALLERY else view s
      | None => view s
      end.
Proof.
  intros Hadmin. unfold handleDeleteComic. rewrite Hadmin. cbn [negb].
  cbv zeta.
  destruct (resumeData s) as [rd|] eqn:Hrd;
    [destruct (decide (co_id (rd_comic rd) = id))|];
    (destruct (selectedComic s) as [sc|] eqn:Hsel;
       [destruct (decide (co_id sc = id))|]).
  all: autorewrite with frame; rewrite ?Hrd, ?Hsel; by repeat split.
Qed.

(** X18.  A deleted comic is forgotten.  When an administrator confirms
    the deletion and the storage service answers with a library that no
    longer holds the id, then once the effects have run the library is the
    one answered, the deletion is the one call that went out, no comic
    with that id is selected, no resume candidate names one, and if the
    deleted comic was open the gallery is shown. *)
Theorem deleted_comic_is_forgotten (s : AppState) (id : jsstring)
    (updatedLibrary : list Comic) :
  is_admin (user s) = true →
  (∀ c, c ∈ updatedLibrary → co_id c ≠ id) →
  comics (step s (DeleteComic id true updatedLibrary)) = updatedLibrary ∧
  io_log (step s (DeleteComic id true updatedLibrary))
    = io_log s ++ [DeleteComicFromLibrary id] ∧
  (∀ sc, selectedComic (step s (DeleteComic id true updatedLibrary)) = Some sc →
         co_id sc ≠ id) ∧
  (∀ rd, resumeData (step s (DeleteComic id true updatedLibrary)) = Some rd →
         co_id (rd_comic rd) ≠ id) ∧
  (∀ sc, selectedComic s = Some sc → co_id sc = id →
         view (step s (DeleteComic id true updatedLibrary)) = GALLERY ∧
         selectedComic (step s (DeleteComic id true updatedLibrary)) = None).
Proof.
  intros Hadmin Hgone. unfold step. cbn [handle].
  destruct (handleDeleteComic_confirmed id updatedLibrary s Hadmin)
    as (Hcs & Hio & Hsel & Hrd & Hview).
  set (h := handleDeleteComic id true updatedLibrary s s) in *.
  clearbody h.
  destruct (settle_selection h)
    as (Sview & Scs & _ & _ & _ & Ssel & _ & _ & Sio).
  split; [by rewrite Scs|]. split; [by rewrite Sio|]. split.
  { intros sc. rewrite Ssel, Hsel.
    destruct (selectedComic s) as [sc0|]; [|done].
    destruct (decide (co_id sc0 = id)); [done|]. by intros [= <-]. }
  split.
  { assert (Hh : ∀ rd, resumeData h = Some rd → co_id (rd_comic rd) ≠ id).
    { intros rd. rewrite Hrd. destruct (resumeData s) as [rd0|]; [|done].
      destruct (decide (co_id (rd_comic rd0) = id)); [done|].
      by intros [= <-]. }
    intros rd. destruct (selectedComic h) as [sc|] eqn:Hhsel.
    - rewrite (settle_open h sc Hhsel).
      destruct (d_selectedComic (dirty h) || d_selectedChapter (dirty h)
                || d_resumeData (dirty h)); cbn; [|apply Hh].
      destruct (resumeData h) as [rd0|] eqn:Hrd0; [|done].
      destruct (decide _); [done|]. intros [= <-]. by apply Hh.
    - rewrite (settle_closed h Hhsel).
      destruct (d_comics (dirty h) || d_selectedComic (dirty h)); cbn;
        [|apply Hh].
      destruct (comics h) as [|c0 cs] eqn:Hhcs; [apply Hh|].
      destruct (resolveSession _ _) as [rd0|] eqn:Hres; [|apply Hh].
      cbn. intros [= <-]. apply resolveSession_in in Hres.
      apply Hgone. by rewrite <- Hcs. }
  intros sc Hs Hid. rewrite Sview, Ssel, Hview, Hsel, Hs.
  by rewrite !decide_True.
Qed.

Lemma deleted_comic_is_forgotten_witness :
  comics (step (with_user (Some (mkUser (utf16 "u0") (utf16 "admin") None
                                         (utf16 "a@example.com") None ADMIN
                                         None None None))
                          Demo.gallery_state)
               (DeleteComic (utf16 "c1") true [Demo.comic2]))
    = [Demo.comic2] ∧
  resumeData (step (with_user (Some (mkUser (utf16 "u0") (utf16 "admin") None
                                             (utf16 "a@example.com") None
                                             ADMIN None None None))
                              Demo.gallery_state)
                   (DeleteComic (utf16 "c1") true [Demo.comic2]))
    = None.
Proof.
  destruct (deleted_comic_is_forgotten
              (with_user (Some (mkUser (utf16 "u0") (utf16 "admin") None
                                       (utf16 "a@example.com") None ADMIN
                                       None None None))
                         Demo.gallery_state)
              (utf16 "c1") [Demo.comic2])
    as (Hcs & _ & _ & Hrd & _).
  - reflexivity.
  - intros c ->%list_elem_of_singleton. vm_compute. discriminate.
  - split; [exact Hcs|]. vm_compute. reflexivity.
Defined.

(** ** The gallery after navigation *)

Lemma matchesCategory_tag (tag : jsstring) (user : option User) (c : Comic) :
  tag ≠ CAT_ALL → tag ≠ CAT_FOLLOWING → tag ≠ CAT_HISTORY →
  matchesCategory tag user c = bool_decide (tag ∈ co_tags c).
Proof.
  intros H1 H2 H3. unfold matchesCategory. by rewrite !decide_False.
Qed.

Lemma removeAccents_nil : removeAccents [] = [].
Proof. reflexivity. Qed.


(** X19.  A click on a tag (on the detail page, or in the header's
    category menu) shows the gallery of that tag: nothing is selected, the
    search is cleared, and the gallery lists exactly the comics of the
    library that carry the tag, provided the tag is not one of the three
    reserved category labels. *)
Theorem tag_click_lists_tagged (localeCompare : jsstring → jsstring → Z)
    (sortOption : SortOption) (s : AppState) (tag : jsstring) :
  tag ≠ CAT_ALL → tag ≠ CAT_FOLLOWING → tag ≠ CAT_HISTORY →
  view (step s (TagClick tag)) = GALLERY ∧
  selectedComic (step s (TagClick tag)) = None ∧
  searchQuery (step s (TagClick tag)) = [] ∧
  selectedCategory (step s (TagClick tag)) = tag ∧
  comics (step s (TagClick tag)) = comics s ∧
  (∀ c, c ∈ gallery localeCompare sortOption (step s (TagClick tag)) ↔
        c ∈ comics s ∧ tag ∈ co_tags c).
Proof.
  intros H1 H2 H3. unfold step. cbn [handle].
  destruct (settle_selection (handleTagClick tag s))
    as (Sview & Scs & Sq & Scat & Sscope & Ssel & _ & Su & _).
  split; [by rewrite Sview|]. split; [by rewrite Ssel|].
  split; [by rewrite Sq|]. split; [by rewrite Scat|].
  split; [by rewrite Scs|].
  intros c. unfold gallery. rewrite elem_of_filteredComics.
  rewrite Sq, Scat, Scs. cbn [searchQuery selectedCategory comics
    handleTagClick setSelectedComic with_dirty with_selectedComic with_view
    with_searchQuery with_selectedCategory].
  rewrite matchesSearch_empty by reflexivity.
  rewrite matchesCategory_tag by done. rewrite bool_decide_eq_true.
  tauto.
Qed.

Lemma tag_click_lists_tagged_witness :
  view (step Demo.detail_state (TagClick (utf16 "Tiên Hiệp"))) = GALLERY ∧
  Demo.comic1 ∈ gallery (λ _ _, 0) LATEST
                  (step Demo.detail_state (TagClick (utf16 "Tiên Hiệp"))).
Proof.
  destruct (tag_click_lists_tagged (λ _ _, 0) LATEST Demo.detail_state
              (utf16 "Tiên Hiệp"))
    as (Hview & _ & _ & _ & _ & Hin).
  - vm_compute. discriminate.
  - vm_compute. discriminate.
  - vm_compute. discriminate.
  - split; [exact Hview|]. apply Hin.
    split; apply list_elem_of_here.
Defined.


(** ** Category chips *)

Lemma elem_of_set_add (s : list jsstring) (tag x : jsstring) :
  x ∈ set_add s tag ↔ x ∈ s ∨ x = tag.
Proof.
  unfold set_add, arr_includes. case_bool_decide as Hin.
  - split; [by left|]. by intros [?| ->].
  - rewrite elem_of_app, list_elem_of_singleton. done.
Qed.

Lemma NoDup_set_add (s : list jsstring) (tag : jsstring) :
  NoDup s → NoDup (set_add s tag).
Proof.
  intros Hnd. unfold set_add, arr_includes. case_bool_decide as Hin; [done|].
  apply NoDup_app. split; [done|]. split; [|apply NoDup_singleton].
  by intros x Hx ->%list_elem_of_singleton.
Qed.

Lemma fold_set_add (tags s : list jsstring) :
  NoDup s →
  NoDup (fold_left set_add tags s) ∧
  ∀ x, x ∈ fold_left set_add tags s ↔ x ∈ s ∨ x ∈ tags.
Proof.
  revert s. induction tags as [|t tags IH]; intros s Hnd; cbn [fold_left].
  - split; [done|]. intros x. rewrite elem_of_nil. tauto.
  - destruct (IH (set_add s t) (NoDup_set_add _ _ Hnd)) as [Hnd' Hin].
    split; [done|]. intros x.
    rewrite Hin, elem_of_set_add, elem_of_cons. tauto.
Qed.

Lemma allTags_spec (comics : list Comic) :
  NoDup (allTags comics) ∧
  ∀ x, x ∈ allTags comics ↔ ∃ c, c ∈ comics ∧ x ∈ co_tags c.
Proof.
  unfold allTags.
  assert (Hgen : ∀ s, NoDup s →
            NoDup (fold_left (λ s comic, fold_left set_add (co_tags comic) s)
                             comics s) ∧
            ∀ x, x ∈ fold_left (λ s comic, fold_left set_add (co_tags comic) s)
                               comics s
                 ↔ x ∈ s ∨ ∃ c, c ∈ comics ∧ x ∈ co_tags c).
  { induction comics as [|c cs IH]; intros s Hnd; cbn [fold_left].
    - split; [done|]. intros x. split; [by left|].
      by intros [?|(c & ?%elem_of_nil & _)].
    - destruct (fold_set_add (co_tags c) s Hnd) as [Hnd1 Hin1].
      destruct (IH _ Hnd1) as [Hnd2 Hin2]. split; [done|].
      intros x. rewrite Hin2, Hin1. split.
      + intros [[?|?]|(c' & ? & ?)]; [by left| |].
        * right. exists c. split; [apply list_elem_of_here|done].
        * right. exists c'. split; [by apply list_elem_of_further|done].
      + intros [?|(c' & [->|?]%elem_of_cons & ?)]; [by left; left| |].
        * left. by right.
        * right. by exists c'. }
  destruct (Hgen [] (NoDup_nil_2)) as [Hnd Hin]. split; [done|].
  intros x. rewrite Hin, elem_of_nil. tauto.
Qed.

(** The order on strings. *)
Lemma string_lt_irrefl (x : jsstring) : string_lt x x = false.
Proof.
  induction x as [|a x IH]; [reflexivity|]. cbn [string_lt].
  by rewrite N.ltb_irrefl, N.eqb_refl, IH.
Qed.

Lemma string_lt_trans (x y z : jsstring) :
  string_lt x y = true → string_lt y z = true → string_lt x z = true.
Proof.
  revert y z. induction x as [|a x IH]; intros [|b y] [|c z]; cbn [string_lt];
    try done.
  rewrite !orb_true_iff, !andb_true_iff, !N.ltb_lt, !N.eqb_eq.
  intros [Hab|[-> Hxy]] [Hbc|[-> Hyz]].
  - left. lia.
  - by left.
  - by left.
  - right. split; [done|]. by eapply IH.
Qed.

Lemma string_lt_connex (x y : jsstring) :
  string_lt x y = false → string_lt y x = false → x = y.
Proof.
  revert y. induction x as [|a x IH]; intros [|b y]; cbn [string_lt];
    try done.
  rewrite !orb_false_iff, !andb_false_iff, !N.ltb_ge, !N.eqb_neq.
  intros [Hab [Hne|Hxy]] [Hba [Hne'|Hyx]]; try lia.
  assert (a = b) as -> by lia. f_equal. by apply IH.
Qed.

Lemma string_lt_asym (x y : jsstring) :
  string_lt x y = true → string_lt y x = false.
Proof.
  intros Hxy. apply not_true_is_false. intros Hyx.
  pose proof (string_lt_trans _ _ _ Hxy Hyx) as Hxx.
  by rewrite string_lt_irrefl in Hxx.
Qed.

Lemma default_compare_le (x y : jsstring) :
  default_compare x y ≤ 0 ↔ string_lt y x = false.
Proof.
  unfold default_compare.
  destruct (string_lt x y) eqn:Hxy.
  - rewrite (string_lt_asym _ _ Hxy). split; [done|lia].
  - destruct (string_lt y x); split; (done || lia).
Qed.

Lemma string_le_trans (x y z : jsstring) :
  string_lt y x = false → string_lt z y = false → string_lt z x = false.
Proof.
  intros Hxy Hyz. apply not_true_is_false. intros Hzx.
  destruct (string_lt x y) eqn:Hlt.
  - by rewrite (string_lt_trans _ _ _ Hzx Hlt) in Hyz.
  - rewrite (string_lt_connex _ _ Hlt Hxy) in Hzx. congruence.
Qed.

Section SortByOrder.
Context {A : Type} (cmp : A → A → Z).
Context (Htrans : ∀ x y z, cmp x y ≤ 0 → cmp y z ≤ 0 → cmp x z ≤ 0).
Context (Htotal : ∀ x y, cmp x y ≤ 0 ∨ cmp y x ≤ 0).

(** Sortedness for a comparator that is a total preorder. *)
Lemma sort_insert_ordered (x : A) (l : list A) :
  StronglySorted (λ a b, cmp a b ≤ 0) l →
  StronglySorted (λ a b, cmp a b ≤ 0) (sort_insert cmp x l).
Proof.
  induction 1 as [|y l Hl IH Hy]; cbn [sort_insert].
  - repeat constructor.
  - destruct (Z.leb_spec0 (cmp x y) 0) as [Hle|Hgt].
    + constructor; [by constructor|].
      constructor; [done|].
      eapply Forall_impl; [exact Hy|]. intros z Hz. by eapply Htrans.
    + constructor; [exact IH|].
      rewrite sort_insert_perm. constructor; [|exact Hy].
      by destruct (Htotal x y).
Qed.

Lemma array_sort_ordered (l : list A) :
  StronglySorted (λ a b, cmp a b ≤ 0) (array_sort cmp l).
Proof.
  induction l as [|x l IH]; cbn [array_sort foldr]; [constructor|].
  by apply sort_insert_ordered.
Qed.
End SortByOrder.

Lemma sortedTags_spec (comics : list Comic) :
  NoDup (array_sort default_compare (allTags comics)) ∧
  (∀ x, x ∈ array_sort default_compare (allTags comics)
        ↔ ∃ c, c ∈ comics ∧ x ∈ co_tags c) ∧
  StronglySorted (λ a b, string_lt a b = true)
                 (array_sort default_compare (allTags comics)).
Proof.
  destruct (allTags_spec comics) as [Hnd Hin].
  assert (Hnd' : NoDup (array_sort default_compare (allTags comics)))
    by by rewrite array_sort_perm.
  split; [exact Hnd'|]. split.
  { intros x. by rewrite array_sort_perm. }
  assert (Hsorted : StronglySorted (λ a b, default_compare a b ≤ 0)
                      (array_sort default_compare (allTags comics))).
  { apply array_sort_ordered.
    - intros x y z. rewrite !default_compare_le. intros Hxy Hyz.
      by eapply string_le_trans.
    - intros x y. rewrite !default_compare_le.
      destruct (string_lt y x) eqn:Hyx; [|by left].
      right. by apply string_lt_asym. }
  revert Hnd' Hsorted.
  generalize (array_sort default_compare (allTags comics)). clear.
  intros l Hnd Hs. induction Hs as [|a l Hs IH Ha]; [constructor|].
  apply NoDup_cons in Hnd as [Hnotin Hnd].
  constructor; [by apply IH|].
  rewrite Forall_forall in *. intros b Hb.
  specialize (Ha b Hb). apply default_compare_le in Ha.
  destruct (string_lt a b) eqn:Hab; [done|].
  by rewrite (string_lt_connex _ _ Hab Ha) in Hnotin.
Qed.

Lemma has_history_spec (comics : list Comic) :
  has_history comics = true ↔ ∃ c, c ∈ comics ∧ is_Some (co_lastRead c).
Proof.
  unfold has_history. rewrite existsb_exists. split.
  - intros (c & Hin & Hc). exists c. split; [by apply list_elem_of_In|].
    by apply bool_decide_eq_true in Hc.
  - intros (c & Hin & Hc). exists c. split; [by apply list_elem_of_In|].
    by apply bool_decide_eq_true.
Qed.

(** X21.  The category chips are: ["Lịch sử"] if a user is logged in and
    some comic has a read marker, ["Đang theo dõi"] if a user is logged in,
    then ["Tất cả"], then the tags.  The tags are those of the comics of
    the library, each of them once, in strictly ascending order of their
    UTF-16 code units. *)
Theorem categories_layout (comics : list Comic) (user : option User) :
  ∃ personal sortedTags,
    categories comics user = personal ++ CAT_ALL :: sortedTags ∧
    personal = match user with
               | Some _ =>
                   (if has_history comics then [CAT_HISTORY] else [])
                   ++ [CAT_FOLLOWING]
               | None => []
               end ∧
    (has_history comics = true ↔
     ∃ c, c ∈ comics ∧ is_Some (co_lastRead c)) ∧
    NoDup sortedTags ∧
    (∀ tag, tag ∈ sortedTags ↔ ∃ c, c ∈ comics ∧ tag ∈ co_tags c) ∧
    StronglySorted (λ a b, string_lt a b = true) sortedTags.
Proof.
  destruct (sortedTags_spec comics) as (Hnd & Hin & Hsorted).
  eexists _, (array_sort default_compare (allTags comics)).
  split; [|split; [reflexivity|]].
  - unfold categories. cbv zeta.
    destruct user; [destruct (has_history comics)|]; reflexivity.
  - split; [apply has_history_spec|]. by split.
Qed.

(** X22.  If no comic carries one of the three reserved labels as a tag,
    then no chip appears twice, and every chip other than ["Tất cả"] and
    ["Đang theo dõi"] leads somewhere: with an empty search, selecting it
    shows at least one comic. *)
Theorem category_chips_lead_somewhere
    (localeCompare : jsstring → jsstring → Z) (searchScope : SearchScope)
    (sortOption : SortOption) (comics : list Comic) (user : option User) :
  (∀ c tag, c ∈ comics → tag ∈ co_tags c → ¬ reserved_label tag) →
  NoDup (categories comics user) ∧
  ∀ cat, cat ∈ categories comics user →
         cat ≠ CAT_ALL → cat ≠ CAT_FOLLOWING →
         filteredComics localeCompare [] searchScope cat sortOption user
                        comics ≠ [].
Proof.
  intros Hfree.
  destruct (sortedTags_spec comics) as (Hnd & Hin & _).
  destruct reserved_distinct as (H12 & H13 & H23).
  assert (Hres : ∀ tag, tag ∈ array_sort default_compare (allTags comics) →
            ¬ reserved_label tag).
  { intros tag (c & Hc & Ht)%Hin. by eapply Hfree. }
  assert (Hshown : ∀ cat c, c ∈ comics →
            matchesCategory cat user c = true →
            filteredComics localeCompare [] searchScope cat sortOption user
                           comics ≠ []).
  { intros cat c Hc Hm Hnil.
    assert (Hc' : c ∈ filteredComics localeCompare [] searchScope cat
                        sortOption user comics).
    { apply elem_of_filteredComics. split; [done|]. split; [|done].
      by apply matchesSearch_empty. }
    rewrite Hnil in Hc'. by apply elem_of_nil in Hc'. }
  assert (Htag : ∀ cat, cat ∈ array_sort default_compare (allTags comics) →
            filteredComics localeCompare [] searchScope cat sortOption user
                           comics ≠ []).
  { intros cat Hcat. pose proof (Hres cat Hcat) as Hnot.
    apply Hin in Hcat as (c & Hc & Ht). apply (Hshown cat c Hc).
    rewrite matchesCategory_tag.
    - by apply bool_decide_eq_true.
    - intros ->. apply Hnot. by left.
    - intros ->. apply Hnot. right. by left.
    - intros ->. apply Hnot. right. by right. }
  assert (Hall : NoDup (CAT_ALL :: array_sort default_compare (allTags comics))).
  { constructor; [|done]. intros Hx. apply (Hres _ Hx). by left. }
  unfold categories. cbv zeta. destruct user as [u|].
  - assert (Hfol : NoDup (CAT_FOLLOWING :: CAT_ALL
                            :: array_sort default_compare (allTags comics))).
    { constructor; [|done]. rewrite elem_of_cons. intros [Heq|Hx]; [congruence|].
      apply (Hres _ Hx). right. by left. }
    destruct (has_history comics) eqn:Hhist.
    + split.
      * constructor; [|done]. rewrite !elem_of_cons.
        intros [Heq|[Heq|Hx]]; [congruence|congruence|].
        apply (Hres _ Hx). right. by right.
      * intros cat. rewrite !elem_of_cons.
        intros [->|[->|[->|Hcat]]] Hn1 Hn2; [|done|done|by apply Htag].
        apply has_history_spec in Hhist as (c & Hc & Hread).
        apply (Hshown _ c Hc). rewrite matchesCategory_history.
        by apply bool_decide_eq_true.
    + split; [done|]. intros cat. rewrite !elem_of_cons.
      intros [->|[->|Hcat]] Hn1 Hn2; [done|done|by apply Htag].
  - split; [done|]. intros cat. rewrite !elem_of_cons.
    intros [->|Hcat] Hn1 Hn2; [done|by apply Htag].
Qed.

Lemma category_chips_lead_somewhere_witness :
  NoDup (categories [Demo.comic1; Demo.comic2] (Some Demo.reader)) ∧
  filteredComics (λ _ _, 0) [] SCOPE_ALL CAT_HISTORY LATEST
                 (Some Demo.reader) [Demo.comic1; Demo.comic2] ≠ [].
Proof.
  destruct (category_chips_lead_somewhere (λ _ _, 0) SCOPE_ALL LATEST
              [Demo.comic1; Demo.comic2] (Some Demo.reader)) as [Hnd Hlead].
  - intros c tag Hc Ht.
    apply elem_of_cons in Hc as [->|Hc];
      [|apply list_elem_of_singleton in Hc as ->].
    all: apply list_elem_of_singleton in Ht as ->.
    all: unfold reserved_label; vm_compute.
    all: intros [H|[H|H]]; discriminate.
  - split; [exact Hnd|]. apply Hlead.
    + vm_compute. apply list_elem_of_here.
    + vm_compute. discriminate.
    + vm_compute. discriminate.
Defined.

(** ** Following a comic *)

Lemma handleToggleFollow_user (comicId : jsstring) (s : AppState) (u : User) :
  user s = Some u →
  handleToggleFollow comicId s
  = handleUpdateUser
      (user_with_followedComics
         (Some (toggled_likes (u_followedComics u) comicId)) u) s.
Proof. intros Hu. unfold handleToggleFollow. by rewrite Hu. Qed.

Lemma matchesCategory_following (user : option User) (c : Comic) :
  matchesCategory CAT_FOLLOWING user c
  = match user with
    | Some u => bool_decide (co_id c ∈ default [] (u_followedComics u))
    | None => false
    end.
Proof.
  destruct reserved_distinct as (H12 & _).
  unfold matchesCategory. rewrite decide_False by done.
  rewrite decide_True by done.
  destruct user as [u|]; [|done]. unfold arr_includes.
  destruct (u_followedComics u); [done|].
  cbn [default]. symmetry. apply bool_decide_eq_false_2, not_elem_of_nil.
Qed.

(** X23.  The follow button of a logged-in user flips the comic in the
    user's follow list and touches nothing else: the comic is followed
    afterwards exactly if it was not before, every other comic keeps its
    place in or out of the list, a list without repetition stays so, the
    other fields of the user are kept, the user is stored locally and then
    sent to the user store, and the page, the library and the selection
    are as before.  With nobody logged in the state does not change. *)
Theorem toggle_follow_flips (comicId : jsstring) (s : AppState) :
  match user s with
  | None => handleToggleFollow comicId s = s
  | Some u =>
      ∃ u' follows',
        user (handleToggleFollow comicId s) = Some u' ∧
        u_followedComics u' = Some follows' ∧
        (comicId ∈ follows' ↔ comicId ∉ default [] (u_followedComics u)) ∧
        (∀ other, other ≠ comicId →
           other ∈ follows' ↔ other ∈ default [] (u_followedComics u)) ∧
        (NoDup (default [] (u_followedComics u)) → NoDup follows') ∧
        u_id u' = u_id u ∧ u_username u' = u_username u ∧
        u_password u' = u_password u ∧ u_email u' = u_email u ∧
        u_avatar u' = u_avatar u ∧ u_role u' = u_role u ∧
        u_exp u' = u_exp u ∧ u_rankSystem u' = u_rankSystem u ∧
        io_log (handleToggleFollow comicId s)
        = io_log s ++ [StoreUser u'; UpdateUserInDB u'] ∧
        view (handleToggleFollow comicId s) = view s ∧
        comics (handleToggleFollow comicId s) = comics s ∧
        selectedComic (handleToggleFollow comicId s) = selectedComic s ∧
        selectedChapter (handleToggleFollow comicId s) = selectedChapter s ∧
        selectedCategory (handleToggleFollow comicId s) = selectedCategory s ∧
        searchQuery (handleToggleFollow comicId s) = searchQuery s ∧
        resumeData (handleToggleFollow comicId s) = resumeData s ∧
        ls_last_session (handleToggleFollow comicId s) = ls_last_session s
  end.
Proof.
  destruct (user s) as [u|] eqn:Hu.
  - rewrite (handleToggleFollow_user comicId s u Hu).
    destruct (toggled_likes_flips (u_followedComics u) comicId)
      as (Hflip & Hother & Hnd).
    eexists _, _. split; [reflexivity|]. split; [reflexivity|].
    split; [exact Hflip|]. split; [exact Hother|]. split; [exact Hnd|].
    unfold handleUpdateUser, emit. cbn [io_log with_io_log with_user].
    rewrite <- app_assoc. repeat split.
  - unfold handleToggleFollow. by rewrite Hu.
Qed.

(** X24.  Following decides what the category ["Đang theo dõi"] shows.
    After a logged-in user pressed the follow button of a comic and then
    selected that category, the gallery lists a comic of the library with
    the toggled id exactly if it was not followed before, and any other
    comic of the library exactly if it was followed before. *)
Theorem follow_then_following_gallery
    (localeCompare : jsstring → jsstring → Z) (sortOption : SortOption)
    (comicId : jsstring) (s : AppState) (u : User) :
  user s = Some u →
  let s' := step (settle (handleToggleFollow comicId s))
                 (TagClick CAT_FOLLOWING) in
  view s' = GALLERY ∧
  ∀ c, c ∈ gallery localeCompare sortOption s' ↔
       c ∈ comics s ∧
       if decide (co_id c = comicId)
       then comicId ∉ default [] (u_followedComics u)
       else co_id c ∈ default [] (u_followedComics u).
Proof.
  intros Hu s'. subst s'. unfold step. cbn [handle].
  match goal with |- context [settle (handleTagClick ?t ?x)] =>
    destruct (settle_selection (handleTagClick t x))
      as (Sview & Scs & Sq & Scat & _ & _ & _ & Su & _) end.
  destruct (settle_selection (handleToggleFollow comicId s))
    as (_ & Tcs & _ & _ & _ & _ & _ & Tu & _).
  split; [by rewrite Sview|].
  intros c. unfold gallery. rewrite elem_of_filteredComics.
  rewrite Sq, Scat, Scs, Su.
  cbn [searchQuery selectedCategory comics user handleTagClick
    setSelectedComic with_dirty with_selectedComic with_view
    with_searchQuery with_selectedCategory].
  rewrite Tcs, Tu. rewrite (handleToggleFollow_user comicId s u Hu).
  unfold handleUpdateUser, emit.
  cbn [comics user with_io_log with_user].
  rewrite matchesSearch_empty by reflexivity.
  rewrite matchesCategory_following.
  cbn [u_followedComics user_with_followedComics default].
  rewrite bool_decide_eq_true.
  destruct (toggled_likes_flips (u_followedComics u) comicId)
    as (Hflip & Hother & _).
  destruct (decide (co_id c = comicId)) as [->|Hne].
  - rewrite Hflip. tauto.
  - rewrite (Hother _ Hne). tauto.
Qed.

Lemma follow_then_following_gallery_witness :
  Demo.comic2 ∈ gallery (λ _ _, 0) LATEST
    (step (settle (handleToggleFollow (utf16 "c2") Demo.detail_state))
          (TagClick CAT_FOLLOWING)).
Proof.
  destruct (follow_then_following_gallery (λ _ _, 0) LATEST (utf16 "c2")
              Demo.detail_state Demo.reader eq_refl) as [_ Hin].
  apply Hin. split.
  - apply list_elem_of_further, list_elem_of_here.
  - rewrite decide_True by reflexivity. apply not_elem_of_nil.
Defined.

(** ** The page is never empty *)

Lemma screen_shown (s : AppState) :
  screen s ≠ NoScreen ↔
  match view s with
  | GALLERY => True
  | DETAIL => is_Some (selectedComic s)
  | READER => is_Some (selectedComic s) ∧ is_Some (selectedChapter s)
  end.
Proof.
  unfold screen. destruct (view s).
  - done.
  - destruct (selectedComic s); split; (done || by intros []).
  - destruct (selectedComic s), (selectedChapter s); split;
      try done; try by intros [[] []].
    all: by intros _; split.
Qed.

Lemma view_with_searchQuery (q : jsstring) (s : AppState) :
  view (with_searchQuery q s) = view s.
Proof. reflexivity. Qed.

Lemma view_with_selectedCategory (c : jsstring) (s : AppState) :
  view (with_selectedCategory c s) = view s.
Proof. reflexivity. Qed.

Lemma view_with_searchScope (c : SearchScope) (s : AppState) :
  view (with_searchScope c s) = view s.
Proof. reflexivity. Qed.

Lemma screen_gallery (s : AppState) : view s = GALLERY → screen s ≠ NoScreen.
Proof. intros Hv. apply screen_shown. by rewrite Hv. Qed.

Lemma screen_same (s s' : AppState) :
  view s' = view s → selectedComic s' = selectedComic s →
  selectedChapter s' = selectedChapter s →
  screen s ≠ NoScreen → screen s' ≠ NoScreen.
Proof. unfold screen. by intros -> -> ->. Qed.

Lemma handle_screen (e : Event) (s : AppState) :
  screen s ≠ NoScreen → screen (handle e s) ≠ NoScreen.
Proof.
  intros Hs. destruct e; cbn [handle].
  - apply screen_shown. unfold handleOpenComic. cbv zeta.
    autorewrite with frame. by eexists.
  - unfold handleReadChapter. destruct (selectedComic s) as [sc|]; [|done].
    cbv zeta. apply screen_shown. autorewrite with frame.
    split; by eexists.
  - unfold handleResumeSession. destruct (resumeData s) as [rd|]; [|done].
    cbv zeta. apply screen_shown. destruct (rd_chapter rd) as [rch|].
    + autorewrite with frame. split; by eexists.
    + autorewrite with frame. by eexists.
  - revert Hs. apply screen_same; unfold handleDismissResume;
      by autorewrite with frame.
  - apply screen_gallery. unfold handleTagClick. by autorewrite with frame.
  - apply screen_shown in Hs. unfold goBack.
    destruct (view s) eqn:Hv.
    + apply screen_gallery.
      rewrite view_with_selectedCategory, view_with_searchQuery.
      by autorewrite with frame.
    + apply screen_gallery.
      rewrite view_with_selectedCategory, view_with_searchQuery.
      by autorewrite with frame.
    + apply screen_shown. autorewrite with frame. tauto.
  - apply screen_gallery. unfold onHomeClick.
    rewrite view_with_searchScope, view_with_selectedCategory,
      view_with_searchQuery.
    by autorewrite with frame.
  - revert Hs. apply screen_same; unfold loadLibrary;
      by autorewrite with frame.
  - unfold handleDeleteComic. destruct (negb (is_admin (user s))); [done|].
    destruct confirmed; [|done]. cbv zeta.
    apply screen_shown in Hs. apply screen_shown.
    destruct (selectedComic s) as [sc|] eqn:Hsc.
    + destruct (decide (co_id sc = id)) as [Hid|Hid].
      * destruct (resumeData s) as [rd|];
          [destruct (decide (co_id (rd_comic rd) = id))|];
          by autorewrite with frame.
      * destruct (resumeData s) as [rd|];
          [destruct (decide (co_id (rd_comic rd) = id))|];
          autorewrite with frame; by rewrite Hsc.
    + destruct (resumeData s) as [rd|];
        [destruct (decide (co_id (rd_comic rd) = id))|];
        autorewrite with frame; by rewrite Hsc.
Qed.

Lemma step_screen (s : AppState) (e : Event) :
  screen s ≠ NoScreen → screen (step s e) ≠ NoScreen.
Proof.
  intros Hs. unfold step.
  destruct (settle_selection (handle e s))
    as (Sview & _ & _ & _ & _ & Ssel & Sch & _).
  eapply screen_same; [exact Sview|exact Ssel|exact Sch|].
  by apply handle_screen.
Qed.

(** X25.  The page is never empty.  [main] renders the gallery, the detail
    page of the selected comic or the reader of the selected chapter; if
    it renders one of them, it still does after any sequence of opening a
    comic, reading a chapter, resuming or dismissing the offer, clicking a
    tag or a category, going back or home, a library reload and a
    deletion, with the effects they trigger.  In particular the detail
    page is never shown without a selected comic, nor the reader without a
    selected chapter. *)
Theorem page_never_empty (s : AppState) (es : list Event) :
  screen s ≠ NoScreen →
  screen (run s es) ≠ NoScreen ∧
  (view (run s es) = DETAIL → is_Some (selectedComic (run s es))) ∧
  (view (run s es) = READER →
   is_Some (selectedComic (run s es)) ∧ is_Some (selectedChapter (run s es))).
Proof.
  intros Hs.
  assert (Hrun : screen (run s es) ≠ NoScreen).
  { unfold run. revert s Hs. induction es as [|e es IH]; intros s Hs;
      cbn [fold_left]; [done|].
    by apply IH, step_screen. }
  split; [exact Hrun|].
  apply screen_shown in Hrun.
  split; intros Hv; by rewrite Hv in Hrun.
Qed.

Lemma page_never_empty_witness :
  screen (run Demo.gallery_state
            [OpenComic Demo.comic1; ReadChapter 5000 Demo.chapter1; GoBack;
             DeleteComic (utf16 "c1") true [Demo.comic2]]) ≠ NoScreen.
Proof.
  apply (page_never_empty Demo.gallery_state
           [OpenComic Demo.comic1; ReadChapter 5000 Demo.chapter1; GoBack;
            DeleteComic (utf16 "c1") true [Demo.comic2]]).
  vm_compute. discriminate.
Defined.
